(** * ChessLens notation recovery pipeline: a shallow embedding

    Source: [Frontend/src/lib/parseChessNotation.ts].

    JavaScript strings are sequences of UTF-16 code units; they are modelled
    as lists of [N].  Regular expressions are modelled by a small
    backtracking matcher with the priorities of the ECMAScript matcher
    (leftmost match, greedy star, ordered alternation), and the string
    methods [replace], [test], [split], [trim] are written over it. *)

From Stdlib Require Import NArith Arith Lia List Bool Ascii String DecimalString.
From Stdlib Require Import DecimalNat.
From stdpp Require Import base option list gmap.

Open Scope N_scope.
Open Scope list_scope.

(** ** Strings *)

Abbreviation char := N (only parsing).
Abbreviation jsstring := (list N) (only parsing).

(** An ASCII literal as a JavaScript string. *)
Definition str (x : string) : jsstring :=
  List.map N_of_ascii (list_ascii_of_string x).

Fixpoint str_eqb (a b : jsstring) : bool :=
  match a, b with
  | [], [] => true
  | x :: a', y :: b' => N.eqb x y && str_eqb a' b'
  | _, _ => false
  end.

(** Truthiness of a string: only the empty string is falsy. *)
Definition truthy (s : jsstring) : bool :=
  match s with [] => false | _ => true end.

(** Truthiness of an optional string field: [undefined] is falsy. *)
Definition truthy_opt (s : option jsstring) : bool :=
  match s with Some x => truthy x | None => false end.

(** [a || b] on strings. *)
Definition or_else (a b : jsstring) : jsstring :=
  if truthy a then a else b.

(** Code units used by the patterns. *)
Definition c_tab : char := 9.
Definition c_lf : char := 10.
Definition c_cr : char := 13.
Definition c_space : char := 32.
Definition c_nbsp : char := 160.
Definition c_dash : char := 45.
Definition c_zero : char := 48.
Definition c_O : char := 79.
Definition c_o : char := 111.
Definition c_cyrO : char := 1054.   (* U+041E *)
Definition c_cyro : char := 1086.   (* U+043E *)
Definition c_cyr_narrow_o : char := 7298. (* U+1C82, upper-cases to U+041E *)

Definition in_range (lo hi c : char) : bool := (lo <=? c) && (c <=? hi).

(** WhiteSpace and LineTerminator of ECMAScript: the set of [\s] and of
    [String.prototype.trim]. *)
Definition is_space (c : char) : bool :=
  in_range 9 13 c || (c =? 32) || (c =? 160) || (c =? 5760)
  || in_range 8192 8202 c || (c =? 8232) || (c =? 8233) || (c =? 8239)
  || (c =? 8287) || (c =? 12288) || (c =? 65279).

Definition is_digit (c : char) : bool := in_range 48 57 c.
Definition is_upper (c : char) : bool := in_range 65 90 c.
Definition is_lower (c : char) : bool := in_range 97 122 c.

(** [\w] *)
Definition is_word (c : char) : bool :=
  is_upper c || is_lower c || is_digit c || (c =? 95).

(** Canonicalize of the ECMAScript matcher under the [i] flag without [u]:
    upper-casing of one code unit, never mapping a non-ASCII unit to an
    ASCII one.  Only the units that can canonicalize to a character of the
    patterns below are listed: the ASCII letters and the two small letters
    whose capital is U+041E. *)
Definition canonicalize (c : char) : char :=
  if is_lower c then c - 32
  else if (c =? c_cyro) || (c =? c_cyr_narrow_o) then c_cyrO
  else c.

Definition to_upper_ascii (c : char) : char :=
  if is_lower c then c - 32 else c.

(** ** Regular expressions *)

Inductive regex : Type :=
| Eps : regex
| Cls : (char -> bool) -> regex
| Seq : regex -> regex -> regex
| Alt : regex -> regex -> regex
| Star : regex -> regex
| Grp : regex -> regex            (* the capture group number 1 *)
| WordB : regex                   (* \b *)
| Bol : regex                     (* ^ *)
| Eol : regex.                    (* $ *)

Definition Opt (r : regex) : regex := Alt r Eps.
Definition Plus (r : regex) : regex := Seq r (Star r).
Definition Chr (c : char) : regex := Cls (N.eqb c).
Definition ChrI (c : char) : regex :=
  Cls (fun x => canonicalize x =? canonicalize c).

Fixpoint Lit (s : jsstring) : regex :=
  match s with
  | [] => Eps
  | c :: t => Seq (Chr c) (Lit t)
  end.

Fixpoint LitI (s : jsstring) : regex :=
  match s with
  | [] => Eps
  | c :: t => Seq (ChrI c) (LitI t)
  end.

Fixpoint seqs (rs : list regex) : regex :=
  match rs with
  | [] => Eps
  | r :: t => Seq r (seqs t)
  end.

(** A character class given by its members; [one_ofI] is the same class
    under the [i] flag. *)
Definition one_of (cs : jsstring) : regex :=
  Cls (fun x => existsb (N.eqb x) cs).
Definition one_ofI (cs : jsstring) : regex :=
  Cls (fun x => existsb (fun c => canonicalize x =? canonicalize c) cs).
Definition none_of (cs : jsstring) : regex :=
  Cls (fun x => negb (existsb (N.eqb x) cs)).

(** Is there a word boundary between the left context [pre] (reversed:
    nearest character first) and the remaining input [s]? *)
Definition word_boundary (pre s : jsstring) : bool :=
  let a := match pre with c :: _ => is_word c | [] => false end in
  let b := match s with c :: _ => is_word c | [] => false end in
  xorb a b.

Section Matcher.
Context {A : Type}.

(** The continuation receives the left context, the remaining input and
    the text of capture group 1. *)
Definition cont := jsstring -> jsstring -> option jsstring -> option A.

(** Greedy iteration of [step]: one more iteration is tried first, and
    an iteration that consumes nothing is refused.  [n] bounds the
    number of iterations; the matcher passes the length of the input. *)
Fixpoint star_loop (step : jsstring -> jsstring -> option jsstring -> cont -> option A)
    (k : cont) (n : nat) (pre s : jsstring) (cap : option jsstring)
    {struct n} : option A :=
  match n with
  | O => k pre s cap
  | S n' =>
      match step pre s cap
              (fun pre' s' cap' =>
                 if (length s' <? length s)%nat
                 then star_loop step k n' pre' s' cap' else None) with
      | Some v => Some v
      | None => k pre s cap
      end
  end.

Fixpoint m (r : regex) (pre s : jsstring) (cap : option jsstring)
    (k : cont) {struct r} : option A :=
  match r with
  | Eps => k pre s cap
  | Cls p =>
      match s with
      | c :: t => if p c then k (c :: pre) t cap else None
      | [] => None
      end
  | Seq r1 r2 => m r1 pre s cap (fun pre' s' cap' => m r2 pre' s' cap' k)
  | Alt r1 r2 =>
      match m r1 pre s cap k with
      | Some v => Some v
      | None => m r2 pre s cap k
      end
  | Star r1 => star_loop (m r1) k (length s) pre s cap
  | Grp r1 =>
      m r1 pre s cap
        (fun pre' s' _ =>
           k pre' s' (Some (firstn (length s - length s')%nat s)))
  | WordB => if word_boundary pre s then k pre s cap else None
  | Bol => match pre with [] => k pre s cap | _ => None end
  | Eol => match s with [] => k pre s cap | _ => None end
  end.
End Matcher.

(** One match attempt at the current position: the number of code units
    matched and the capture. *)
Definition exec (r : regex) (pre s : jsstring) : option (nat * option jsstring) :=
  m r pre s None (fun _ s' cap => Some ((length s - length s')%nat, cap)).

(** Replacement templates: literal text and [$1]. *)
Inductive ritem : Type :=
| RLit : jsstring -> ritem
| RCap : ritem.

Definition template := list ritem.

Definition expand (t : template) (cap : option jsstring) : jsstring :=
  List.concat
    (List.map (fun i => match i with
                        | RLit s => s
                        | RCap => match cap with Some c => c | None => [] end
                        end) t).

(** [s.replace(/r/g, t)].  [skip] counts the code units of the current
    match still to be passed over.  After an empty match the matcher
    advances by one code unit, as [RegExp.prototype[Symbol.replace]]
    does. *)
Fixpoint replace_go (r : regex) (t : template) (pre s : jsstring)
    (skip : nat) {struct s} : jsstring :=
  match skip with
  | S n =>
      match s with
      | [] => []
      | c :: s' => replace_go r t (c :: pre) s' n
      end
  | O =>
      match exec r pre s with
      | Some (S n, cap) =>
          expand t cap ++
          match s with
          | [] => []
          | c :: s' => replace_go r t (c :: pre) s' n
          end
      | Some (O, cap) =>
          expand t cap ++
          match s with
          | [] => []
          | c :: s' => c :: replace_go r t (c :: pre) s' O
          end
      | None =>
          match s with
          | [] => []
          | c :: s' => c :: replace_go r t (c :: pre) s' O
          end
      end
  end.

Definition replace_all (r : regex) (t : template) (s : jsstring) : jsstring :=
  replace_go r t [] s O.

(** [s.replace(/r/, t)]: the first match only. *)
Fixpoint replace_first_go (r : regex) (t : template) (pre s : jsstring)
    {struct s} : jsstring :=
  match exec r pre s with
  | Some (n, cap) => expand t cap ++ skipn n s
  | None =>
      match s with
      | [] => []
      | c :: s' => c :: replace_first_go r t (c :: pre) s'
      end
  end.

Definition replace_first (r : regex) (t : template) (s : jsstring) : jsstring :=
  replace_first_go r t [] s.

(** [/r/.test(s)] *)
Fixpoint test_go (r : regex) (pre s : jsstring) {struct s} : bool :=
  match exec r pre s with
  | Some _ => true
  | None =>
      match s with
      | [] => false
      | c :: s' => test_go r (c :: pre) s'
      end
  end.

Definition test (r : regex) (s : jsstring) : bool := test_go r [] s.

(** [s.split(/r/)] for a pattern without capture groups (SplitMatcher):
    [cur] is the reversed text of the piece being collected.  An empty
    match at the start of a piece is passed over; an empty match further
    on ends the piece there. *)
Fixpoint split_go (r : regex) (pre s cur : jsstring) (skip : nat)
    {struct s} : list jsstring :=
  match s with
  | [] => [rev cur]
  | c :: s' =>
      match skip with
      | S n => split_go r (c :: pre) s' cur n
      | O =>
          match exec r pre s with
          | Some (S n, _) => rev cur :: split_go r (c :: pre) s' [] n
          | Some (O, _) =>
              match cur with
              | [] => split_go r (c :: pre) s' [c] O
              | _ => rev cur :: split_go r (c :: pre) s' [c] O
              end
          | None => split_go r (c :: pre) s' (c :: cur) O
          end
      end
  end.

Definition split (r : regex) (s : jsstring) : list jsstring :=
  match s with
  | [] => match exec r [] [] with Some _ => [] | None => [[]] end
  | _ => split_go r [] s [] O
  end.

(** [trimStart], [trimEnd], [trim] *)
Fixpoint trimStart (s : jsstring) : jsstring :=
  match s with
  | c :: t => if is_space c then trimStart t else s
  | [] => []
  end.

Definition trimEnd (s : jsstring) : jsstring := rev (trimStart (rev s)).
Definition trim (s : jsstring) : jsstring := trimEnd (trimStart s).

(** ** Normalizer *)

Definition ws_star : regex := Star (Cls is_space).
Definition backticks : jsstring := str "```".

(** [/```pgn\s*/gi] *)
Definition re_fence_pgn : regex :=
  Seq (Lit backticks) (Seq (LitI (str "pgn")) ws_star).
(** [/```/g] *)
Definition re_fence : regex := Lit backticks.
(** [/\*\*/g] *)
Definition re_bold : regex := Lit (str "**").

Definition cleanPgnInput (input : jsstring) : jsstring :=
  if negb (truthy input) then []
  else
    trim
      (replace_all (Chr c_cr) [RLit [c_lf]]
         (replace_all (Chr c_nbsp) [RLit [c_space]]
            (replace_all re_bold []
               (replace_all re_fence []
                  (replace_all re_fence_pgn [] input))))).

(** [g1 \s* - \s* g2] and [g1 \s* - \s* g2 \s* - \s* g3] for a glyph
    class [g]. *)
Definition castle2 (g : regex) : regex :=
  seqs [g; ws_star; Chr c_dash; ws_star; g].
Definition castle3 (g : regex) : regex :=
  seqs [g; ws_star; Chr c_dash; ws_star; g; ws_star; Chr c_dash; ws_star; g].

Definition glyph_zero : regex := Chr c_zero.
(** [[oО]] under the [i] flag *)
Definition glyph_o : regex := one_ofI [c_o; c_cyrO].
Definition glyph_O : regex := Chr c_O.

Definition word (r : regex) : regex := Seq WordB (Seq r WordB).

Definition OO : jsstring := str "O-O".
Definition OOO : jsstring := str "O-O-O".

Definition normalizeCastling (text : jsstring) : jsstring :=
  let normalized :=
    replace_all (word (castle2 glyph_O)) [RLit OO]
      (replace_all (word (castle3 glyph_O)) [RLit OOO]
         (replace_all (castle2 glyph_o) [RLit OO]
            (replace_all (castle3 glyph_o) [RLit OOO]
               (replace_all (castle2 glyph_zero) [RLit OO]
                  (replace_all (castle3 glyph_zero) [RLit OOO] text))))) in
  replace_all (word (Lit (str "0-0-0"))) [RLit OOO]
    (replace_all (word (Lit (str "0-0"))) [RLit OO]
       (replace_all (word (Lit (str "000"))) [RLit OOO]
          (replace_all (word (Lit (str "00"))) [RLit OO] normalized))).


(** ** Metadata stripper *)

Definition re_tag : regex :=
  seqs [Chr 91; Star (none_of [93]); Chr 93].          (* \[[^\]]*\] *)
Definition re_brace : regex :=
  seqs [Chr 123; Star (none_of [125]); Chr 125].       (* \{[^}]*\} *)
Definition re_semi : regex :=
  Seq (Chr 59) (Star (none_of [c_lf])).                (* ;[^\n]* *)
Definition re_paren : regex :=
  seqs [Chr 40; Star (none_of [40; 41]); Chr 41].      (* \([^()]*\) *)
Definition re_spaces : regex := Plus (Cls is_space).   (* \s+ *)

Definition blank : template := [RLit [c_space]].

(** The [do ... while (sanitized !== previous)] loop.  Every pass that
    changes the text shortens it, so [S (length s)] passes are enough
    (lemma [strip_parens_fixpoint] below). *)
Fixpoint strip_parens (fuel : nat) (sanitized : jsstring) : jsstring :=
  match fuel with
  | O => sanitized
  | S f =>
      let next := replace_all re_paren blank sanitized in
      if str_eqb next sanitized then next else strip_parens f next
  end.

Definition stripPgnMetadata (text : jsstring) : jsstring :=
  if negb (truthy text) then []
  else
    let sanitized :=
      replace_all re_semi blank
        (replace_all re_brace blank (replace_all re_tag blank text)) in
    let sanitized := strip_parens (S (length sanitized)) sanitized in
    trim (replace_all re_spaces blank sanitized).

(** ** Move token validator *)

Definition files : jsstring := str "abcdefgh".
Definition ranks : jsstring := str "12345678".
Definition pieces : jsstring := str "NBRQK".
Definition promos : jsstring := str "NBRQ".

(** [/^(O-O-O|O-O)$/i] *)
Definition re_castle_lit : regex :=
  seqs [Bol; Alt (LitI OOO) (LitI OO); Eol].
(** [/[a-h][1-8]/] *)
Definition re_dest : regex := Seq (one_of files) (one_of ranks).
(** [/^[NBRQK]?[a-h]?[1-8]?x?[a-h][1-8](?:=[NBRQ])?$/i] *)
Definition re_san : regex :=
  seqs [Bol; Opt (one_ofI pieces); Opt (one_ofI files); Opt (one_ofI ranks);
        Opt (ChrI 120); one_ofI files; one_ofI ranks;
        Opt (Seq (ChrI 61) (one_ofI promos)); Eol].
(** [/[+#?!]/g] *)
Definition re_marks : regex := one_of (str "+#?!").

Definition isValidMove (move : jsstring) : bool :=
  if negb (truthy move) || (length move <? 2)%nat then false
  else
    let cleanedMove := trim (replace_all re_marks [] move) in
    let normalizedMove := normalizeCastling cleanedMove in
    if test re_castle_lit normalizedMove then true
    else if negb (test re_dest normalizedMove) then false
    else test re_san normalizedMove.

(** ** Numbers in template strings *)

(** [`${n}`] for a non-negative integer. *)
Definition show_nat (n : nat) : jsstring :=
  str (DecimalString.NilEmpty.string_of_uint (Nat.to_uint n)).

(** [parseInt] on a token: the value of its leading decimal digits
    (exact below 2^53, the range of move numbers). *)
Fixpoint parseInt_go (acc : nat) (s : jsstring) : nat :=
  match s with
  | c :: t =>
      if is_digit c then parseInt_go (10 * acc + N.to_nat (c - 48))%nat t
      else acc
  | [] => acc
  end.
Definition parseInt (s : jsstring) : nat := parseInt_go 0 s.

(** [Math.ceil(n / 2)] *)
Definition ceil_half (n : nat) : nat := Nat.div2 (S n).

Fixpoint join (sep : jsstring) (l : list jsstring) : jsstring :=
  match l with
  | [] => []
  | [x] => x
  | x :: t => x ++ sep ++ join sep t
  end.

(** ** The legal-move oracle (chess.js)

    The rules engine is an external collaborator: the pipeline is
    parametric in it.  A [Game] is the state of one [Chess] object. *)

Record Oracle : Type := {
  Game : Type;
  (** [new Chess()] *)
  new_game : Game;
  (** [new Chess(fen)]; [None]: the constructor throws *)
  load_fen : jsstring -> option Game;
  (** [chess.move(token)]; [None]: the move is refused, the call throws and
      the object is unchanged *)
  game_move : Game -> jsstring -> option Game;
  (** [chess.moves()] *)
  game_moves : Game -> list jsstring;
  (** [chess.fen()] *)
  game_fen : Game -> jsstring;
  (** [chess.history()] *)
  game_history : Game -> list jsstring;
  (** [chess.loadPgn(text)]: whether it returned normally, and the state
      the object is left in *)
  game_loadPgn : Game -> jsstring -> bool * Game
}.

(** ** Results *)

Record ParseResult : Type := {
  success : bool;
  pgn : option jsstring;
  error : option jsstring;
  movesFound : option nat;
  isPartial : option bool
}.

Record ValidationResult : Type := {
  valid : bool;
  failedAt : option jsstring;
  partialPgn : option jsstring;
  moveCount : nat
}.

(** ** formatHistoryAsPgn *)

Definition trimEnd_fragment (moveNumber : nat) (whiteMove : jsstring) : jsstring :=
  trimEnd (show_nat moveNumber ++ str ". " ++ whiteMove).

Fixpoint history_segments (moveNumber : nat) (history : list jsstring)
    : list jsstring :=
  match history with
  | [] => []
  | [whiteMove] =>
      if negb (truthy whiteMove) then []
      else [trimEnd_fragment moveNumber whiteMove]
  | whiteMove :: blackMove :: rest =>
      if negb (truthy whiteMove) && negb (truthy blackMove)
      then history_segments (S moveNumber) rest
      else
        (trimEnd_fragment moveNumber whiteMove ++
         (if truthy blackMove then c_space :: blackMove else []))
        :: history_segments (S moveNumber) rest
  end.

Definition formatHistoryAsPgn (history : list jsstring) : jsstring :=
  match history with
  | [] => []
  | _ => trim (join [c_space] (history_segments 1 history))
  end.

(** ** Chess objects on the heap *)

Inductive outcome (A : Type) : Type :=
| Ret : A -> outcome A
| Throw : outcome A.
Arguments Ret {A} _.
Arguments Throw {A}.

Section Pipeline.
Variable O : Oracle.

(** The heap of [Chess] objects; a reference is an index. *)
Definition store : Type := list (Game O).
Definition ref : Type := nat.

Definition M (A : Type) : Type := store -> outcome A * store.

Definition ret {A} (a : A) : M A := fun h => (Ret a, h).
Definition throw {A} : M A := fun h => (Throw, h).
Definition bind {A B} (c : M A) (k : A -> M B) : M B :=
  fun h => match c h with
           | (Ret a, h') => k a h'
           | (Throw, h') => (Throw, h')
           end.
(** [try { c } catch { handler }]: the heap is as the throw left it. *)
Definition try_catch {A} (c : M A) (handler : M A) : M A :=
  fun h => match c h with
           | (Ret a, h') => (Ret a, h')
           | (Throw, h') => handler h'
           end.

Notation "'let*' x ':=' c 'in' k" := (bind c (fun x => k))
  (at level 10, x name, c at level 100, k at level 200).

Definition alloc (g : Game O) : M ref :=
  fun h => (Ret (length h), h ++ [g]).

Definition Chess_new : M ref := alloc (new_game O).

Definition Chess_new_fen (fen : jsstring) : M ref :=
  match load_fen O fen with
  | Some g => alloc g
  | None => throw
  end.

(** The methods of a [Chess] object.  References come from [alloc] and
    objects are never freed; on a reference that names no object the
    methods throw. *)
Definition read {A} (r : ref) (f : Game O -> A) : M A :=
  fun h => match h !! r with
           | Some g => (Ret (f g), h)
           | None => (Throw, h)
           end.

Definition Chess_fen (r : ref) : M jsstring := read r (game_fen O).
Definition Chess_moves (r : ref) : M (list jsstring) := read r (game_moves O).
Definition Chess_history (r : ref) : M (list jsstring) := read r (game_history O).

Definition Chess_move (r : ref) (token : jsstring) : M unit :=
  fun h => match h !! r with
           | Some g =>
               match game_move O g token with
               | Some g' => (Ret tt, <[r := g']> h)
               | None => (Throw, h)
               end
           | None => (Throw, h)
           end.

Definition Chess_loadPgn (r : ref) (text : jsstring) : M unit :=
  fun h => match h !! r with
           | Some g =>
               let '(ok, g') := game_loadPgn O g text in
               (if ok then Ret tt else Throw, <[r := g']> h)
           | None => (Throw, h)
           end.

(** ** Corrector *)

(** [legalMoves.includes(x)] *)
Definition includes (l : list jsstring) (x : jsstring) : bool :=
  existsb (str_eqb x) l.

(** The first element of [cands] (built with [mk]) that is a legal
    move: the body of the two [for ... of] loops. *)
Fixpoint first_legal (legalMoves : list jsstring) (mk : char -> jsstring)
    (cands : jsstring) : option jsstring :=
  match cands with
  | [] => None
  | c :: t =>
      if includes legalMoves (mk c) then Some (mk c)
      else first_legal legalMoves mk t
  end.

(** [move.slice(-2)] *)
Definition last2 (s : jsstring) : jsstring := skipn (length s - 2)%nat s.

(** [/^[RNBQK][a-h]?[1-8]$/] *)
Definition re_piece_move : regex :=
  seqs [Bol; one_of (str "RNBQK"); Opt (one_of files); one_of ranks; Eol].
(** [/^[RNBQK]x[a-h][1-8]$/] *)
Definition re_piece_capture : regex :=
  seqs [Bol; one_of (str "RNBQK"); Chr 120; one_of files; one_of ranks; Eol].

Definition disambiguate (legalMoves : list jsstring) (piece : jsstring)
    (infix destination : jsstring) : option jsstring :=
  match first_legal legalMoves
          (fun file => piece ++ [file] ++ infix ++ destination) files with
  | Some d => Some d
  | None =>
      first_legal legalMoves
        (fun rank => piece ++ [rank] ++ infix ++ destination) ranks
  end.

(** The table of substitutions: pattern, global flag, replacement. *)
Definition rank_shift (a b : string) : regex * bool * template :=
  (Seq (Grp (one_of files)) (Lit (str a)), true, [RCap; RLit (str b)]).
Definition piece_swap (a b : string) : regex * bool * template :=
  (Seq (Lit (str a)) (Grp (Cls is_digit)), false, [RLit (str b); RCap]).
Definition file_swap (a b : string) : regex * bool * template :=
  (Seq (Lit (str a)) (Grp (one_of ranks)), false, [RLit (str b); RCap]).
Definition glyph_swap (a b : string) : regex * bool * template :=
  (Lit (str a), false, [RLit (str b)]).

Definition corrections : list (regex * bool * template) :=
  [ rank_shift "6" "5"; rank_shift "5" "6"; rank_shift "3" "4";
    rank_shift "4" "3"; rank_shift "2" "3"; rank_shift "7" "8";
    rank_shift "8" "7";
    piece_swap "Na" "Ng"; piece_swap "Ng" "Na";
    piece_swap "Ba" "Bg"; piece_swap "Bg" "Ba";
    piece_swap "Ra" "Rg"; piece_swap "Rg" "Ra";
    piece_swap "Qa" "Qg"; piece_swap "Qg" "Qa";
    file_swap "a" "g"; file_swap "g" "a";
    file_swap "b" "h"; file_swap "h" "b";
    file_swap "c" "e"; file_swap "e" "c";
    file_swap "d" "a";
    glyph_swap "l" "1"; glyph_swap "1" "l" ].

Definition apply_correction (c : regex * bool * template) (move : jsstring)
    : jsstring :=
  let '(pattern, global, replacement) := c in
  if global then replace_all pattern replacement move
  else replace_first pattern replacement move.

(** The loop over the table.  Each attempt is tried on a temporary
    [Chess] object built from the position's FEN. *)
Fixpoint try_corrections (cs : list (regex * bool * template))
    (move : jsstring) (chess : ref) : M (option jsstring) :=
  match cs with
  | [] => ret None
  | c :: rest =>
      let corrected := apply_correction c move in
      if negb (str_eqb corrected move) then
        let* hit :=
          try_catch
            (let* fen := Chess_fen chess in
             let* testChess := Chess_new_fen fen in
             let* _ := Chess_move testChess corrected in
             ret true)
            (ret false) in
        if hit then ret (Some corrected)
        else try_corrections rest move chess
      else try_corrections rest move chess
  end.

Definition tryOcrCorrections (move : jsstring) (chess : ref)
    : M (option jsstring) :=
  let* found :=
    (if test re_piece_move move then
       let piece := firstn 1 move in
       let destination := last2 move in
       let* legalMoves := Chess_moves chess in
       ret (disambiguate legalMoves piece [] destination)
     else ret None) in
  match found with
  | Some d => ret (Some d)
  | None =>
      let* found :=
        (if test re_piece_capture move then
           let piece := firstn 1 move in
           let destination := last2 move in
           let* legalMoves := Chess_moves chess in
           ret (disambiguate legalMoves piece (str "x") destination)
         else ret None) in
      match found with
      | Some d => ret (Some d)
      | None => try_corrections corrections move chess
      end
  end.

(** ** Legality replayer *)

(** [/^\d+\.$/] *)
Definition re_move_number : regex :=
  seqs [Bol; Plus (Cls is_digit); Chr 46; Eol].
(** [/\d+\./g] *)
Definition re_number_dot : regex := Seq (Plus (Cls is_digit)) (Chr 46).

Definition failure_text (token : jsstring) (currentMoveNumber : nat)
    : jsstring :=
  token ++ str " (move " ++ show_nat currentMoveNumber ++ str ")".

(** The [for] loop over the tokens.  It returns [partialMoves] and
    [failedAtMove] (empty when the loop ran to the end). *)
Fixpoint replay_tokens (testGame : ref) (moves : list jsstring)
    (partialMoves : list jsstring) (currentMoveNumber : nat)
    : M (list jsstring * jsstring) :=
  match moves with
  | [] => ret (partialMoves, [])
  | raw :: rest =>
      let token := trim raw in
      if negb (truthy token) then
        replay_tokens testGame rest partialMoves currentMoveNumber
      else if test re_move_number token then
        replay_tokens testGame rest partialMoves (parseInt token)
      else
        let cleanToken := trim (replace_all re_number_dot [] token) in
        if negb (truthy cleanToken) then
          replay_tokens testGame rest partialMoves currentMoveNumber
        else
          let cleanToken := normalizeCastling cleanToken in
          let* step :=
            try_catch
              (let* _ := Chess_move testGame cleanToken in
               ret (Some cleanToken))
              (let* correctedMove := tryOcrCorrections cleanToken testGame in
               match correctedMove with
               | Some c =>
                   if truthy c then
                     let* _ := Chess_move testGame c in
                     ret (Some c)
                   else ret None
               | None => ret None
               end) in
          match step with
          | Some accepted =>
              replay_tokens testGame rest (partialMoves ++ [accepted])
                currentMoveNumber
          | None =>
              ret (partialMoves, failure_text token currentMoveNumber)
          end
  end.

(** The reconstruction loop of the partial notation. *)
Fixpoint reconstruct (moveNum : nat) (partialMoves : list jsstring)
    : jsstring :=
  match partialMoves with
  | [] => []
  | [w] => show_nat moveNum ++ str ". " ++ w ++ [c_space]
  | w :: b :: rest =>
      show_nat moveNum ++ str ". " ++ w ++
      (if truthy b then c_space :: b else []) ++ [c_space] ++
      reconstruct (S moveNum) rest
  end.

(** The [catch] block of [validatePgnWithDetails]: the token-by-token
    replay on a new board. *)
Definition replay_fallback (cleanedPgn : jsstring) : M ValidationResult :=
  let* testGame := Chess_new in
  let moves := split re_spaces cleanedPgn in
  let* r := replay_tokens testGame moves [] 1 in
  let '(partialMoves, failedAtMove) := r in
  if (0 <? length partialMoves)%nat then
    ret {| valid := false;
           failedAt := Some (or_else failedAtMove (str "end of game"));
           partialPgn := Some (trim (reconstruct 1 partialMoves));
           moveCount := ceil_half (length partialMoves) |}
  else
    ret {| valid := false;
           failedAt := Some (or_else failedAtMove (str "start"));
           partialPgn := None;
           moveCount := 0 |}.

Definition validatePgnWithDetails (pgn : jsstring) : M ValidationResult :=
  let normalized := normalizeCastling pgn in
  let cleanedPgn := stripPgnMetadata normalized in
  try_catch
    (let* testGame := Chess_new in
     let* _ := Chess_loadPgn testGame cleanedPgn in
     let* history := Chess_history testGame in
     let moveCount := ceil_half (length history) in
     if (moveCount =? 0)%nat then throw
     else ret {| valid := true; failedAt := None; partialPgn := None;
                 moveCount := moveCount |})
    (replay_fallback cleanedPgn).

(** ** Orchestrator for pasted text *)

Definition failure (msg : jsstring) : ParseResult :=
  {| success := false; pgn := None; error := Some msg;
     movesFound := None; isPartial := None |}.

(** The [for (const candidate of candidates)] loop; [None] when no
    candidate loads with a non-empty history. *)
Fixpoint load_candidates (candidates : list jsstring)
    : M (option ParseResult) :=
  match candidates with
  | [] => ret None
  | candidate :: rest =>
      let* found :=
        try_catch
          (let* chess := Chess_new in
           let* _ := Chess_loadPgn chess candidate in
           let* history := Chess_history chess in
           if (0 <? length history)%nat then
             ret (Some {| success := true;
                          pgn := Some (formatHistoryAsPgn history);
                          error := None;
                          movesFound := Some (ceil_half (length history));
                          isPartial := None |})
           else ret None)
          (ret None) in
      match found with
      | Some res => ret (Some res)
      | None => load_candidates rest
      end
  end.

Definition parsePgnTextInput (rawInput : jsstring) : M ParseResult :=
  let cleanedInput := cleanPgnInput rawInput in
  if negb (truthy cleanedInput) then
    ret (failure (str "Please paste a valid PGN string."))
  else
    let normalizedInput := normalizeCastling cleanedInput in
    let stripped := stripPgnMetadata normalizedInput in
    let candidates :=
      normalizedInput ::
      (if truthy stripped && negb (str_eqb stripped normalizedInput)
       then [stripped] else []) in
    let* loaded := load_candidates candidates in
    match loaded with
    | Some res => ret res
    | None =>
        let* validationResult :=
          validatePgnWithDetails (or_else stripped normalizedInput) in
        if valid validationResult then
          ret {| success := true;
                 pgn := Some (or_else stripped normalizedInput);
                 error := None;
                 movesFound := Some (moveCount validationResult);
                 isPartial := None |}
        else if truthy_opt (partialPgn validationResult)
                && (0 <? moveCount validationResult)%nat then
          ret {| success := true;
                 pgn := partialPgn validationResult;
                 error := None;
                 movesFound := Some (moveCount validationResult);
                 isPartial := Some true |}
        else
          ret (failure
                 (if truthy_opt (failedAt validationResult) then
                    str "Unable to parse PGN. Problem detected near "
                    ++ default [] (failedAt validationResult) ++ str "."
                  else
                    str "Unable to parse PGN. Please verify the notation and try again."))
    end.
End Pipeline.

Arguments ret {O A} _ _.
Arguments throw {O A} _.
Arguments bind {O A B} _ _ _.
Arguments try_catch {O A} _ _ _.

(** ** Tabular input

    [Papa.parse] with [header: true] hands the callback one record per
    row, keyed by the header names.  [parseCSV_rows] is the body of the
    [complete] callback. *)

Definition row : Type := gmap jsstring jsstring.

(** [row.White || row.white || ""] *)
Definition column (r : row) (upper lower : string) : jsstring :=
  or_else (default [] (r !! str upper))
    (or_else (default [] (r !! str lower)) []).

Fixpoint csv_rows (data : list row) (pgn : jsstring) (moveNumber : nat)
    : jsstring * nat :=
  match data with
  | [] => (pgn, moveNumber)
  | r :: rest =>
      let white := column r "White" "white" in
      let black := column r "Black" "black" in
      if negb (truthy white) && negb (truthy black) then
        csv_rows rest pgn moveNumber
      else
        let pgn :=
          if truthy white
          then pgn ++ show_nat moveNumber ++ str ". " ++ trim white ++ [c_space]
          else pgn in
        let pgn :=
          if truthy black then pgn ++ trim black ++ [c_space] else pgn in
        csv_rows rest pgn (S moveNumber)
  end.

Definition parseCSV_rows (data : list row) : ParseResult :=
  let '(pgn, moveNumber) := csv_rows data [] 1 in
  if (length (trim pgn) =? 0)%nat then
    failure (str "No valid chess moves found in CSV")
  else
    {| success := true; pgn := Some (trim pgn); error := None;
       movesFound := Some (moveNumber - 1)%nat; isPartial := None |}.

(** ** A concrete oracle for the examples

    The rules of chess restricted to two opening lines: a position is
    named by the moves that lead to it, and a token is accepted when it is
    the next move of one of the lines.  On the tokens that the examples
    below present to it, it answers as the rules of chess do.  Its [fen]
    names the position by spelling out those moves (the pipeline only hands
    the string from [chess.fen()] to [new Chess(fen)]). *)

Module LineOracle.

Definition lines : list (list jsstring) :=
  [ List.map str ["e4"; "e5"; "Nf3"; "Nc6"; "Bb5"; "a6"]%string;
    List.map str ["e4"; "e5"; "Nf3"; "Nc6"; "Bc4"; "Bc5"; "O-O"]%string ].

Record game : Type := {
  played : list jsstring;    (* the moves that lead to the position *)
  hist : list jsstring       (* the moves made on this object *)
}.

Fixpoint is_prefix (p l : list jsstring) : bool :=
  match p, l with
  | [], _ => true
  | x :: p', y :: l' => str_eqb x y && is_prefix p' l'
  | _ :: _, [] => false
  end.

Definition known (p : list jsstring) : bool :=
  existsb (is_prefix p) lines.

Definition start : game := {| played := []; hist := [] |}.

Definition move (g : game) (token : jsstring) : option game :=
  if known (played g ++ [token])
  then Some {| played := played g ++ [token]; hist := hist g ++ [token] |}
  else None.

(** The next moves of the lines through the position. *)
Definition moves (g : game) : list jsstring :=
  List.concat
    (List.map (fun l => if is_prefix (played g) l
                        then firstn 1 (skipn (length (played g)) l)
                        else []) lines).

Definition fen (g : game) : jsstring :=
  join [c_space] (str "startpos" :: played g).

Definition of_fen (f : jsstring) : option game :=
  match split (Chr c_space) f with
  | h :: p =>
      if str_eqb h (str "startpos") && known p
      then Some {| played := p; hist := [] |}
      else None
  | [] => None
  end.

(** Movetext: move numbers are dropped and the other tokens replayed
    from the starting position, up to the first one refused. *)
Fixpoint load (g : game) (tokens : list jsstring) : bool * game :=
  match tokens with
  | [] => (true, g)
  | t :: rest =>
      if negb (truthy t) || test (seqs [Bol; Plus (Cls is_digit); Chr 46; Eol]) t
      then load g rest
      else match move g t with
           | Some g' => load g' rest
           | None => (false, g)
           end
  end.

Definition loadPgn (_ : game) (text : jsstring) : bool * game :=
  load start (split re_spaces text).

Definition oracle : Oracle :=
  {| Game := game;
     new_game := start;
     load_fen := of_fen;
     game_move := move;
     game_moves := moves;
     game_fen := fen;
     game_history := hist;
     game_loadPgn := loadPgn |}.

End LineOracle.

(** ** Declarative reading of the patterns

    [Matches r pre s post]: [r] matches the text [s] when [pre] (reversed)
    stands before it and [post] after it. *)

Inductive Matches : regex -> jsstring -> jsstring -> jsstring -> Prop :=
| M_Eps pre post : Matches Eps pre [] post
| M_Cls (p : char -> bool) c pre post :
    p c = true -> Matches (Cls p) pre [c] post
| M_Seq r1 r2 pre s1 s2 post :
    Matches r1 pre s1 (s2 ++ post) ->
    Matches r2 (rev s1 ++ pre) s2 post ->
    Matches (Seq r1 r2) pre (s1 ++ s2) post
| M_AltL r1 r2 pre s post :
    Matches r1 pre s post -> Matches (Alt r1 r2) pre s post
| M_AltR r1 r2 pre s post :
    Matches r2 pre s post -> Matches (Alt r1 r2) pre s post
| M_Star0 r pre post : Matches (Star r) pre [] post
| M_StarS r pre s1 s2 post :
    s1 <> [] ->
    Matches r pre s1 (s2 ++ post) ->
    Matches (Star r) (rev s1 ++ pre) s2 post ->
    Matches (Star r) pre (s1 ++ s2) post
| M_Grp r pre s post :
    Matches r pre s post -> Matches (Grp r) pre s post
| M_WordB pre post :
    word_boundary pre post = true -> Matches WordB pre [] post
| M_Bol post : Matches Bol [] [] post
| M_Eol pre : Matches Eol pre [] [].

(** A continuation that accepts at a position whatever the capture. *)
Definition accepts {A : Type} (k : @cont A) (pre s : jsstring) : Prop :=
  forall cap, is_Some (k pre s cap).

(** Patterns whose every match begins with a character of the class [q]. *)
Definition starts_with (q : char -> bool) (r : regex) : Prop :=
  forall pre s post, Matches r pre s post ->
    exists c s', s = c :: s' /\ q c = true.

(** ** Vocabulary of the statements *)

(** A text that does not begin, or does not end, with white space. *)
Definition head_ok (s : jsstring) : Prop :=
  forall c, head s = Some c -> is_space c = false.
Definition last_ok (s : jsstring) : Prop :=
  forall c, last s = Some c -> is_space c = false.

Definition spaces (w : jsstring) : Prop :=
  Forall (fun c => is_space c = true) w.

(** The two character substitutions of [cleanPgnInput]. *)
Definition plain_spaces (s : jsstring) : jsstring :=
  List.map (fun x => if c_cr =? x then c_lf else x)
    (List.map (fun x => if c_nbsp =? x then c_space else x) s).

(** Neither a backtick nor an asterisk. *)
Definition markup_free (c : char) : Prop := c <> 96 /\ c <> 42.



Definition dashes (s : jsstring) : nat :=
  length (List.filter (N.eqb c_dash) s).

(** ** Shapes of move tokens *)

Definition mem (cs : jsstring) (c : char) : bool := existsb (N.eqb c) cs.

(** One of the letters [cs], in upper or in lower case. *)
Definition either_case (cs : jsstring) (c : char) : bool :=
  existsb (fun x => (c =? to_upper_ascii x) || (c =? to_upper_ascii x + 32)) cs.

(** Nothing, or one character of the class. *)
Definition optional (p : char -> bool) (s : jsstring) : Prop :=
  s = [] \/ exists c, s = [c] /\ p c = true.

(** [piece? file? rank? x? file rank (=promotion)?], every letter in
    either case. *)
Definition san_shape (u : jsstring) : Prop :=
  exists sp sf sr sx d1 d2 sq,
    u = sp ++ sf ++ sr ++ sx ++ [d1; d2] ++ sq /\
    optional (either_case pieces) sp /\
    optional (either_case files) sf /\
    optional (mem ranks) sr /\
    optional (either_case (str "x")) sx /\
    either_case files d1 = true /\ mem ranks d2 = true /\
    (sq = [] \/ exists c, sq = [61; c] /\ either_case promos c = true).

(** The two castling literals, the letter in either case. *)
Definition castling_shape (u : jsstring) : Prop :=
  (exists a b, u = [a; c_dash; b] /\
     either_case [c_O] a = true /\ either_case [c_O] b = true) \/
  (exists a b c, u = [a; c_dash; b; c_dash; c] /\
     either_case [c_O] a = true /\ either_case [c_O] b = true /\
     either_case [c_O] c = true).

(** A lower-case file letter followed by a rank digit, somewhere. *)
Definition has_destination (u : jsstring) : Prop :=
  exists a f r b, u = a ++ [f; r] ++ b /\ mem files f = true /\ mem ranks r = true.

(** The token as the validator looks at it: check and annotation marks
    deleted wherever they stand, ends trimmed, castling canonicalized. *)
Definition is_mark (c : char) : bool := mem (str "+#?!") c.
Definition normalized_token (move : jsstring) : jsstring :=
  normalizeCastling (trim (List.filter (fun c => negb (is_mark c)) move)).

(** The validator as section 4.4 of the specification words it: the two
    castling literals, or [piece? file? rank? x? file rank (=promotion)?]
    with trailing check or mate marks, only the piece letter in either
    case. *)
Definition spec_san : regex :=
  seqs [Bol; Opt (one_of (str "NBRQKnbrqk")); Opt (one_of files);
        Opt (one_of ranks); Opt (Chr 120); one_of files; one_of ranks;
        Opt (Seq (Chr 61) (one_of promos)); Star (one_of (str "+#")); Eol].
Definition spec_castle : regex :=
  seqs [Bol; Alt (Lit OOO) (Lit OO); Star (one_of (str "+#")); Eol].
Definition is_plausible_spec (token : jsstring) : bool :=
  test spec_castle token || test spec_san token.

(** ** The pipeline without the heap

    What the corrector returns and what the replay loop accepts, as
    functions of the position. *)

Section Pure.
Variable O : Oracle.

(** [loadPgn] on a fresh object returns normally with at least one
    move. *)
Definition loads (text : jsstring) : bool :=
  let '(ok, g) := game_loadPgn O (new_game O) text in
  ok && (0 <? length (game_history O g))%nat.

(** Is [corrected] accepted on a copy of the position made through its
    FEN? *)
Definition accepted_on_copy (g : Game O) (corrected : jsstring) : bool :=
  match load_fen O (game_fen O g) with
  | Some g' =>
      match game_move O g' corrected with
      | Some _ => true
      | None => false
      end
  | None => false
  end.

Fixpoint first_correction (g : Game O) (cs : list (regex * bool * template))
    (move : jsstring) : option jsstring :=
  match cs with
  | [] => None
  | c :: rest =>
      let corrected := apply_correction c move in
      if negb (str_eqb corrected move) && accepted_on_copy g corrected
      then Some corrected
      else first_correction g rest move
  end.

(** The token proposed by the corrector on the position [g]. *)
Definition correct (g : Game O) (move : jsstring) : option jsstring :=
  match (if test re_piece_move move
         then disambiguate (game_moves O g) (firstn 1 move) [] (last2 move)
         else None) with
  | Some d => Some d
  | None =>
      match (if test re_piece_capture move
             then disambiguate (game_moves O g) (firstn 1 move) (str "x")
                    (last2 move)
             else None) with
      | Some d => Some d
      | None => first_correction g corrections move
      end
  end.

(** A candidate of the replay loop: the token as it stands in the
    text, the token offered to the oracle, and the move number in
    force. *)
Record Candidate : Type := {
  raw_token : jsstring;
  offered : jsstring;
  move_number : nat
}.

(** The candidates among the split tokens: empty tokens and move
    numbers are passed over. *)
Fixpoint candidates (moves : list jsstring) (currentMoveNumber : nat)
    : list Candidate :=
  match moves with
  | [] => []
  | raw :: rest =>
      let token := trim raw in
      if negb (truthy token) then candidates rest currentMoveNumber
      else if test re_move_number token then candidates rest (parseInt token)
      else
        let cleanToken := trim (replace_all re_number_dot [] token) in
        if negb (truthy cleanToken) then candidates rest currentMoveNumber
        else
          {| raw_token := token;
             offered := normalizeCastling cleanToken;
             move_number := currentMoveNumber |}
          :: candidates rest currentMoveNumber
  end.

(** The replay of section 4.5 of the specification: each candidate is
    offered to the oracle; a refused one goes to the corrector; the
    replay stops at the first candidate that the corrector cannot
    repair.  [Replay g cs acc stop]: from the position [g], the
    candidates [cs] yield the accepted moves [acc] and stop at [stop]
    ([None]: all candidates consumed). *)
Inductive Replay : Game O -> list Candidate -> list jsstring ->
                   option Candidate -> Prop :=
| Replay_succeeded g : Replay g [] [] None
| Replay_accept g c g' rest acc stop :
    game_move O g (offered c) = Some g' ->
    Replay g' rest acc stop ->
    Replay g (c :: rest) (offered c :: acc) stop
| Replay_corrected g c repaired g' rest acc stop :
    game_move O g (offered c) = None ->
    correct g (offered c) = Some repaired -> truthy repaired = true ->
    game_move O g repaired = Some g' ->
    Replay g' rest acc stop ->
    Replay g (c :: rest) (repaired :: acc) stop
| Replay_exhausted g c rest :
    game_move O g (offered c) = None ->
    truthy_opt (correct g (offered c)) = false ->
    Replay g (c :: rest) [] (Some c).

(** The text handed to [validatePgnWithDetails] by the orchestrator,
    and the text that it replays. *)
Definition normalized_input (rawInput : jsstring) : jsstring :=
  normalizeCastling (cleanPgnInput rawInput).
Definition stripped_input (rawInput : jsstring) : jsstring :=
  stripPgnMetadata (normalized_input rawInput).
Definition validated_text (rawInput : jsstring) : jsstring :=
  or_else (stripped_input rawInput) (normalized_input rawInput).
Definition replayed_text (rawInput : jsstring) : jsstring :=
  stripPgnMetadata (normalizeCastling (validated_text rawInput)).

(** The candidates of the whole-text loading loop. *)
Definition whole_text_candidates (rawInput : jsstring) : list jsstring :=
  normalized_input rawInput ::
  (if truthy (stripped_input rawInput)
      && negb (str_eqb (stripped_input rawInput) (normalized_input rawInput))
   then [stripped_input rawInput] else []).

(** The result of a whole-text load. *)
Definition loaded_result (text : jsstring) : ParseResult :=
  let history := game_history O (snd (game_loadPgn O (new_game O) text)) in
  {| success := true;
     pgn := Some (formatHistoryAsPgn history);
     error := None;
     movesFound := Some (ceil_half (length history));
     isPartial := None |}.

Fixpoint first_loaded (cs : list jsstring) : option ParseResult :=
  match cs with
  | [] => None
  | c :: rest => if loads c then Some (loaded_result c) else first_loaded rest
  end.


(** A computation that only adds objects to the heap. *)
Definition extends_heap {A} (c : M O A) : Prop :=
  forall h, exists fresh, snd (c h) = h ++ fresh.
End Pure.

Arguments extends_heap {O A} _.

(** The rows of the tabular example, and rows that have a cell. *)
Definition cells (w b : string) : row :=
  <[str "White" := str w]> (<[str "Black" := str b]> ∅).

Definition has_cell (r : row) : bool :=
  truthy (column r "White" "white") || truthy (column r "Black" "black").

(** ** Further functions of the module *)

Section Validation.
Variable O : Oracle.

(** [validatePgn] *)
Definition validatePgn (pgn : jsstring) : M O bool :=
  try_catch
    (bind (Chess_new O) (fun testGame =>
     bind (Chess_loadPgn O testGame pgn) (fun _ =>
     bind (Chess_history O testGame) (fun history =>
       ret (0 <? length history)%nat))))
    (ret false).

(** The position reached when the oracle accepts the moves one after
    another; [None] when it refuses one of them. *)
Fixpoint play (g : Game O) (moves : list jsstring) : option (Game O) :=
  match moves with
  | [] => Some g
  | t :: rest =>
      match game_move O g t with
      | Some g' => play g' rest
      | None => None
      end
  end.
End Validation.

(** ** Move list of the board view

    Source: [Frontend/src/lib/chessUtils.ts]. *)

Module ChessUtils.

Record PlayedMove : Type := {
  san : jsstring;
  isCustom : bool
}.

Record MoveHistoryItem : Type := {
  moveNumber : nat;
  white : option PlayedMove;
  black : option PlayedMove
}.

(** The loop of [getMoveHistory], two plies at a time; [moveNumber] is
    [Math.floor(i / 2) + 1].  An element of the array is an object, hence
    truthy; the ply after the last one is [undefined]. *)
Fixpoint getMoveHistory_from (moveNumber : nat) (playedMoves : list PlayedMove)
    : list MoveHistoryItem :=
  match playedMoves with
  | [] => []
  | [w] => [ {| moveNumber := moveNumber; white := Some w; black := None |} ]
  | w :: b :: rest =>
      {| moveNumber := moveNumber; white := Some w; black := Some b |}
      :: getMoveHistory_from (S moveNumber) rest
  end.

Definition getMoveHistory (playedMoves : list PlayedMove)
    : list MoveHistoryItem :=
  getMoveHistory_from 1 playedMoves.

(** The plies of a row, in order. *)
Definition plies (item : MoveHistoryItem) : list PlayedMove :=
  option_list (white item) ++ option_list (black item).

End ChessUtils.

(** ** Move extraction from recognized text *)

(** [s.match(/r/g)]: the matched texts, in order (the empty list where
    JavaScript gives [null]).  After an empty match the search advances
    by one code unit. *)
Fixpoint match_all_go (r : regex) (pre s : jsstring) (skip : nat)
    {struct s} : list jsstring :=
  match skip with
  | S n =>
      match s with
      | [] => []
      | c :: s' => match_all_go r (c :: pre) s' n
      end
  | O =>
      match exec r pre s with
      | Some (S n, _) =>
          firstn (S n) s ::
          match s with
          | [] => []
          | c :: s' => match_all_go r (c :: pre) s' n
          end
      | Some (O, _) =>
          [] ::
          match s with
          | [] => []
          | c :: s' => match_all_go r (c :: pre) s' O
          end
      | None =>
          match s with
          | [] => []
          | c :: s' => match_all_go r (c :: pre) s' O
          end
      end
  end.

Definition match_all (r : regex) (s : jsstring) : list jsstring :=
  match_all_go r [] s O.

(** [cleanMove].  [toUpperCase] is applied to texts made of the letters
    of the castling literals only, where it is the upper-casing of ASCII
    letters. *)
Definition cleanMove (move : jsstring) : jsstring :=
  let cleaned := trim move in
  let cleaned := normalizeCastling cleaned in
  if test re_castle_lit cleaned then List.map to_upper_ascii cleaned
  else cleaned.

(** [[^\s\d]] *)
Definition not_space_digit : regex :=
  Cls (fun c => negb (is_space c || is_digit c)).

(** [/(\d+)\.\s*([^\s\d]+)(?:\s+([^\s\d]+))?/g].  The matcher records one
    group: [sequentialPattern g] is the pattern with its group number [g]
    recording and the other two not (lemma [sequentialPattern_same_match]:
    the match does not depend on [g]). *)
Definition group (g k : nat) (r : regex) : regex :=
  if (g =? k)%nat then Grp r else r.

Definition sequentialPattern (g : nat) : regex :=
  seqs [group g 1 (Plus (Cls is_digit)); Chr 46; ws_star;
        group g 2 (Plus not_space_digit);
        Opt (Seq (Plus (Cls is_space)) (group g 3 (Plus not_space_digit)))].

(** One [sequentialPattern.exec] at a position: the length of the match
    and [match[1]], [match[2]], [match[3]]. *)
Definition exec_sequential (pre s : jsstring)
    : option (nat * option jsstring * option jsstring * option jsstring) :=
  match exec (sequentialPattern 1) pre s, exec (sequentialPattern 2) pre s,
        exec (sequentialPattern 3) pre s with
  | Some (n, m1), Some (_, m2), Some (_, m3) => Some (n, m1, m2, m3)
  | _, _, _ => None
  end.

(** An element of the array [moves]. *)
Record Entry : Type := {
  white : option jsstring;
  black : option jsstring
}.

(** The array [moves], which has holes: the elements that are set, by
    increasing index. *)
Definition sparse : Type := list (nat * Entry).

Fixpoint array_get (moves : sparse) (i : nat) : option Entry :=
  match moves with
  | [] => None
  | (j, e) :: rest => if (j =? i)%nat then Some e else array_get rest i
  end.

Fixpoint array_set (moves : sparse) (i : nat) (e : Entry) : sparse :=
  match moves with
  | [] => [(i, e)]
  | (j, x) :: rest =>
      if (i <? j)%nat then (i, e) :: (j, x) :: rest
      else if (i =? j)%nat then (i, e) :: rest
      else (j, x) :: array_set rest i e
  end.

(** [moveNum - 1] is an array index when it is an integer from 0 to
    2^32 - 2.  With any other key the assignment sets a property that
    neither [moves.length] nor [forEach] sees. *)
Definition is_index (moveNum : nat) : bool :=
  (0 <? moveNum)%nat && (N.of_nat moveNum <=? 4294967295).

(** The body of the [while] loop for one match. *)
Definition record_match (m1 m2 m3 : option jsstring) (moves : sparse)
    : sparse :=
  let moveNum := parseInt (default [] m1) in
  let whiteMove := default [] m2 in
  if isValidMove whiteMove then
    let old := if is_index moveNum then array_get moves (moveNum - 1) else None in
    let entry :=
      {| white := Some (cleanMove whiteMove);
         black := if truthy_opt m3 && isValidMove (default [] m3)
                  then Some (cleanMove (default [] m3))
                  else old ≫= black |} in
    if is_index moveNum then array_set moves (moveNum - 1)%nat entry
    else moves
  else moves.

(** The [while ((match = sequentialPattern.exec(normalizedText)) !== null)]
    loop: each search starts where the last match ended.  A match of this
    pattern is never empty (lemma [sequentialPattern_match_length]). *)
Fixpoint scan_sequential (pre s : jsstring) (skip : nat) (moves : sparse)
    {struct s} : sparse :=
  match skip with
  | S n =>
      match s with
      | [] => moves
      | c :: s' => scan_sequential (c :: pre) s' n moves
      end
  | O =>
      match exec_sequential pre s with
      | Some (n, m1, m2, m3) =>
          let moves := record_match m1 m2 m3 moves in
          match s with
          | [] => moves
          | c :: s' => scan_sequential (c :: pre) s' (n - 1) moves
          end
      | None =>
          match s with
          | [] => moves
          | c :: s' => scan_sequential (c :: pre) s' O moves
          end
      end
  end.

(** The callback of [moves.forEach]. *)
Definition render_entry (pgnText : jsstring) (item : nat * Entry) : jsstring :=
  let '(index, move) := item in
  if truthy_opt (white move) || truthy_opt (black move) then
    pgnText ++ show_nat (index + 1) ++ str ". " ++
    (if truthy_opt (white move) then default [] (white move) ++ [c_space] else []) ++
    (if truthy_opt (black move) then default [] (black move) ++ [c_space] else [])
  else pgnText.

(** [/[NBRQK]?[a-h]?[1-8]?x?[a-h][1-8](?:=[NBRQ])?[+#]?|O-O-O|O-O/g] *)
Definition singleMovePattern : regex :=
  Alt (seqs [Opt (one_of pieces); Opt (one_of files); Opt (one_of ranks);
             Opt (Chr 120); one_of files; one_of ranks;
             Opt (Seq (Chr 61) (one_of promos)); Opt (one_of (str "+#"))])
      (Alt (Lit OOO) (Lit OO)).

(** The [for (let i = 0; i < allMoves.length; i += 2)] loop. *)
Fixpoint pair_moves (allMoves : list jsstring) (pgnText : jsstring)
    (moveNumber : nat) : jsstring :=
  match allMoves with
  | [] => pgnText
  | [w] =>
      let white := cleanMove w in
      if isValidMove white
      then pgnText ++ show_nat moveNumber ++ str ". " ++ white ++ [c_space]
      else pgnText
  | w :: b :: rest =>
      let white := cleanMove w in
      let black := if truthy b then cleanMove b else [] in
      if isValidMove white then
        pair_moves rest
          (pgnText ++ show_nat moveNumber ++ str ". " ++ white ++ [c_space] ++
           (if truthy black && isValidMove black then black ++ [c_space] else []))
          (S moveNumber)
      else pair_moves rest pgnText moveNumber
  end.

Definition extractChessMoves (text : jsstring) : jsstring :=
  let normalizedText :=
    trim (replace_all re_spaces blank (normalizeCastling text)) in
  let moves := scan_sequential [] normalizedText O [] in
  if (0 <? length moves)%nat then
    trim (fold_left render_entry moves [])
  else
    let allMoves := match_all singleMovePattern normalizedText in
    if (2 <=? length allMoves)%nat then trim (pair_moves allMoves [] 1)
    else [].

(** [c] stands somewhere in [s]. *)
Definition factor (c s : jsstring) : Prop := exists a b, s = a ++ c ++ b.

(** A pattern without its group marks. *)
Fixpoint erase (r : regex) : regex :=
  match r with
  | Seq a b => Seq (erase a) (erase b)
  | Alt a b => Alt (erase a) (erase b)
  | Star a => Star (erase a)
  | Grp a => erase a
  | _ => r
  end.

(** Every text recorded by a group of the pattern has the property
    [P]. *)
Fixpoint groups_in (P : jsstring -> Prop) (r : regex) : Prop :=
  match r with
  | Grp q => forall pre s post, Matches q pre s post -> P s
  | Seq a b | Alt a b => groups_in P a /\ groups_in P b
  | Star a => groups_in P a
  | _ => True
  end.

(** The group text after a match of [s1]: the one before it, or a part
    of [s1] that has the property [P]. *)
Definition recorded (P : jsstring -> Prop) (cap cap' : option jsstring)
    (s1 : jsstring) : Prop :=
  cap' = cap \/ exists c, cap' = Some c /\ P c /\ factor c s1.

(** Two answers of the matcher that agree on what [f] and [f'] read
    from them. *)
Definition same_answer {A B C : Type} (f : A -> C) (f' : B -> C)
    (a : option A) (b : option B) : Prop :=
  option_map f a = option_map f' b.

Definition no_space_digit (w : jsstring) : Prop :=
  Forall (fun c => negb (is_space c || is_digit c) = true) w.

(** An element of [moves] whose moves are castling moves: each was read
    from a token without digit that is a castling spelling. *)
Definition castling_token (w : jsstring) : Prop :=
  exists raw, w = cleanMove raw /\
              Forall (fun c => is_digit c = false) raw /\
              castling_shape (normalized_token raw).

Definition castling_only (e : Entry) : Prop :=
  (forall w, white e = Some w -> castling_token w) /\
  (forall b, black e = Some b -> castling_token b).

(** ** Recognized text of an image *)

Section Images.
Variable O : Oracle.

End Images.


(** ** Reply of the second recognizer *)

(** The result of the image path: the fields of [ParseResult] that every
    path sets, and the two that only this path sets. *)
Record ImageResult : Type := {
  base : ParseResult;
  totalMovesInImage : option nat;
  imageQualityWarning : option jsstring
}.

Definition image_failure (msg : jsstring) : ImageResult :=
  {| base := failure msg; totalMovesInImage := None;
     imageQualityWarning := None |}.

(** [/```\s*/g], [/##\s*/g], [/^1\.\s+/] *)
Definition re_fence_ws : regex := Seq (Lit backticks) ws_star.
Definition re_heading : regex := Seq (Lit (str "##")) ws_star.
Definition re_first_move : regex :=
  seqs [Bol; Chr 49; Chr 46; Plus (Cls is_space)].

Definition warning_text (found total : nat) (verb tail : string) : jsstring :=
  str "Only " ++ show_nat found ++ str " of " ++ show_nat total ++
  str verb ++ str " the image. Some moves may be unclear due to handwriting. " ++
  str tail.

Section Reply.
Variable O : Oracle.

(** The [try] block of [parseImageWithGemini] from the point where the
    reply has been read into [extractedMoves] and [totalMovesInImage]
    (a count of moves).  An exception leaves for the [catch] block. *)
Definition parseImageWithGemini_reply (extractedMoves : jsstring)
    (totalMovesInImage : nat) : M O ImageResult :=
  if str_eqb extractedMoves (str "NO_NOTATION_FOUND")
     || (length extractedMoves <? 5)%nat then
    ret (image_failure
           (str "Could not detect chess notation in image. Please ensure the image is clear and contains standard algebraic notation."))
  else
    let extractedMoves :=
      trim
        (replace_all re_heading []
           (replace_all re_bold []
              (replace_all re_fence_ws []
                 (replace_all re_fence_pgn [] extractedMoves)))) in
    let extractedMoves := normalizeCastling extractedMoves in
    let cleanedText :=
      if negb (test re_first_move extractedMoves)
      then extractChessMoves extractedMoves else extractedMoves in
    if negb (truthy cleanedText) || (length cleanedText <? 5)%nat then
      ret (image_failure
             (str "Could not detect valid chess notation in image. Please ensure the image is clear and contains standard algebraic notation."))
    else
      bind (validatePgnWithDetails O cleanedText) (fun validationResult =>
        let total :=
          if (0 <? totalMovesInImage)%nat then Some totalMovesInImage
          else None in
        if negb (valid validationResult) then
          if truthy_opt (partialPgn validationResult)
             && (0 <? moveCount validationResult)%nat then
            ret {| base :=
                     {| success := true;
                        pgn := partialPgn validationResult;
                        error := None;
                        movesFound := Some (moveCount validationResult);
                        isPartial := Some true |};
                   totalMovesInImage := total;
                   imageQualityWarning :=
                     if (0 <? totalMovesInImage)%nat
                        && (moveCount validationResult <? totalMovesInImage)%nat
                     then Some (warning_text (moveCount validationResult)
                                  totalMovesInImage
                                  " moves could be extracted from"
                                  "Consider re-uploading a clearer image for complete game analysis.")
                     else None |}
          else
            ret (image_failure
                   (str "Extracted notation is not valid chess moves. Failed at move "
                    ++ default (str "undefined") (failedAt validationResult)
                    ++ str ". Please check the image quality and try again."))
        else
          let moveCount := length (match_all re_number_dot cleanedText) in
          ret {| base :=
                   {| success := true;
                      pgn := Some cleanedText;
                      error := None;
                      movesFound := Some moveCount;
                      isPartial := Some (moveCount <? totalMovesInImage)%nat |};
                 totalMovesInImage := total;
                 imageQualityWarning :=
                   if (0 <? totalMovesInImage)%nat
                      && (moveCount <? totalMovesInImage)%nat
                   then Some (warning_text moveCount totalMovesInImage
                                " moves were extracted from"
                                "Consider uploading a clearer image for complete game analysis.")
                   else None |}).
End Reply.

(** ** Vocabulary for the stripped text *)

(** A text in which white space occurs only as single spaces
    (U+0020). *)
Fixpoint single_spaced (s : jsstring) : Prop :=
  match s with
  | [] => True
  | c :: t => (is_space c = true -> c = c_space /\ head_ok t) /\ single_spaced t
  end.

(** No [a] is followed, anywhere later, by a [b]. *)
Fixpoint unpaired (a b : char) (s : jsstring) : Prop :=
  match s with
  | [] => True
  | c :: t => (c = a -> ~ In b t) /\ unpaired a b t
  end.

(** [out] is [s] with some characters left out and some spaces put
    in. *)
Inductive thinned : jsstring -> jsstring -> Prop :=
| thinned_nil : thinned [] []
| thinned_keep c s out : thinned s out -> thinned (c :: s) (c :: out)
| thinned_drop c s out : thinned s out -> thinned (c :: s) out
| thinned_space s out : thinned s out -> thinned s (c_space :: out).

(** [a[^b]*b]: the shape of the tag and brace patterns. *)
Definition bracket (a b : char) : regex :=
  seqs [Chr a; Star (none_of [b]); Chr b].

(** ** Vocabulary for the notation read back *)





(** ** Vocabulary for the loose scan *)

(** The characters of a move that is not a castling move. *)
Definition san_chars : jsstring := str "NBRQKabcdefgh12345678x=".

(** [piece? file? rank? x? file rank (=promotion)?] as written, the
    letters in the case of the notation. *)
Definition san_core (u : jsstring) : Prop :=
  exists sp sf sr sx d1 d2 sq,
    u = sp ++ sf ++ sr ++ sx ++ [d1; d2] ++ sq /\
    optional (mem pieces) sp /\
    optional (mem files) sf /\
    optional (mem ranks) sr /\
    optional (N.eqb 120) sx /\
    mem files d1 = true /\ mem ranks d2 = true /\
    (sq = [] \/ exists c, sq = [61; c] /\ mem promos c = true).

(** What the loose scan finds: a castling literal, or such a move with
    at most one check or mate mark. *)
Definition loose_move (x : jsstring) : Prop :=
  x = OOO \/ x = OO \/
  exists core mk, x = core ++ mk /\ san_core core /\
                  optional (mem (str "+#")) mk.

(** ** Vocabulary for the replay *)

(** A token that is a move number, and a token list without its move
    numbers. *)
Definition is_number_token (raw : jsstring) : bool :=
  truthy (trim raw) && test re_move_number (trim raw).

Definition without_numbers (moves : list jsstring) : list jsstring :=
  List.filter (fun raw => negb (is_number_token raw)) moves.

(** Two outcomes of the replay loop that differ at most in the text
    naming the failure: the same accepted moves, and a failure named in
    both or in neither. *)
Definition same_replay (a b : outcome (list jsstring * jsstring)) : Prop :=
  match a, b with
  | Ret (pm, f), Ret (pm', f') => pm = pm' /\ truthy f = truthy f'
  | Throw, Throw => True
  | _, _ => False
  end.

(** A rules engine that does not contradict itself on the positions
    [Inv] of a game: a move it lists as legal, or accepts on a copy of the
    position, it accepts on the position. *)
Definition coherent (O : Oracle) (Inv : Game O -> Prop) : Prop :=
  Inv (new_game O) /\
  (forall g t g', Inv g -> game_move O g t = Some g' -> Inv g') /\
  (forall g c, Inv g ->
     includes (game_moves O g) c = true \/ accepted_on_copy O g c = true ->
     is_Some (game_move O g c)).

(** An engine that contradicts itself: it lists a move as legal and
    refuses every move. *)
Definition contrary : Oracle :=
  {| Game := unit;
     new_game := tt;
     load_fen := fun _ => None;
     game_move := fun _ _ => None;
     game_moves := fun _ => [str "Naf3"];
     game_fen := fun _ => [];
     game_history := fun _ => [];
     game_loadPgn := fun g _ => (false, g) |}.

(** No two [c] in a row. *)
Fixpoint no_double (c : char) (s : jsstring) : Prop :=
  match s with
  | a :: t => (a = c -> head t <> Some c) /\ no_double c t
  | [] => True
  end.


(** * Properties *)

Arguments N.eqb : simpl never.
Arguments N.leb : simpl never.

(** ** Strings *)

Lemma str_eqb_eq (a b : jsstring) : str_eqb a b = true <-> a = b.
Proof.
  revert b; induction a as [|x a IH]; intros [|y b]; simpl; split;
    try congruence; try reflexivity.
  - intros H. apply andb_prop in H as [Hx Hab].
    apply N.eqb_eq in Hx. apply IH in Hab. congruence.
  - intros H. injection H as -> ->. rewrite N.eqb_refl. simpl. now apply IH.
Qed.

Lemma str_eqb_refl (a : jsstring) : str_eqb a a = true.
Proof. now apply str_eqb_eq. Qed.

Lemma str_eqb_neq (a b : jsstring) : str_eqb a b = false <-> a <> b.
Proof.
  split.
  - intros H E. apply str_eqb_eq in E. congruence.
  - intros H. destruct (str_eqb a b) eqn:E; [|reflexivity].
    apply str_eqb_eq in E. contradiction.
Qed.

(** ** The matcher against the declarative reading *)

Section MatcherTheory.
Context {A : Type}.
Implicit Types (k : @cont A) (r : regex).

(** Soundness of the iteration, given soundness of one step. *)
Lemma star_loop_sound r
  (IH : forall pre s cap k v, m r pre s cap k = Some v ->
        exists s1 s2 cap', s = s1 ++ s2 /\ Matches r pre s1 s2 /\
                           k (rev s1 ++ pre) s2 cap' = Some v) :
  forall n pre s cap k v,
    star_loop (m r) k n pre s cap = Some v ->
    exists s1 s2 cap', s = s1 ++ s2 /\ Matches (Star r) pre s1 s2 /\
                       k (rev s1 ++ pre) s2 cap' = Some v.
Proof.
  induction n as [|n IHn]; intros pre s cap k v H; simpl in H.
  - exists [], s, cap. repeat split; [constructor | exact H].
  - destruct (m r pre s cap _) as [v'|] eqn:E.
    + injection H as ->.
      apply IH in E as (s1 & s2 & cap' & -> & HM & Hk).
      destruct (length s2 <? length (s1 ++ s2))%nat eqn:Hlt; [|discriminate].
      apply IHn in Hk as (t1 & t2 & cap'' & -> & HM' & Hk).
      exists (s1 ++ t1), t2, cap''. split; [now rewrite <- app_assoc|].
      split.
      * apply M_StarS; auto.
        intros ->. simpl in Hlt. apply Nat.ltb_lt in Hlt. lia.
      * rewrite rev_app_distr, <- app_assoc. exact Hk.
    + exists [], s, cap. repeat split; [constructor | exact H].
Qed.

Lemma m_sound r : forall pre s cap k v,
    m r pre s cap k = Some v ->
    exists s1 s2 cap', s = s1 ++ s2 /\ Matches r pre s1 s2 /\
                       k (rev s1 ++ pre) s2 cap' = Some v.
Proof.
  induction r as [|p|r1 IH1 r2 IH2|r1 IH1 r2 IH2|r1 IH1|r1 IH1| | |];
    intros pre s cap k v H; simpl in H.
  - exists [], s, cap. repeat split; [constructor | exact H].
  - destruct s as [|c t]; [discriminate|].
    destruct (p c) eqn:Hp; [|discriminate].
    exists [c], t, cap. repeat split; [now constructor | exact H].
  - apply IH1 in H as (s1 & s2 & cap' & -> & HM1 & H).
    apply IH2 in H as (t1 & t2 & cap'' & -> & HM2 & H).
    exists (s1 ++ t1), t2, cap''. split; [now rewrite <- app_assoc|].
    split; [now constructor|].
    rewrite rev_app_distr, <- app_assoc. exact H.
  - destruct (m r1 pre s cap k) as [v'|] eqn:E.
    + injection H as ->. apply IH1 in E as (s1 & s2 & cap' & -> & HM & Hk).
      exists s1, s2, cap'. repeat split; [now apply M_AltL | exact Hk].
    + apply IH2 in H as (s1 & s2 & cap' & -> & HM & Hk).
      exists s1, s2, cap'. repeat split; [now apply M_AltR | exact Hk].
  - eapply star_loop_sound; eauto.
  - apply IH1 in H as (s1 & s2 & cap' & -> & HM & Hk).
    eexists s1, s2, _. repeat split; [now constructor | exact Hk].
  - destruct (word_boundary pre s) eqn:E; [|discriminate].
    exists [], s, cap. repeat split; [now constructor | exact H].
  - destruct pre; [|discriminate].
    exists [], s, cap. repeat split; [constructor | exact H].
  - destruct s; [|discriminate].
    exists [], [], cap. repeat split; [constructor | exact H].
Qed.

(** Completeness: a declarative match followed by an accepting
    continuation makes the matcher succeed (possibly on a match of
    higher priority). *)
Lemma m_complete_aux r pre s1 post :
  Matches r pre s1 post ->
  (forall k cap, accepts k (rev s1 ++ pre) post ->
                 is_Some (m r pre (s1 ++ post) cap k)) /\
  (forall r1, r = Star r1 ->
     forall k cap n, accepts k (rev s1 ++ pre) post ->
       (length (s1 ++ post) <= n)%nat ->
       is_Some (star_loop (m r1) k n pre (s1 ++ post) cap)).
Proof.
  induction 1 as [pre post|p c pre post Hp|r1 r2 pre s1 s2 post H1 IH1 H2 IH2
                 |r1 r2 pre s post H1 IH1|r1 r2 pre s post H1 IH1
                 |r pre post|r pre s1 s2 post Hne H1 IH1 H2 IH2
                 |r pre s post H1 IH1|pre post Hb|post|pre].
  - split; [|discriminate]. intros k cap Hk. simpl. apply Hk.
  - split; [|discriminate]. intros k cap Hk. simpl. rewrite Hp. apply Hk.
  - split; [|discriminate]. intros k cap Hk. simpl.
    rewrite <- app_assoc. apply (proj1 IH1).
    intros cap'. apply (proj1 IH2).
    rewrite rev_app_distr, <- app_assoc in Hk. exact Hk.
  - split; [|discriminate]. intros k cap Hk. simpl.
    destruct (proj1 IH1 k cap Hk) as [v Hv]. rewrite Hv. eauto.
  - split; [|discriminate]. intros k cap Hk. simpl.
    destruct (m r1 pre (s ++ post) cap k); [eauto|].
    apply (proj1 IH1 k cap Hk).
  - assert (Hloop : forall k cap n, accepts k pre post ->
              is_Some (star_loop (m r) k n pre post cap)).
    { intros k cap n Hk. destruct n; simpl; [apply Hk|].
      destruct (m r pre post cap _); [eauto | apply Hk]. }
    split.
    + intros k cap Hk. simpl. apply Hloop, Hk.
    + intros r1 [= <-] k cap n Hk _. apply Hloop, Hk.
  - assert (Hloop : forall k cap n, accepts k (rev (s1 ++ s2) ++ pre) post ->
              (length ((s1 ++ s2) ++ post) <= n)%nat ->
              is_Some (star_loop (m r) k n pre ((s1 ++ s2) ++ post) cap)).
    { intros k cap n Hk Hn.
      assert (0 < length s1)%nat by (destruct s1; simpl; [congruence | lia]).
      destruct n as [|n]; [rewrite !length_app in Hn; lia|]. simpl.
      rewrite <- app_assoc.
      match goal with |- is_Some (match ?e with _ => _ end) =>
        assert (Hs : is_Some e) end.
      { apply (proj1 IH1). intros cap'.
        replace (length (s2 ++ post) <? length (s1 ++ s2 ++ post))%nat with true
          by (symmetry; apply Nat.ltb_lt; rewrite !length_app; lia).
        apply (proj2 IH2 r eq_refl).
        - rewrite rev_app_distr, <- app_assoc in Hk. exact Hk.
        - rewrite !length_app in *. lia. }
      destruct Hs as [v ->]. eauto. }
    split.
    + intros k cap Hk. simpl. apply Hloop; [exact Hk | lia].
    + intros r1 [= <-] k cap n Hk Hn. apply Hloop; assumption.
  - split; [|discriminate]. intros k cap Hk. simpl.
    apply (proj1 IH1). intros cap'. apply Hk.
  - split; [|discriminate]. intros k cap Hk. simpl. rewrite Hb. apply Hk.
  - split; [|discriminate]. intros k cap Hk. simpl. apply Hk.
  - split; [|discriminate]. intros k cap Hk. simpl. apply Hk.
Qed.

Lemma m_complete r pre s1 post k cap :
  Matches r pre s1 post -> accepts k (rev s1 ++ pre) post ->
  is_Some (m r pre (s1 ++ post) cap k).
Proof. intros H. apply (proj1 (m_complete_aux _ _ _ _ H)). Qed.
End MatcherTheory.

(** Inversion of the declarative reading. *)
Lemma Matches_Seq_inv r1 r2 pre s post :
  Matches (Seq r1 r2) pre s post ->
  exists s1 s2, s = s1 ++ s2 /\ Matches r1 pre s1 (s2 ++ post) /\
                Matches r2 (rev s1 ++ pre) s2 post.
Proof. intros H. inversion H; subst. eauto. Qed.

Lemma Matches_Cls_inv p pre s post :
  Matches (Cls p) pre s post -> exists c, s = [c] /\ p c = true.
Proof. intros H. inversion H; subst. eauto. Qed.

Lemma Matches_Eps_inv pre s post : Matches Eps pre s post -> s = [].
Proof. intros H. now inversion H. Qed.

Lemma Matches_Alt_inv r1 r2 pre s post :
  Matches (Alt r1 r2) pre s post ->
  Matches r1 pre s post \/ Matches r2 pre s post.
Proof. intros H. inversion H; subst; auto. Qed.

Lemma Matches_Bol_inv pre s post : Matches Bol pre s post -> pre = [] /\ s = [].
Proof. intros H. now inversion H. Qed.

Lemma Matches_Eol_inv pre s post : Matches Eol pre s post -> s = [] /\ post = [].
Proof. intros H. now inversion H. Qed.

Lemma Matches_WordB_inv pre s post :
  Matches WordB pre s post -> s = [] /\ word_boundary pre post = true.
Proof. intros H. now inversion H. Qed.

Ltac inv_matches :=
  repeat match goal with
         | H : Matches (Seq _ _) _ _ _ |- _ =>
             let s1 := fresh "s" in let s2 := fresh "s" in
             let H1 := fresh "HM" in let H2 := fresh "HM" in
             apply Matches_Seq_inv in H as (s1 & s2 & -> & H1 & H2)
         | H : Matches (Cls _) _ _ _ |- _ =>
             let c := fresh "c" in let Hc := fresh "Hc" in
             apply Matches_Cls_inv in H as (c & -> & Hc)
         | H : Matches Eps _ _ _ |- _ => apply Matches_Eps_inv in H as ->
         end.

Ltac inv_anchors :=
  repeat match goal with
         | H : Matches Bol _ _ _ |- _ =>
             let E := fresh "Epre" in apply Matches_Bol_inv in H as [E ->]
         | H : Matches Eol _ _ _ |- _ =>
             let E := fresh "Epost" in apply Matches_Eol_inv in H as [-> E]
         end.

Lemma exec_sound r pre s n cap :
  exec r pre s = Some (n, cap) ->
  exists s1 s2, s = s1 ++ s2 /\ n = length s1 /\ Matches r pre s1 s2.
Proof.
  unfold exec. intros H.
  apply m_sound in H as (s1 & s2 & cap' & -> & HM & Hk).
  injection Hk as <- <-. exists s1, s2. repeat split; [|exact HM].
  rewrite length_app. lia.
Qed.

Lemma exec_complete r pre s1 post :
  Matches r pre s1 post -> is_Some (exec r pre (s1 ++ post)).
Proof.
  intros H. unfold exec. eapply m_complete; [exact H|].
  intros cap. eauto.
Qed.

Lemma exec_le r pre s n cap : exec r pre s = Some (n, cap) -> (n <= length s)%nat.
Proof.
  intros H. apply exec_sound in H as (s1 & s2 & -> & -> & _).
  rewrite length_app. lia.
Qed.

(** ** [test], [replace] and matches *)

Lemma test_go_true r : forall s pre,
  test_go r pre s = true <->
  exists p s1 s2, s = p ++ s1 ++ s2 /\ Matches r (rev p ++ pre) s1 s2.
Proof.
  induction s as [|c s IH]; intros pre; simpl.
  - destruct (exec r pre []) as [[n cap]|] eqn:E.
    + split; [intros _|reflexivity].
      apply exec_sound in E as (s1 & s2 & E & _ & HM).
      exists [], s1, s2. simpl. auto.
    + split; [discriminate|]. intros (p & s1 & s2 & E' & HM).
      symmetry in E'. apply app_eq_nil in E' as [-> E'].
      apply app_eq_nil in E' as [-> ->]. simpl in HM.
      apply exec_complete in HM. simpl in HM. rewrite E in HM.
      destruct HM; discriminate.
  - destruct (exec r pre (c :: s)) as [[n cap]|] eqn:E.
    + split; [intros _|reflexivity].
      apply exec_sound in E as (s1 & s2 & E & _ & HM).
      exists [], s1, s2. simpl. auto.
    + rewrite IH. split.
      * intros (p & s1 & s2 & -> & HM). exists (c :: p), s1, s2.
        split; [reflexivity|]. simpl. rewrite <- app_assoc. exact HM.
      * intros (p & s1 & s2 & E' & HM). destruct p as [|c' p].
        -- simpl in *. apply exec_complete in HM. rewrite <- E', E in HM.
           destruct HM; discriminate.
        -- injection E' as <- ->. exists p, s1, s2. split; [reflexivity|].
           simpl in HM. rewrite <- app_assoc in HM. exact HM.
Qed.

Lemma test_true r s :
  test r s = true <->
  exists p s1 s2, s = p ++ s1 ++ s2 /\ Matches r (rev p) s1 s2.
Proof.
  unfold test. rewrite test_go_true.
  split; intros (p & s1 & s2 & E & HM); exists p, s1, s2;
    rewrite ?app_nil_r in *; auto.
Qed.

(** Where the pattern matches nowhere, [replace] returns its input. *)
Lemma replace_go_no_match r t : forall s pre,
  test_go r pre s = false -> replace_go r t pre s O = s.
Proof.
  induction s as [|c s IH]; intros pre H; simpl in *.
  - destruct (exec r pre []) as [[n cap]|]; [discriminate | reflexivity].
  - destruct (exec r pre (c :: s)) as [[n cap]|]; [discriminate|].
    now rewrite IH.
Qed.

Lemma replace_all_no_match r t s :
  test r s = false -> replace_all r t s = s.
Proof. apply replace_go_no_match. Qed.

Lemma replace_first_go_no_match r t : forall s pre,
  test_go r pre s = false -> replace_first_go r t pre s = s.
Proof.
  induction s as [|c s IH]; intros pre H; simpl in *.
  - destruct (exec r pre []) as [[n cap]|]; [discriminate | reflexivity].
  - destruct (exec r pre (c :: s)) as [[n cap]|]; [discriminate|].
    now rewrite IH.
Qed.

Lemma starts_with_Cls (p q : char -> bool) :
  (forall c, p c = true -> q c = true) -> starts_with q (Cls p).
Proof.
  intros H pre s post HM. apply Matches_Cls_inv in HM as (c & -> & Hc). eauto.
Qed.

Lemma starts_with_Seq q r1 r2 : starts_with q r1 -> starts_with q (Seq r1 r2).
Proof.
  intros H pre s post HM.
  apply Matches_Seq_inv in HM as (s1 & s2 & -> & H1 & H2).
  apply H in H1 as (c & s' & -> & Hq). simpl. eauto.
Qed.

Lemma starts_with_WordB q r : starts_with q r -> starts_with q (Seq WordB r).
Proof.
  intros H pre s post HM.
  apply Matches_Seq_inv in HM as (s1 & s2 & -> & H1 & H2).
  apply Matches_WordB_inv in H1 as [-> _]. simpl. eauto.
Qed.

Lemma starts_with_no_match q r : starts_with q r ->
  forall s pre, Forall (fun c => q c = false) s -> test_go r pre s = false.
Proof.
  intros Hr s pre Hs.
  destruct (test_go r pre s) eqn:E; [|reflexivity].
  apply test_go_true in E as (p & s1 & s2 & -> & HM).
  apply Hr in HM as (c & s' & -> & Hq).
  apply Forall_app in Hs as [_ Hs]. inversion Hs; subst. congruence.
Qed.

Lemma exec_starts_with q r pre c s :
  starts_with q r -> q c = false -> exec r pre (c :: s) = None.
Proof.
  intros Hr Hc. destruct (exec r pre (c :: s)) as [[n cap]|] eqn:E; [|reflexivity].
  apply exec_sound in E as (s1 & s2 & E & _ & HM).
  apply Hr in HM as (c' & s' & -> & Hq). injection E as <- _. congruence.
Qed.

Lemma exec_starts_with_nil q r pre : starts_with q r -> exec r pre [] = None.
Proof.
  intros Hr. destruct (exec r pre []) as [[n cap]|] eqn:E; [|reflexivity].
  apply exec_sound in E as (s1 & s2 & E & _ & HM).
  apply Hr in HM as (c' & s' & -> & Hq). discriminate.
Qed.

(** One step of [replace] at a position where no match is pending. *)
Lemma replace_go_0 r t pre s :
  replace_go r t pre s O =
  match exec r pre s with
  | Some (S n, cap) =>
      expand t cap ++
      match s with [] => [] | c :: s' => replace_go r t (c :: pre) s' n end
  | Some (O, cap) =>
      expand t cap ++
      match s with [] => [] | c :: s' => c :: replace_go r t (c :: pre) s' O end
  | None =>
      match s with [] => [] | c :: s' => c :: replace_go r t (c :: pre) s' O end
  end.
Proof. destruct s; reflexivity. Qed.

Lemma exec_Cls p pre x s :
  exec (Cls p) pre (x :: s) = if p x then Some (1%nat, None) else None.
Proof.
  unfold exec. simpl m. destruct (p x); [|reflexivity].
  do 2 f_equal. simpl. lia.
Qed.

(** Replacing one character by another is a [map]. *)
Lemma replace_go_char (c d : char) : forall s pre,
  replace_go (Chr c) [RLit [d]] pre s O =
  List.map (fun x => if c =? x then d else x) s.
Proof.
  induction s as [|x s IH]; intros pre; [reflexivity|].
  rewrite replace_go_0. unfold Chr at 1. rewrite exec_Cls.
  simpl List.map. destruct (c =? x).
  - simpl. f_equal. destruct s; [reflexivity | apply IH].
  - f_equal. apply IH.
Qed.

Lemma replace_all_char (c d : char) s :
  replace_all (Chr c) [RLit [d]] s =
  List.map (fun x => if c =? x then d else x) s.
Proof. apply replace_go_char. Qed.

(** ** [trim] *)

Lemma trimStart_all_space s : Forall (fun c => is_space c = true) s -> trimStart s = [].
Proof. induction 1 as [|c s Hc _ IH]; simpl; [reflexivity|]. now rewrite Hc. Qed.

Lemma trimStart_head_ok s : head_ok s -> trimStart s = s.
Proof.
  destruct s as [|c s]; intros H; [reflexivity|]. simpl.
  now rewrite (H c eq_refl).
Qed.

Lemma head_ok_trimStart s : head_ok (trimStart s).
Proof.
  induction s as [|c s IH]; simpl; [intros c; discriminate|].
  destruct (is_space c) eqn:E; [exact IH|].
  intros c' [= <-]. exact E.
Qed.

Lemma trimStart_snoc s c :
  is_space c = false -> trimStart (s ++ [c]) = trimStart s ++ [c].
Proof.
  intros Hc. induction s as [|x s IH]; simpl; [now rewrite Hc|].
  destruct (is_space x); [exact IH | reflexivity].
Qed.

Lemma trimEnd_last_ok s : last_ok s -> trimEnd s = s.
Proof.
  unfold trimEnd. destruct (last s) as [c|] eqn:E; intros H.
  - apply last_Some in E as [l ->]. rewrite rev_app_distr. simpl.
    rewrite (H c); [|apply last_snoc]. simpl. now rewrite rev_involutive.
  - apply last_None in E as ->. reflexivity.
Qed.

Lemma last_ok_trimEnd s : last_ok (trimEnd s).
Proof.
  unfold trimEnd, last_ok. intros c H.
  pose proof (head_ok_trimStart (rev s)) as Hh.
  destruct (trimStart (rev s)) as [|x l]; simpl in H; [discriminate|].
  rewrite last_snoc in H. injection H as <-. now apply Hh.
Qed.

Lemma head_ok_trimEnd s : head_ok s -> head_ok (trimEnd s).
Proof.
  destruct s as [|c s]; intros H; [intros c; discriminate|].
  unfold trimEnd. simpl. rewrite trimStart_snoc by now apply H.
  rewrite rev_app_distr. simpl. intros c' [= <-]. now apply H.
Qed.

Lemma trim_all_space s : Forall (fun c => is_space c = true) s -> trim s = [].
Proof. intros H. unfold trim. now rewrite trimStart_all_space. Qed.

Lemma trim_fixed s : head_ok s -> last_ok s -> trim s = s.
Proof.
  intros Hh Hl. unfold trim. rewrite trimStart_head_ok by assumption.
  now apply trimEnd_last_ok.
Qed.

Lemma trim_head_ok s : head_ok (trim s).
Proof. apply head_ok_trimEnd, head_ok_trimStart. Qed.

Lemma trim_last_ok s : last_ok (trim s).
Proof. apply last_ok_trimEnd. Qed.

Lemma trimEnd_nonempty c s : is_space c = false -> trimEnd (c :: s) <> [].
Proof.
  intros Hc. unfold trimEnd. simpl. rewrite trimStart_snoc by assumption.
  rewrite rev_app_distr. simpl. discriminate.
Qed.

Lemma trimEnd_cons c s :
  is_space c = false -> exists s', trimEnd (c :: s) = c :: s'.
Proof.
  intros Hc. unfold trimEnd. simpl. rewrite trimStart_snoc by assumption.
  rewrite rev_app_distr. simpl. eauto.
Qed.

Lemma trim_cons c s :
  is_space c = false -> exists s', trim (c :: s) = c :: s'.
Proof.
  intros Hc. unfold trim. simpl. rewrite Hc. now apply trimEnd_cons.
Qed.

(** ** What [replace] keeps *)

Section ReplaceKeeps.
Variables (r : regex) (t : template) (w : jsstring).
Hypothesis expand_t : forall cap, expand t cap = w.

Lemma replace_go_Forall (Q : char -> Prop) : Forall Q w ->
  forall s pre skip, Forall Q s -> Forall Q (replace_go r t pre s skip).
Proof.
  intros Hw. induction s as [|c s IH]; intros pre skip Hs.
  - destruct skip; simpl; [|constructor].
    destruct (exec r pre []) as [[[|n] cap]|]; rewrite ?expand_t, ?app_nil_r;
      auto.
  - inversion Hs; subst. destruct skip as [|k]; [|simpl; auto].
    rewrite replace_go_0.
    destruct (exec r pre (c :: s)) as [[[|n] cap]|]; rewrite ?expand_t;
      repeat first [apply Forall_app; split | constructor]; auto.
Qed.

Lemma replace_go_nonempty : w <> [] ->
  forall s pre, s <> [] -> replace_go r t pre s O <> [].
Proof.
  intros Hw s pre Hs. rewrite replace_go_0.
  destruct (exec r pre s) as [[[|n] cap]|]; rewrite ?expand_t.
  - destruct w; [congruence | discriminate].
  - destruct w; [congruence | discriminate].
  - destruct s; [congruence | discriminate].
Qed.


End ReplaceKeeps.

Lemma expand_lit w cap : expand [RLit w] cap = w.
Proof. unfold expand. simpl. apply app_nil_r. Qed.

(** ** Normalizer *)

Lemma Forall_trimStart (Q : char -> Prop) s : Forall Q s -> Forall Q (trimStart s).
Proof.
  induction 1 as [|c s Hc Hs IH]; simpl; [constructor|].
  destruct (is_space c); [exact IH | now constructor].
Qed.

Lemma Forall_trim (Q : char -> Prop) s : Forall Q s -> Forall Q (trim s).
Proof.
  intros H. unfold trim, trimEnd.
  apply Forall_rev, Forall_trimStart, Forall_rev, Forall_trimStart, H.
Qed.

Lemma starts_with_Lit c s : starts_with (N.eqb c) (Lit (c :: s)).
Proof. apply starts_with_Seq, starts_with_Cls. auto. Qed.

Lemma starts_with_fence_pgn : starts_with (N.eqb 96) re_fence_pgn.
Proof. apply starts_with_Seq, (starts_with_Lit 96). Qed.

Lemma starts_with_fence : starts_with (N.eqb 96) re_fence.
Proof. apply (starts_with_Lit 96). Qed.

Lemma starts_with_bold : starts_with (N.eqb 42) re_bold.
Proof. apply (starts_with_Lit 42). Qed.

Lemma markup_free_no (c : char) s :
  Forall markup_free s -> (c = 96 \/ c = 42) ->
  Forall (fun x => (c =? x) = false) s.
Proof.
  intros H Hc. eapply Forall_impl; [exact H|].
  intros x [H1 H2]. apply N.eqb_neq. destruct Hc; congruence.
Qed.

(** Without code-fence and bold characters, the cleanup only rewrites
    no-break spaces and carriage returns, and trims. *)
Lemma cleanPgnInput_plain x :
  Forall markup_free x -> cleanPgnInput x = trim (plain_spaces x).
Proof.
  intros H. unfold cleanPgnInput. destruct x as [|c x]; [reflexivity|].
  simpl truthy. simpl negb. cbv iota.
  rewrite (replace_all_no_match re_fence_pgn)
    by (apply (starts_with_no_match _ _ starts_with_fence_pgn),
          markup_free_no; auto).
  rewrite (replace_all_no_match re_fence)
    by (apply (starts_with_no_match _ _ starts_with_fence),
          markup_free_no; auto).
  rewrite (replace_all_no_match re_bold)
    by (apply (starts_with_no_match _ _ starts_with_bold),
          markup_free_no; auto).
  now rewrite !replace_all_char.
Qed.





(** Castling canonicalization is a chain of ten replacements by [O-O] or
    [O-O-O]: what all of them keep, it keeps. *)
Lemma normalizeCastling_keeps (P : jsstring -> Prop) :
  (forall r w s, (w = OO \/ w = OOO) -> P s -> P (replace_all r [RLit w] s)) ->
  forall s, P s -> P (normalizeCastling s).
Proof.
  intros H s Hs. unfold normalizeCastling.
  repeat (apply H; [auto|]). exact Hs.
Qed.

Lemma normalizeCastling_Forall (Q : char -> Prop) s :
  Q c_O -> Q c_dash -> Forall Q s -> Forall Q (normalizeCastling s).
Proof.
  intros HO Hd. apply normalizeCastling_keeps.
  intros r w s' Hw Hs'. apply (replace_go_Forall r _ w (expand_lit w));
    [|exact Hs'].
  destruct Hw as [-> | ->]; repeat constructor; assumption.
Qed.

Lemma normalizeCastling_nonempty s : s <> [] -> normalizeCastling s <> [].
Proof.
  apply (normalizeCastling_keeps (fun s => s <> [])).
  intros r w s' Hw Hs'. apply (replace_go_nonempty r _ w (expand_lit w));
    [|exact Hs'].
  destruct Hw as [-> | ->]; discriminate.
Qed.








(** ** Castling canonicalization *)

Section Greedy.
Context {A : Type}.
Implicit Types (k : @cont A).

(** The greedy star over white space passes a run of white space that
    is followed by something else, when the continuation accepts
    there. *)
Lemma star_spaces k : forall w n pre rest cap v,
  spaces w -> head_ok rest -> (length w <= n)%nat ->
  k (rev w ++ pre) rest cap = Some v ->
  star_loop (m (Cls is_space)) k n pre (w ++ rest) cap = Some v.
Proof.
  induction w as [|c w IH]; intros n pre rest cap v Hw Hrest Hn Hk.
  - simpl in *. destruct n; simpl; [exact Hk|].
    destruct rest as [|x rest]; simpl; [exact Hk|].
    rewrite (Hrest x eq_refl). exact Hk.
  - inversion Hw; subst. destruct n as [|n]; [simpl in Hn; lia|].
    simpl. rewrite H1.
    replace (length (w ++ rest) <? S (length (w ++ rest)))%nat with true
      by (symmetry; apply Nat.ltb_lt; lia).
    erewrite IH; eauto.
    + simpl in Hn. lia.
    + simpl in Hk. rewrite <- app_assoc in Hk. exact Hk.
Qed.

Lemma m_Seq_Cls p R c s pre cap k :
  p c = true ->
  m (Seq (Cls p) R) pre (c :: s) cap k = m R (c :: pre) s cap k.
Proof. intros H. simpl. now rewrite H. Qed.

End Greedy.





(** Passing over a pending match. *)
Lemma replace_go_skip r t : forall a pre b,
  replace_go r t pre (a ++ b) (length a) = replace_go r t (rev a ++ pre) b O.
Proof.
  induction a as [|c a IH]; intros pre b; [reflexivity|].
  simpl. rewrite IH, <- app_assoc. reflexivity.
Qed.


Lemma dashes_app a b : dashes (a ++ b) = (dashes a + dashes b)%nat.
Proof. unfold dashes. now rewrite List.filter_app, length_app. Qed.


Lemma dashes_cons c s :
  dashes (c :: s) = ((if (c_dash =? c)%N then 1 else 0) + dashes s)%nat.
Proof. unfold dashes. simpl. now destruct (c_dash =? c). Qed.

Lemma castle3_dashes g pre s post :
  Matches (castle3 g) pre s post -> (2 <= dashes s)%nat.
Proof.
  unfold castle3. cbn [seqs]. unfold Chr. intros H. inv_matches.
  rewrite !dashes_app, !dashes_cons.
  repeat match goal with H : (c_dash =? _) = true |- _ => rewrite H; clear H end.
  lia.
Qed.

Lemma castle2_dashes g pre s post :
  Matches (castle2 g) pre s post -> (1 <= dashes s)%nat.
Proof.
  unfold castle2. cbn [seqs]. unfold Chr. intros H. inv_matches.
  rewrite !dashes_app, !dashes_cons.
  repeat match goal with H : (c_dash =? _) = true |- _ => rewrite H; clear H end.
  lia.
Qed.

Lemma few_dashes_no_match r n s :
  (forall pre s' post, Matches r pre s' post -> (n <= dashes s')%nat) ->
  (dashes s < n)%nat -> test r s = false.
Proof.
  intros Hr Hs. destruct (test r s) eqn:E; [|reflexivity].
  apply test_true in E as (p & s1 & s2 & -> & HM). apply Hr in HM.
  rewrite !dashes_app in Hs. lia.
Qed.



Lemma zero_free_no_match r s :
  starts_with (N.eqb c_zero) r ->
  Forall (fun c => (c_zero =? c) = false) s -> test r s = false.
Proof. intros Hr Hs. now apply (starts_with_no_match _ _ Hr). Qed.



Lemma exec_castle_nil p pre :
  exec (castle2 (Cls p)) pre [] = None /\ exec (castle3 (Cls p)) pre [] = None.
Proof. split; reflexivity. Qed.

Lemma spaces_plain w : spaces w -> spaces (plain_spaces w).
Proof.
  unfold spaces, plain_spaces. intros H. rewrite !Forall_map.
  eapply Forall_impl; [exact H|]. intros c Hc. cbv beta.
  destruct (N.eqb_spec c_nbsp c) as [_|_].
  - reflexivity.
  - destruct (N.eqb_spec c_cr c); [reflexivity | exact Hc].
Qed.

Lemma spaces_markup_free w : spaces w -> Forall markup_free w.
Proof.
  intros H. eapply Forall_impl; [exact H|]. intros c Hc.
  split; intros ->; discriminate.
Qed.






Lemma last_ok_snoc s l g : s = l ++ [g] -> is_space g = false -> last_ok s.
Proof. intros -> H c Hc. rewrite last_snoc in Hc. now injection Hc as <-. Qed.

















(** ** Metadata stripper *)

Lemma paren_match_length pre s post :
  Matches re_paren pre s post -> (2 <= length s)%nat.
Proof.
  unfold re_paren. cbn [seqs]. unfold Chr. intros H. inv_matches.
  rewrite !length_app. cbn [length]. lia.
Qed.

(** A replacement of matches of at least two code units by at most one
    code unit either changes nothing or shortens the text. *)
Lemma replace_go_shrinks r t :
  (forall pre s n cap, exec r pre s = Some (n, cap) -> (2 <= n)%nat) ->
  (forall cap, (length (expand t cap) <= 1)%nat) ->
  forall s pre,
    (forall k, (k <= length s)%nat ->
               (length (replace_go r t pre s k) <= length s - k)%nat) /\
    (replace_go r t pre s O = s \/
     (length (replace_go r t pre s O) < length s)%nat).
Proof.
  intros Hr Ht. induction s as [|c s IH]; intros pre.
  - assert (E : exec r pre [] = None).
    { destruct (exec r pre []) as [[n cap]|] eqn:E; [|reflexivity].
      pose proof (Hr _ _ _ _ E). apply exec_le in E. simpl in E. lia. }
    split.
    + intros k Hk. destruct k; simpl; [rewrite E|]; simpl; lia.
    + left. simpl. now rewrite E.
  - assert (H0 : replace_go r t pre (c :: s) O = c :: s \/
                 (length (replace_go r t pre (c :: s) O) < length (c :: s))%nat).
    { rewrite replace_go_0.
      destruct (exec r pre (c :: s)) as [[n cap]|] eqn:E.
      - right. pose proof (Hr _ _ _ _ E) as Hn. apply exec_le in E.
        destruct n as [|n]; [lia|]. simpl in E.
        rewrite length_app. specialize (Ht cap).
        pose proof (proj1 (IH (c :: pre)) n ltac:(lia)). simpl. lia.
      - destruct (proj2 (IH (c :: pre))) as [-> | Hlt]; [now left|].
        right. simpl. lia. }
    split; [|exact H0].
    intros k Hk. destruct k as [|k].
    + destruct H0 as [-> | Hlt]; lia.
    + simpl. apply (proj1 (IH (c :: pre))). simpl in Hk. lia.
Qed.

Lemma replace_paren_shrinks s :
  replace_all re_paren blank s = s \/
  (length (replace_all re_paren blank s) < length s)%nat.
Proof.
  apply replace_go_shrinks.
  - intros pre s' n cap E. apply exec_sound in E as (s1 & s2 & _ & -> & HM).
    now apply paren_match_length in HM.
  - intros cap. simpl. lia.
Qed.

(** The loop of the stripper ends on a text without parenthesized
    group: the bound on the number of passes is never reached. *)
Lemma strip_parens_fixpoint : forall fuel s,
  (length s < fuel)%nat ->
  replace_all re_paren blank (strip_parens fuel s) = strip_parens fuel s.
Proof.
  induction fuel as [|fuel IH]; intros s Hs; [lia|].
  simpl. destruct (str_eqb (replace_all re_paren blank s) s) eqn:E.
  - apply str_eqb_eq in E. now rewrite !E.
  - apply str_eqb_neq in E. apply IH.
    destruct (replace_paren_shrinks s); [contradiction | lia].
Qed.

(** C7, as stated, fails: a text without any of the four constructs is
    still rewritten when it has a run of white space. *)
Lemma C7_not_a_no_op :
  test re_tag (str "e4  e5") = false /\
  test re_brace (str "e4  e5") = false /\
  test re_semi (str "e4  e5") = false /\
  test re_paren (str "e4  e5") = false /\
  stripPgnMetadata (str "e4  e5") <> str "e4  e5".
Proof. repeat split; try reflexivity. vm_compute. discriminate. Qed.

(** C7 (amended): the stripper is total, its loop ends on a fixed point
    of the parenthesis removal, and on a text with none of the four
    constructs it only collapses each run of white space into one space
    and trims the ends. *)
Theorem C7_stripPgnMetadata_plain_text :
  (forall s, replace_all re_paren blank (strip_parens (S (length s)) s) =
             strip_parens (S (length s)) s) /\
  (forall text,
     test re_tag text = false -> test re_brace text = false ->
     test re_semi text = false -> test re_paren text = false ->
     stripPgnMetadata text = trim (replace_all re_spaces blank text)).
Proof.
  split.
  - intros s. apply strip_parens_fixpoint. lia.
  - intros text H1 H2 H3 H4. unfold stripPgnMetadata.
    destruct text as [|c text]; [reflexivity|].
    cbn [truthy negb]. cbv zeta.
    rewrite (replace_all_no_match re_tag) by assumption.
    rewrite (replace_all_no_match re_brace) by assumption.
    rewrite (replace_all_no_match re_semi) by assumption.
    cbn [strip_parens].
    rewrite (replace_all_no_match re_paren) by assumption.
    now rewrite str_eqb_refl.
Qed.

Lemma C7_witness :
  stripPgnMetadata (str " 1. e4   e5 ") =
  trim (replace_all re_spaces blank (str " 1. e4   e5 ")).
Proof.
  apply (proj2 C7_stripPgnMetadata_plain_text); reflexivity.
Defined.

(** ** Move token validator *)

Lemma replace_go_delete p : forall s pre,
  replace_go (Cls p) [] pre s O = List.filter (fun c => negb (p c)) s.
Proof.
  induction s as [|x s IH]; intros pre; [reflexivity|].
  rewrite replace_go_0, exec_Cls. cbn [List.filter]. destruct (p x); simpl.
  - destruct s; [reflexivity | apply IH].
  - f_equal. apply IH.
Qed.

Lemma replace_marks move :
  replace_all re_marks [] move = List.filter (fun c => negb (is_mark c)) move.
Proof. apply replace_go_delete. Qed.

(** Canonicalize against a character of a pattern. *)
Lemma canonicalize_letter x c :
  is_upper c || is_lower c = true ->
  (canonicalize x =? canonicalize c) =
  (x =? to_upper_ascii c) || (x =? to_upper_ascii c + 32).
Proof.
  intros Hc.
  assert (Hu : canonicalize c = to_upper_ascii c /\
               65 <= to_upper_ascii c <= 90).
  { unfold canonicalize, to_upper_ascii, is_upper, is_lower, in_range,
      c_cyro, c_cyr_narrow_o, c_cyrO in *.
    destruct (97 <=? c) eqn:E1, (c <=? 122) eqn:E2; simpl in *;
      rewrite ?andb_false_r, ?orb_false_r in Hc;
      try apply andb_prop in Hc as [H1 H2];
      repeat match goal with
             | H : (_ <=? _) = true |- _ => apply N.leb_le in H
             | H : (_ <=? _) = false |- _ => apply N.leb_gt in H
             end;
      try (destruct (N.eqb_spec c 1086), (N.eqb_spec c 7298); simpl);
      split; try reflexivity; try lia. }
  destruct Hu as [-> Hu]. set (u := to_upper_ascii c) in *. clearbody u.
  unfold canonicalize, is_lower, in_range, c_cyro, c_cyr_narrow_o, c_cyrO.
  destruct (97 <=? x) eqn:E1, (x <=? 122) eqn:E2; simpl;
    repeat match goal with
           | H : (_ <=? _) = true |- _ => apply N.leb_le in H
           | H : (_ <=? _) = false |- _ => apply N.leb_gt in H
           end;
    try (destruct (N.eqb_spec x 1086), (N.eqb_spec x 7298); simpl);
    repeat match goal with
           | |- context [?a =? ?b] => destruct (N.eqb_spec a b)
           end; simpl; try reflexivity; lia.
Qed.

Lemma canonicalize_other x c :
  c < 65 ->
  (canonicalize x =? canonicalize c) = (x =? c).
Proof.
  intros Hc.
  assert (Hu : canonicalize c = c).
  { unfold canonicalize, is_lower, in_range, c_cyro, c_cyr_narrow_o.
    destruct (97 <=? c) eqn:E1; [apply N.leb_le in E1; lia|]. simpl.
    destruct (N.eqb_spec c 1086), (N.eqb_spec c 7298); simpl;
      try reflexivity; lia. }
  rewrite Hu.
  unfold canonicalize, is_lower, in_range, c_cyro, c_cyr_narrow_o, c_cyrO.
  destruct (97 <=? x) eqn:E1, (x <=? 122) eqn:E2; simpl;
    repeat match goal with
           | H : (_ <=? _) = true |- _ => apply N.leb_le in H
           | H : (_ <=? _) = false |- _ => apply N.leb_gt in H
           end;
    try (destruct (N.eqb_spec x 1086), (N.eqb_spec x 7298); simpl);
    repeat match goal with
           | |- context [?a =? ?b] => destruct (N.eqb_spec a b)
           end; simpl; try reflexivity; lia.
Qed.

Lemma one_ofI_letters cs x :
  Forall (fun c => is_upper c || is_lower c = true) cs ->
  existsb (fun c => canonicalize x =? canonicalize c) cs = either_case cs x.
Proof.
  unfold either_case. induction 1 as [|c cs Hc _ IH]; [reflexivity|].
  simpl. now rewrite canonicalize_letter, IH.
Qed.

Lemma one_ofI_others cs x :
  Forall (fun c => c < 65) cs ->
  existsb (fun c => canonicalize x =? canonicalize c) cs = mem cs x.
Proof.
  unfold mem. induction 1 as [|c cs Hc _ IH]; [reflexivity|].
  simpl. now rewrite canonicalize_other, IH.
Qed.

Lemma Matches_Opt_Cls p pre s post :
  Matches (Opt (Cls p)) pre s post <-> optional p s.
Proof.
  unfold Opt, optional. split.
  - intros H. apply Matches_Alt_inv in H as [H|H]; inv_matches.
    + right. eauto.
    + now left.
  - intros [-> | (c & -> & Hc)].
    + apply M_AltR. constructor.
    + apply M_AltL. now constructor.
Qed.

Lemma Matches_Opt_pair p q pre s post :
  Matches (Opt (Seq (Cls p) (Cls q))) pre s post <->
  (s = [] \/ exists a b, s = [a; b] /\ p a = true /\ q b = true).
Proof.
  unfold Opt. split.
  - intros H. apply Matches_Alt_inv in H as [H|H]; inv_matches.
    + right. simpl. eauto.
    + now left.
  - intros [-> | (a & b & -> & Ha & Hb)].
    + apply M_AltR. constructor.
    + apply M_AltL. apply (M_Seq _ _ _ [a] [b]); now constructor.
Qed.

Lemma letters_pieces : Forall (fun c => is_upper c || is_lower c = true) pieces.
Proof. repeat constructor. Qed.
Lemma letters_files : Forall (fun c => is_upper c || is_lower c = true) files.
Proof. repeat constructor. Qed.
Lemma letters_promos : Forall (fun c => is_upper c || is_lower c = true) promos.
Proof. repeat constructor. Qed.
Lemma others_ranks : Forall (fun c => c < 65) ranks.
Proof. repeat constructor. Qed.

Lemma rev_nil_inv {T} (l : list T) : [] = rev l -> l = [].
Proof.
  intros H. apply (f_equal (@rev T)) in H. rewrite rev_involutive in H.
  now symmetry.
Qed.

Lemma rev_eq_nil {T} (l : list T) : rev l = [] -> l = [].
Proof.
  intros H. apply (f_equal (@rev T)) in H. now rewrite rev_involutive in H.
Qed.

Lemma optional_ext (p q : char -> bool) s :
  (forall c, p c = q c) -> optional p s -> optional q s.
Proof.
  intros E [-> | (c & -> & Hc)]; [now left|]. right. exists c.
  split; [reflexivity|]. now rewrite <- E.
Qed.

Ltac inv_optional :=
  repeat match goal with
         | H : Matches (Opt (Cls _)) _ _ _ |- _ => apply Matches_Opt_Cls in H
         | H : Matches (Opt (Seq (Cls _) (Cls _))) _ _ _ |- _ =>
             apply Matches_Opt_pair in H
         end.

Lemma canonicalize_x c : (canonicalize c =? canonicalize 120) = either_case (str "x") c.
Proof.
  rewrite canonicalize_letter by reflexivity. unfold either_case. simpl.
  now rewrite orb_false_r.
Qed.

Lemma canonicalize_equals c : (canonicalize c =? canonicalize 61) = (c =? 61).
Proof. now apply canonicalize_other. Qed.

Lemma optional_letters cs s :
  Forall (fun c => is_upper c || is_lower c = true) cs ->
  optional (fun x => existsb (fun c => canonicalize x =? canonicalize c) cs) s <->
  optional (either_case cs) s.
Proof.
  intros H. split; apply optional_ext; intros x; cbv beta;
    [|symmetry]; now apply one_ofI_letters.
Qed.

Lemma optional_others cs s :
  Forall (fun c => c < 65) cs ->
  optional (fun x => existsb (fun c => canonicalize x =? canonicalize c) cs) s <->
  optional (mem cs) s.
Proof.
  intros H. split; apply optional_ext; intros x; cbv beta;
    [|symmetry]; now apply one_ofI_others.
Qed.

Lemma optional_x s :
  optional (fun x => canonicalize x =? canonicalize 120) s <->
  optional (either_case (str "x")) s.
Proof.
  split; apply optional_ext; intros x; cbv beta; [|symmetry];
    apply canonicalize_x.
Qed.

(** Rewrites the classes of the patterns into their readable form. *)
Ltac read_classes :=
  repeat match goal with
         | H : optional (fun x => existsb _ pieces) _ |- _ =>
             apply (optional_letters pieces _ letters_pieces) in H
         | H : optional (fun x => existsb _ files) _ |- _ =>
             apply (optional_letters files _ letters_files) in H
         | H : optional (fun x => existsb _ ranks) _ |- _ =>
             apply (optional_others ranks _ others_ranks) in H
         | H : optional (fun x => canonicalize x =? canonicalize 120) _ |- _ =>
             apply optional_x in H
         | H : existsb (fun c => canonicalize _ =? canonicalize c) files = true |- _ =>
             rewrite (one_ofI_letters files _ letters_files) in H
         | H : existsb (fun c => canonicalize _ =? canonicalize c) promos = true |- _ =>
             rewrite (one_ofI_letters promos _ letters_promos) in H
         | H : existsb (fun c => canonicalize _ =? canonicalize c) ranks = true |- _ =>
             rewrite (one_ofI_others ranks _ others_ranks) in H
         | H : (canonicalize _ =? canonicalize 61) = true |- _ =>
             rewrite canonicalize_equals in H; apply N.eqb_eq in H; subst
         end.

Lemma test_re_san u : test re_san u = true <-> san_shape u.
Proof.
  rewrite test_true. split.
  - intros (p & s1 & s2 & -> & HM).
    unfold re_san in HM. cbn [seqs] in HM. unfold one_ofI, ChrI in HM.
    inv_matches. inv_anchors. inv_optional.
    apply rev_eq_nil in Epre as ->. simpl in Epost. subst s2.
    match goal with
    | H : _ = [] \/ _ |- _ =>
        destruct H as [-> | (a & b & -> & Ha & Hb)]
    end; read_classes; simpl; rewrite ?app_nil_r;
      unfold san_shape; do 7 eexists;
      (split; [reflexivity|]); repeat split; try eassumption;
      [now left | right; eauto].
  - intros (sp & sf & sr & sx & d1 & d2 & sq & -> & Hp & Hf & Hr & Hx & H1 & H2 & Hq).
    exists [], ([] ++ sp ++ sf ++ sr ++ sx ++ [d1] ++ [d2] ++ sq ++ [] ++ []), [].
    split; [simpl; now rewrite !app_nil_r|].
    unfold re_san. cbn [seqs]. unfold one_ofI, ChrI.
    apply M_Seq; [constructor|].
    apply M_Seq; [now apply Matches_Opt_Cls, optional_letters, Hp; apply letters_pieces|].
    apply M_Seq; [now apply Matches_Opt_Cls, optional_letters, Hf; apply letters_files|].
    apply M_Seq; [now apply Matches_Opt_Cls, optional_others, Hr; apply others_ranks|].
    apply M_Seq; [now apply Matches_Opt_Cls, optional_x, Hx|].
    apply M_Seq; [constructor; now rewrite one_ofI_letters by apply letters_files|].
    apply M_Seq; [constructor; now rewrite one_ofI_others by apply others_ranks|].
    apply M_Seq.
    { apply Matches_Opt_pair.
      destruct Hq as [-> | (c & -> & Hc)]; [now left|]. right.
      exists 61, c. split; [reflexivity|]. split.
      - now rewrite canonicalize_equals.
      - now rewrite one_ofI_letters by apply letters_promos. }
    apply M_Seq; constructor.
Qed.

Lemma canonicalize_O c : (canonicalize c =? canonicalize c_O) = either_case [c_O] c.
Proof.
  rewrite canonicalize_letter by reflexivity. unfold either_case. simpl.
  now rewrite orb_false_r.
Qed.

Lemma canonicalize_dash c : (canonicalize c =? canonicalize c_dash) = (c =? c_dash).
Proof. now apply canonicalize_other. Qed.

Lemma test_re_castle_lit u : test re_castle_lit u = true <-> castling_shape u.
Proof.
  rewrite test_true. unfold re_castle_lit. cbn [seqs].
  change (LitI OOO) with
    (Seq (ChrI c_O) (Seq (ChrI c_dash) (Seq (ChrI c_O)
       (Seq (ChrI c_dash) (Seq (ChrI c_O) Eps))))).
  change (LitI OO) with (Seq (ChrI c_O) (Seq (ChrI c_dash) (Seq (ChrI c_O) Eps))).
  unfold ChrI. split.
  - intros (p & s1 & s2 & -> & HM). inv_matches. inv_anchors.
    apply rev_eq_nil in Epre as ->. simpl in Epost. subst.
    match goal with H : Matches (Alt _ _) _ _ _ |- _ =>
      apply Matches_Alt_inv in H as [H|H] end; inv_matches;
      repeat match goal with
             | H : (canonicalize _ =? canonicalize c_O) = true |- _ =>
                 rewrite canonicalize_O in H
             | H : (canonicalize _ =? canonicalize c_dash) = true |- _ =>
                 rewrite canonicalize_dash in H; apply N.eqb_eq in H; subst
             end; simpl; [right | left]; eauto 10.
  - intros [(a & b & -> & Ha & Hb) | (a & b & c & -> & Ha & Hb & Hc)].
    + exists [], ([] ++ ([a] ++ [c_dash] ++ [b] ++ []) ++ [] ++ []), [].
      split; [reflexivity|].
      apply M_Seq; [constructor|]. apply M_Seq; [|apply M_Seq; constructor].
      apply M_AltR.
      repeat (apply M_Seq; [constructor;
        rewrite ?canonicalize_O, ?canonicalize_dash; auto using N.eqb_refl|]).
      constructor.
    + exists [], ([] ++ ([a] ++ [c_dash] ++ [b] ++ [c_dash] ++ [c] ++ []) ++ [] ++ []), [].
      split; [reflexivity|].
      apply M_Seq; [constructor|]. apply M_Seq; [|apply M_Seq; constructor].
      apply M_AltL.
      repeat (apply M_Seq; [constructor;
        rewrite ?canonicalize_O, ?canonicalize_dash; auto using N.eqb_refl|]).
      constructor.
Qed.

Lemma test_re_dest u : test re_dest u = true <-> has_destination u.
Proof.
  rewrite test_true. unfold re_dest, one_of, has_destination. split.
  - intros (p & s1 & s2 & -> & HM). inv_matches.
    exists p. do 3 eexists. split; [reflexivity|]. split; eassumption.
  - intros (a & f & r & b & -> & Hf & Hr).
    exists a, ([f] ++ [r]), b. split; [reflexivity|].
    apply M_Seq; now constructor.
Qed.

Lemma iff_true_eq (a b : bool) (P Q : Prop) :
  (a = true <-> P) -> (b = true <-> Q) -> (a && b = true <-> P /\ Q).
Proof. intros H1 H2. rewrite andb_true_iff. tauto. Qed.

(** C3, as stated, fails: the capture mark is accepted in upper case too,
    where the claim has only the piece letter in either case. *)
Lemma C3_capital_capture_accepted :
  isValidMove (str "NXe4") = true /\ is_plausible_spec (str "NXe4") = false.
Proof. split; vm_compute; reflexivity. Qed.

Lemma isValidMove_iff move :
  isValidMove move = true <->
  (2 <= length move)%nat /\
  (castling_shape (normalized_token move) \/
   (has_destination (normalized_token move) /\
    san_shape (normalized_token move))).
Proof.
  unfold isValidMove, normalized_token. rewrite replace_marks.
  set (u := normalizeCastling _).
  rewrite <- test_re_castle_lit, <- test_re_dest, <- test_re_san.
  clearbody u.
  destruct move as [|c1 [|c2 move]]; simpl.
  - split; [discriminate | lia].
  - split; [discriminate | lia].
  - destruct (test re_castle_lit u), (test re_dest u), (test re_san u); simpl;
      split; try discriminate; try (intros _; split; [lia | tauto]);
      intros [_ [H | [H1 H2]]]; congruence.
Qed.

(** C3 (amended): the validator accepts exactly the tokens of at least
    two code units that, once the marks [+ # ? !] are deleted wherever
    they stand, the ends trimmed and castling canonicalized, are a
    castling literal in either letter case, or contain a lower-case
    file-rank pair and have the shape
    [piece? file? rank? x? file rank (=promotion)?] with every letter in
    either case.  It refuses every token shorter than two code units, and
    every token that is not such a castling literal and has no lower-case
    file-rank pair. *)
Theorem C3_isValidMove_accepts move :
  (isValidMove move = true <->
   (2 <= length move)%nat /\
   (castling_shape (normalized_token move) \/
    (has_destination (normalized_token move) /\
     san_shape (normalized_token move)))) /\
  ((length move < 2)%nat -> isValidMove move = false) /\
  (~ castling_shape (normalized_token move) ->
   ~ has_destination (normalized_token move) -> isValidMove move = false).
Proof.
  split; [apply isValidMove_iff|]. split.
  - intros H. destruct (isValidMove move) eqn:E; [|reflexivity].
    apply isValidMove_iff in E. lia.
  - intros H1 H2. destruct (isValidMove move) eqn:E; [|reflexivity].
    apply isValidMove_iff in E. tauto.
Qed.

Lemma C3_witness :
  isValidMove (str "e") = false /\ isValidMove (str "Zz9") = false.
Proof.
  split.
  - apply (proj1 (proj2 (C3_isValidMove_accepts (str "e")))). simpl. lia.
  - apply (proj2 (proj2 (C3_isValidMove_accepts (str "Zz9")))).
    + rewrite <- test_re_castle_lit. vm_compute. discriminate.
    + rewrite <- test_re_dest. vm_compute. discriminate.
Defined.

(** ** Chess objects on the heap *)

Section HeapTheory.
Variable O : Oracle.
Implicit Types (h : store O) (g : Game O).

Lemma read_live {A} (f : Game O -> A) chess h g :
  h !! chess = Some g -> read O chess f h = (Ret (f g), h).
Proof. intros H. unfold read. now rewrite H. Qed.

Lemma Chess_move_accepts chess token h g g' :
  h !! chess = Some g -> game_move O g token = Some g' ->
  Chess_move O chess token h = (Ret tt, <[chess := g']> h).
Proof. intros H1 H2. unfold Chess_move. now rewrite H1, H2. Qed.

Lemma Chess_move_refuses chess token h g :
  h !! chess = Some g -> game_move O g token = None ->
  Chess_move O chess token h = (Throw, h).
Proof. intros H1 H2. unfold Chess_move. now rewrite H1, H2. Qed.

Lemma lookup_fresh h g : (h ++ [g]) !! length h = Some g.
Proof. now apply list_lookup_middle. Qed.

Lemma insert_fresh h g g' : <[length h := g']> (h ++ [g]) = h ++ [g'].
Proof.
  rewrite insert_app_r_alt by lia. now rewrite Nat.sub_diag.
Qed.

(** One attempt of the corrector: the candidate is played on a fresh
    object, the objects of the heap stay as they are. *)
Lemma attempt_run chess corrected h g :
  h !! chess = Some g ->
  exists fresh,
    try_catch
      (bind (Chess_fen O chess) (fun fen =>
       bind (Chess_new_fen O fen) (fun testChess =>
       bind (Chess_move O testChess corrected) (fun _ => ret true))))
      (ret false) h
    = (Ret (accepted_on_copy O g corrected), h ++ fresh).
Proof.
  intros Hg. unfold try_catch, bind, Chess_fen, accepted_on_copy.
  rewrite (read_live _ _ _ _ Hg). unfold Chess_new_fen.
  destruct (load_fen O (game_fen O g)) as [g'|].
  - unfold alloc, Chess_move. rewrite lookup_fresh.
    destruct (game_move O g' corrected) as [g''|].
    + rewrite insert_fresh. exists [g'']. reflexivity.
    + exists [g']. reflexivity.
  - exists []. unfold throw, ret. now rewrite app_nil_r.
Qed.

Lemma try_corrections_run chess move g : forall cs h,
  h !! chess = Some g ->
  exists fresh,
    try_corrections O cs move chess h
    = (Ret (first_correction O g cs move), h ++ fresh).
Proof.
  induction cs as [|c cs IH]; intros h Hg.
  - exists []. simpl. unfold ret. now rewrite app_nil_r.
  - cbn [try_corrections first_correction].
    destruct (negb (str_eqb (apply_correction c move) move)); cbn [andb].
    + unfold bind at 1.
      destruct (attempt_run chess (apply_correction c move) h g Hg)
        as [fresh ->].
      destruct (accepted_on_copy O g (apply_correction c move)).
      * exists fresh. reflexivity.
      * destruct (IH (h ++ fresh)) as [fresh' ->];
          [now apply lookup_app_l_Some|].
        exists (fresh ++ fresh'). now rewrite app_assoc.
    + now apply IH.
Qed.

(** The corrector returns what [correct] says of the position, and
    only adds objects to the heap. *)
Lemma tryOcrCorrections_run chess move h g :
  h !! chess = Some g ->
  exists fresh,
    tryOcrCorrections O move chess h = (Ret (correct O g move), h ++ fresh).
Proof.
  intros Hg. unfold tryOcrCorrections, correct.
  assert (Hnil : forall (x : option jsstring),
             @ret O _ x h = (Ret x, h ++ [])).
  { intros x. unfold ret. now rewrite app_nil_r. }
  unfold bind at 1.
  destruct (test re_piece_move move).
  - unfold bind at 1, Chess_moves. rewrite (read_live _ _ _ _ Hg).
    unfold ret at 1.
    destruct (disambiguate (game_moves O g) (firstn 1 move) [] (last2 move)).
    + exists []. apply Hnil.
    + unfold bind at 1.
      destruct (test re_piece_capture move).
      * unfold bind at 1, Chess_moves. rewrite (read_live _ _ _ _ Hg).
        unfold ret at 1.
        destruct (disambiguate _ _ (str "x") _).
        -- exists []. apply Hnil.
        -- now apply try_corrections_run.
      * unfold ret at 1. now apply try_corrections_run.
  - unfold ret at 1. unfold bind at 1.
    destruct (test re_piece_capture move).
    + unfold bind at 1, Chess_moves. rewrite (read_live _ _ _ _ Hg).
      unfold ret at 1.
      destruct (disambiguate _ _ (str "x") _).
      * exists []. apply Hnil.
      * now apply try_corrections_run.
    + unfold ret at 1. now apply try_corrections_run.
Qed.

(** C9: the corrector leaves the position it is handed as it found it:
    the heap after the call is the heap before it with fresh objects
    added, and the FEN of the position is the same after the call as
    before, whether a replacement is returned or none. *)
Theorem C9_corrector_leaves_position move chess h g :
  h !! chess = Some g ->
  exists fresh,
    snd (tryOcrCorrections O move chess h) = h ++ fresh /\
    (h ++ fresh) !! chess = Some g /\
    Chess_fen O chess h = (Ret (game_fen O g), h) /\
    Chess_fen O chess (h ++ fresh) = (Ret (game_fen O g), h ++ fresh).
Proof.
  intros Hg. destruct (tryOcrCorrections_run chess move h g Hg) as [fresh E].
  exists fresh. rewrite E. simpl.
  assert (Hg' : (h ++ fresh) !! chess = Some g)
    by now apply lookup_app_l_Some.
  repeat split; [exact Hg'| |]; unfold Chess_fen; now apply read_live.
Qed.
End HeapTheory.

Lemma C9_witness :
  exists fresh,
    snd (tryOcrCorrections LineOracle.oracle (str "Bb6") 0%nat
           [{| LineOracle.played := List.map str ["e4"; "e5"; "Nf3"; "Nc6"]%string;
               LineOracle.hist := List.map str ["e4"; "e5"; "Nf3"; "Nc6"]%string |}])
    = [{| LineOracle.played := List.map str ["e4"; "e5"; "Nf3"; "Nc6"]%string;
          LineOracle.hist := List.map str ["e4"; "e5"; "Nf3"; "Nc6"]%string |}]
      ++ fresh /\
    fst (tryOcrCorrections LineOracle.oracle (str "Bb6") 0%nat
           [{| LineOracle.played := List.map str ["e4"; "e5"; "Nf3"; "Nc6"]%string;
               LineOracle.hist := List.map str ["e4"; "e5"; "Nf3"; "Nc6"]%string |}])
    = Ret (Some (str "Bb5")).
Proof.
  destruct (C9_corrector_leaves_position LineOracle.oracle (str "Bb6") 0%nat
              [{| LineOracle.played := List.map str ["e4"; "e5"; "Nf3"; "Nc6"]%string;
                  LineOracle.hist := List.map str ["e4"; "e5"; "Nf3"; "Nc6"]%string |}]
              {| LineOracle.played := List.map str ["e4"; "e5"; "Nf3"; "Nc6"]%string;
                 LineOracle.hist := List.map str ["e4"; "e5"; "Nf3"; "Nc6"]%string |}
              eq_refl) as (fresh & E & _).
  exists fresh. split; [exact E|]. vm_compute. reflexivity.
Defined.

(** ** Orchestrator *)

Section OrchestratorTheory.
Variable O : Oracle.
Implicit Types (h : store O) (g : Game O).

(** One whole-text load on a fresh object. *)
Lemma whole_load_run candidate h :
  exists g',
    try_catch
      (bind (Chess_new O) (fun chess =>
       bind (Chess_loadPgn O chess candidate) (fun _ =>
       bind (Chess_history O chess) (fun history =>
         if (0 <? length history)%nat then
           ret (Some {| success := true;
                        pgn := Some (formatHistoryAsPgn history);
                        error := None;
                        movesFound := Some (ceil_half (length history));
                        isPartial := None |})
         else ret None))))
      (ret None) h
    = (Ret (if loads O candidate then Some (loaded_result O candidate) else None),
       h ++ [g']).
Proof.
  unfold try_catch, bind, Chess_new, alloc, Chess_loadPgn, loads, loaded_result.
  rewrite lookup_fresh.
  destruct (game_loadPgn O (new_game O) candidate) as [ok g'] eqn:E.
  exists g'. rewrite insert_fresh. destruct ok; simpl.
  - unfold Chess_history, read. rewrite lookup_fresh.
    destruct (0 <? length (game_history O g'))%nat; reflexivity.
  - reflexivity.
Qed.

Lemma load_candidates_run : forall cs h,
  exists fresh,
    load_candidates O cs h = (Ret (first_loaded O cs), h ++ fresh).
Proof.
  induction cs as [|c cs IH]; intros h.
  - exists []. simpl. unfold ret. now rewrite app_nil_r.
  - cbn [load_candidates first_loaded]. unfold bind at 1.
    destruct (whole_load_run c h) as [g' ->].
    destruct (loads O c).
    + exists [g']. reflexivity.
    + destruct (IH (h ++ [g'])) as [fresh ->].
      exists ([g'] ++ fresh). now rewrite app_assoc.
Qed.

(** Every ply that the replay accepts was confirmed by the oracle, in
    order, from the position the replay started at. *)
Lemma Replay_accepted_by_oracle g cs acc stop :
  Replay O g cs acc stop ->
  exists g',
    fold_left (fun p t => match p with
                          | Some x => game_move O x t
                          | None => None
                          end) acc (Some g) = Some g'.
Proof.
  induction 1 as [g|g c g' rest acc stop Hm _ IH
                 |g c repaired g' rest acc stop _ _ _ Hm _ IH|g c rest _ _].
  - exists g. reflexivity.
  - simpl. rewrite Hm. exact IH.
  - simpl. rewrite Hm. exact IH.
  - exists g. reflexivity.
Qed.

End OrchestratorTheory.

Lemma ceil_half_zero n : (ceil_half n =? 0)%nat = negb (0 <? n)%nat.
Proof.
  unfold ceil_half. destruct n as [|n]; [reflexivity|].
  simpl. destruct n; reflexivity.
Qed.

Lemma ceil_half_pos n : (0 < n)%nat -> (1 <= ceil_half n)%nat.
Proof.
  intros H. pose proof (ceil_half_zero n) as E.
  destruct (Nat.ltb_spec 0 n); [|lia]. simpl in E.
  apply Nat.eqb_neq in E. lia.
Qed.

Section ValidationTheory.
Variable O : Oracle.
Implicit Types (h : store O) (g : Game O).

(** The [try] block decides between the whole-text result and the
    replay. *)
Lemma validatePgnWithDetails_run pgn h :
  let cleaned := stripPgnMetadata (normalizeCastling pgn) in
  let g' := snd (game_loadPgn O (new_game O) cleaned) in
  validatePgnWithDetails O pgn h =
  if loads O cleaned then
    (Ret {| valid := true; failedAt := None; partialPgn := None;
            moveCount := ceil_half (length (game_history O g')) |},
     h ++ [g'])
  else replay_fallback O cleaned (h ++ [g']).
Proof.
  intros cleaned g'. unfold validatePgnWithDetails. fold cleaned.
  unfold try_catch, bind, Chess_new, alloc, Chess_loadPgn, loads.
  rewrite lookup_fresh. subst g'.
  destruct (game_loadPgn O (new_game O) cleaned) as [ok g'] eqn:E.
  rewrite insert_fresh. simpl snd. destruct ok; simpl.
  - unfold Chess_history, read. rewrite lookup_fresh.
    rewrite ceil_half_zero.
    destruct (0 <? length (game_history O g'))%nat; reflexivity.
  - reflexivity.
Qed.


(** A validation that reports [valid] counts at least one move. *)
Lemma validatePgnWithDetails_valid pgn h v h' :
  validatePgnWithDetails O pgn h = (Ret v, h') ->
  valid v = true ->
  (1 <= moveCount v)%nat /\
  loads O (stripPgnMetadata (normalizeCastling pgn)) = true.
Proof.
  rewrite validatePgnWithDetails_run. cbv zeta.
  destruct (loads O _) eqn:El.
  - intros [= <- <-] _. simpl. split; [|reflexivity].
    apply ceil_half_pos. unfold loads in El.
    destruct (game_loadPgn O (new_game O) _) as [ok g']. simpl.
    apply andb_prop in El as [_ El]. now apply Nat.ltb_lt in El.
  - unfold replay_fallback, bind at 1, Chess_new, alloc. unfold bind at 1.
    destruct (replay_tokens O _ _ _ _ _) as [[[pm f]|] h2].
    + destruct (0 <? length pm)%nat; intros [= <- <-]; discriminate.
    + discriminate.
Qed.
End ValidationTheory.

(** ** Results of the orchestrator *)

Lemma trim_digit_first s : truthy (trim (49 :: s)) = true.
Proof. destruct (trim_cons 49 s eq_refl) as [s' E]. now rewrite E. Qed.


Lemma trimEnd_fragment_first w : exists s, trimEnd_fragment 1 w = 49 :: s.
Proof.
  unfold trimEnd_fragment. change (show_nat 1) with [49].
  now apply trimEnd_cons.
Qed.

Lemma join_first sep x s l : exists s', join sep ((x :: s) :: l) = x :: s'.
Proof. destruct l; simpl; eauto. Qed.

Lemma formatHistoryAsPgn_truthy history :
  history <> [] -> Forall (fun t => truthy t = true) history ->
  truthy (formatHistoryAsPgn history) = true.
Proof.
  intros Hne Hall. destruct history as [|w rest]; [congruence|].
  inversion Hall as [|? ? Hw Hrest]; subst.
  unfold formatHistoryAsPgn.
  destruct (trimEnd_fragment_first w) as [s Es].
  destruct rest as [|b rest]; cbn [history_segments]; rewrite Hw; cbn [negb andb].
  - rewrite Es. simpl join. apply trim_digit_first.
  - rewrite Es. simpl app.
    destruct (join_first [c_space] 49
                (s ++ (if truthy b then c_space :: b else []))
                (history_segments 2 rest)) as [s' ->].
    apply trim_digit_first.
Qed.

Lemma or_else_truthy a b : truthy b = true -> truthy (or_else a b) = true.
Proof. intros H. unfold or_else. now destruct (truthy a) eqn:E. Qed.

Lemma truthy_nonempty s : truthy s = true <-> s <> [].
Proof. destruct s; simpl; split; congruence. Qed.

Section ResultTheory.
Variable O : Oracle.
Implicit Types (h : store O) (g : Game O).

Lemma first_loaded_Some cs res :
  first_loaded O cs = Some res ->
  exists c, loads O c = true /\ res = loaded_result O c.
Proof.
  induction cs as [|c cs IH]; simpl; [discriminate|].
  destruct (loads O c) eqn:E; [|exact IH].
  intros [= <-]. eauto.
Qed.


(** The orchestrator past the empty-input test. *)
Lemma parsePgnTextInput_run raw h :
  truthy (cleanPgnInput raw) = true ->
  exists fresh,
    parsePgnTextInput O raw h =
    match first_loaded O (whole_text_candidates raw) with
    | Some res => (Ret res, h ++ fresh)
    | None =>
        bind (validatePgnWithDetails O (validated_text raw))
          (fun validationResult =>
             if valid validationResult then
               ret {| success := true;
                      pgn := Some (validated_text raw);
                      error := None;
                      movesFound := Some (moveCount validationResult);
                      isPartial := None |}
             else if truthy_opt (partialPgn validationResult)
                     && (0 <? moveCount validationResult)%nat then
               ret {| success := true;
                      pgn := partialPgn validationResult;
                      error := None;
                      movesFound := Some (moveCount validationResult);
                      isPartial := Some true |}
             else
               ret (failure
                      (if truthy_opt (failedAt validationResult) then
                         str "Unable to parse PGN. Problem detected near "
                         ++ default [] (failedAt validationResult) ++ str "."
                       else
                         str "Unable to parse PGN. Please verify the notation and try again.")))
          (h ++ fresh)
    end.
Proof.
  intros Ht. unfold parsePgnTextInput. rewrite Ht. cbn [negb].
  unfold bind at 1.
  destruct (load_candidates_run O (whole_text_candidates raw) h) as [fresh E].
  unfold whole_text_candidates, stripped_input, normalized_input in E.
  rewrite E. exists fresh.
  destruct (first_loaded O _); reflexivity.
Qed.

Lemma first_loaded_None_inv cs :
  first_loaded O cs = None -> Forall (fun c => loads O c = false) cs.
Proof.
  induction cs as [|c cs IH]; simpl; [constructor|].
  destruct (loads O c) eqn:E; [discriminate|]. intros H.
  constructor; [exact E | now apply IH].
Qed.

(** The text returned by the [valid] branch is one of the candidates
    that did not load. *)
Lemma validated_text_candidate raw :
  In (validated_text raw) (whole_text_candidates raw).
Proof.
  unfold validated_text, whole_text_candidates, or_else.
  destruct (truthy (stripped_input raw)); cbn [andb]; [|now left].
  destruct (str_eqb (stripped_input raw) (normalized_input raw)) eqn:E;
    cbn [negb].
  - left. symmetry. now apply str_eqb_eq.
  - right. now left.
Qed.

(** Whenever the orchestrator answers from the [valid] branch of the
    validator, it returns the cleaned text, and that text is one the
    oracle did not load. *)
Lemma valid_branch_returns_unloaded_text raw h :
  truthy (cleanPgnInput raw) = true ->
  first_loaded O (whole_text_candidates raw) = None ->
  loads O (replayed_text raw) = true ->
  fst (parsePgnTextInput O raw h) =
  Ret {| success := true;
         pgn := Some (validated_text raw);
         error := None;
         movesFound :=
           Some (ceil_half (length (game_history O
                   (snd (game_loadPgn O (new_game O) (replayed_text raw))))));
         isPartial := None |} /\
  loads O (validated_text raw) = false.
Proof.
  intros Ht Hnone Hload. split.
  - destruct (parsePgnTextInput_run raw h Ht) as [fresh ->].
    rewrite Hnone. unfold bind. rewrite validatePgnWithDetails_run.
    cbv zeta. fold (replayed_text raw). rewrite Hload. reflexivity.
  - apply first_loaded_None_inv in Hnone.
    rewrite List.Forall_forall in Hnone.
    apply Hnone, validated_text_candidate.
Qed.

(** C8: an empty or white-space-only input is rejected at once, with
    the malformed-input message; no [Chess] object is created and the
    oracle is not consulted. *)
Theorem C8_blank_input_rejected raw h :
  spaces raw ->
  parsePgnTextInput O raw h =
  (Ret (failure (str "Please paste a valid PGN string.")), h).
Proof.
  intros Hs. unfold parsePgnTextInput.
  rewrite cleanPgnInput_plain by now apply spaces_markup_free.
  rewrite trim_all_space by now apply spaces_plain.
  reflexivity.
Qed.

(** C10: a successful outcome carries a non-empty notation and counts
    at least one move, for an oracle whose loaded games never list an
    empty move. *)
Theorem C10_success_carries_moves raw h r h' :
  (forall text g, game_loadPgn O (new_game O) text = (true, g) ->
                  Forall (fun t => truthy t = true) (game_history O g)) ->
  parsePgnTextInput O raw h = (Ret r, h') ->
  success r = true ->
  exists p n, pgn r = Some p /\ truthy p = true /\
              movesFound r = Some n /\ (1 <= n)%nat.
Proof.
  intros Hlaw Hrun Hok.
  destruct (truthy (cleanPgnInput raw)) eqn:Ht.
  2:{ unfold parsePgnTextInput in Hrun. rewrite Ht in Hrun.
      injection Hrun as <- _. discriminate. }
  destruct (parsePgnTextInput_run raw h Ht) as [fresh E]. rewrite E in Hrun.
  clear E. destruct (first_loaded O _) as [res|] eqn:Ef.
  - injection Hrun as <- _.
    apply first_loaded_Some in Ef as (c & Hc & ->).
    unfold loaded_result, loads in *.
    destruct (game_loadPgn O (new_game O) c) as [ok g] eqn:Eg. simpl snd.
    apply andb_prop in Hc as [-> Hlen]. apply Nat.ltb_lt in Hlen.
    eexists _, _. repeat split; simpl.
    + apply formatHistoryAsPgn_truthy; [|now apply (Hlaw c)].
      intros E. rewrite E in Hlen. simpl in Hlen. lia.
    + now apply ceil_half_pos.
  - unfold bind at 1 in Hrun.
    destruct (validatePgnWithDetails O _ _) as [[v|] h2] eqn:Ev;
      [|discriminate].
    destruct (valid v) eqn:Hv.
    + injection Hrun as <- _.
      apply validatePgnWithDetails_valid in Ev as [Hn _]; [|exact Hv].
      eexists _, _. repeat split; simpl; [|exact Hn].
      apply or_else_truthy, truthy_nonempty, normalizeCastling_nonempty.
      now apply truthy_nonempty.
    + destruct (truthy_opt (partialPgn v) && (0 <? moveCount v)%nat) eqn:Hp.
      * injection Hrun as <- _. apply andb_prop in Hp as [Hp Hn].
        apply Nat.ltb_lt in Hn. simpl.
        destruct (partialPgn v) as [p|]; [|discriminate].
        exists p, (moveCount v). repeat split; [exact Hp | lia].
      * injection Hrun as <- _. discriminate.
Qed.

End ResultTheory.

(** ** The concrete oracle *)

Lemma LineOracle_load_truthy : forall tokens g ok g',
  Forall (fun t => truthy t = true) (LineOracle.hist g) ->
  LineOracle.load g tokens = (ok, g') ->
  Forall (fun t => truthy t = true) (LineOracle.hist g').
Proof.
  induction tokens as [|t tokens IH]; intros g ok g' Hg E; simpl in E.
  - now injection E as _ <-.
  - destruct (negb (truthy t)) eqn:Et; simpl in E; [now apply (IH g ok)|].
    destruct (test _ t); [now apply (IH g ok)|].
    unfold LineOracle.move in E.
    destruct (LineOracle.known _).
    + eapply IH; [|exact E]. simpl.
      apply Forall_app. split; [exact Hg|].
      constructor; [|constructor]. now destruct (truthy t).
    + now injection E as _ <-.
Qed.

Lemma LineOracle_history_truthy text g :
  game_loadPgn LineOracle.oracle (new_game LineOracle.oracle) text = (true, g) ->
  Forall (fun t => truthy t = true) (game_history LineOracle.oracle g).
Proof.
  simpl. unfold LineOracle.loadPgn. apply LineOracle_load_truthy. constructor.
Qed.

(** ** The claims on the examples *)

Lemma C8_witness :
  parsePgnTextInput LineOracle.oracle ([c_space; c_nbsp; c_tab] ++ [c_lf]) []
  = (Ret (failure (str "Please paste a valid PGN string.")), []).
Proof.
  apply C8_blank_input_rejected.
  repeat (apply List.Forall_cons; [reflexivity|]). apply List.Forall_nil.
Defined.

Lemma C10_witness :
  exists p n,
    Some (str "1. e4 e5 2. Nf3 Nc6") = Some p /\ truthy p = true /\
    Some 2%nat = Some n /\ (1 <= n)%nat.
Proof.
  destruct (parsePgnTextInput LineOracle.oracle
              (str "1. e4 e5 2. Nf3 Nc6 3. Zz9 a6") []) as [o h'] eqn:E.
  assert (Ho : o = Ret {| success := true;
                          pgn := Some (str "1. e4 e5 2. Nf3 Nc6");
                          error := None;
                          movesFound := Some 2%nat;
                          isPartial := Some true |}).
  { vm_compute in E. now injection E as <- _. }
  subst o.
  exact (C10_success_carries_moves LineOracle.oracle _ _ _ _
           LineOracle_history_truthy E eq_refl).
Defined.



(** C1, at the failing input: the comment inside the castling move is
    stripped only after the first canonicalization; no whole text loads,
    the validator accepts the text canonicalized once more, and the
    orchestrator returns the stripped text, [O- O] included, which the
    oracle does not load. *)
Theorem C1_stripped_text_returned :
  fst (parsePgnTextInput LineOracle.oracle
         (str "1. e4 e5 2. Nf3 Nc6 3. Bc4 Bc5 4. O-{x}O") [])
  = Ret {| success := true;
           pgn := Some (str "1. e4 e5 2. Nf3 Nc6 3. Bc4 Bc5 4. O- O");
           error := None;
           movesFound := Some 4%nat;
           isPartial := None |} /\
  loads LineOracle.oracle (str "1. e4 e5 2. Nf3 Nc6 3. Bc4 Bc5 4. O- O") = false /\
  formatHistoryAsPgn
    (List.map str ["e4"; "e5"; "Nf3"; "Nc6"; "Bc4"; "Bc5"; "O-O"]%string)
  = str "1. e4 e5 2. Nf3 Nc6 3. Bc4 Bc5 4. O-O".
Proof. repeat split; vm_compute; reflexivity. Qed.

(** ** Tabular input *)





(** * Further properties

    The corrector, the replay and the orchestrator beyond the statements
    above, and the other functions of the module: the extraction of moves
    from recognized text, the two image paths, the tabular input and the
    move list of the board view. *)

(** ** The corrector's proposals *)

Lemma first_legal_Some legal mk cands d :
  first_legal legal mk cands = Some d ->
  includes legal d = true /\ exists c, d = mk c.
Proof.
  induction cands as [|c t IH]; simpl; [discriminate|].
  destruct (includes legal (mk c)) eqn:E.
  - intros [= <-]. eauto.
  - exact IH.
Qed.

Lemma disambiguate_Some legal piece infix dest d :
  disambiguate legal piece infix dest = Some d ->
  includes legal d = true /\ exists c, d = piece ++ [c] ++ infix ++ dest.
Proof.
  unfold disambiguate.
  destruct (first_legal legal _ files) eqn:E.
  - intros [= <-]. apply first_legal_Some in E. exact E.
  - intros H. apply first_legal_Some in H. exact H.
Qed.

Lemma piece_move_length move :
  test re_piece_move move = true -> (2 <= length move <= 3)%nat.
Proof.
  rewrite test_true. intros (p & s1 & s2 & -> & HM).
  unfold re_piece_move in HM. cbn [seqs] in HM. unfold one_of in HM.
  inv_matches. inv_anchors. inv_optional.
  apply rev_eq_nil in Epre as ->. simpl in Epost. subst.
  match goal with H : optional _ _ |- _ => destruct H as [->|(x & -> & _)] end;
    simpl; lia.
Qed.

Lemma piece_capture_length move :
  test re_piece_capture move = true -> length move = 4%nat.
Proof.
  rewrite test_true. intros (p & s1 & s2 & -> & HM).
  unfold re_piece_capture in HM. cbn [seqs] in HM. unfold one_of, Chr in HM.
  inv_matches. inv_anchors.
  apply rev_eq_nil in Epre as ->. simpl in Epost. subst. reflexivity.
Qed.

Lemma disambiguate_length legal move infix d :
  (2 <= length move)%nat ->
  disambiguate legal (firstn 1 move) infix (last2 move) = Some d ->
  includes legal d = true /\ length d = (4 + length infix)%nat.
Proof.
  intros Hl H. apply disambiguate_Some in H as [Hi (c & ->)].
  split; [exact Hi|].
  unfold last2. rewrite !length_app, length_firstn, length_skipn.
  cbn [length]. rewrite Nat.min_l by lia. lia.
Qed.

Section CorrectorResults.
Variable O : Oracle.
Implicit Types (h : store O) (g : Game O).

Lemma first_correction_Some g move c : forall cs,
  first_correction O g cs move = Some c ->
  c <> move /\ accepted_on_copy O g c = true.
Proof.
  induction cs as [|x cs IH]; simpl; [discriminate|].
  destruct (negb (str_eqb (apply_correction x move) move)
            && accepted_on_copy O g (apply_correction x move)) eqn:E.
  - intros [= <-]. apply andb_prop in E as [E1 E2]. split; [|exact E2].
    apply negb_true_iff in E1. now apply str_eqb_neq.
  - exact IH.
Qed.

Lemma correct_Some g move c :
  correct O g move = Some c ->
  c <> move /\
  (includes (game_moves O g) c = true \/ accepted_on_copy O g c = true).
Proof.
  unfold correct.
  destruct (test re_piece_move move) eqn:E1.
  - apply piece_move_length in E1.
    destruct (disambiguate _ _ [] _) as [d|] eqn:D.
    + intros [= <-]. apply disambiguate_length in D as [Hi Hl]; [|lia].
      split; [|now left]. intros ->. simpl in Hl. lia.
    + destruct (test re_piece_capture move) eqn:E2.
      * apply piece_capture_length in E2. lia.
      * intros H. apply first_correction_Some in H as [H1 H2]. auto.
  - destruct (test re_piece_capture move) eqn:E2.
    + apply piece_capture_length in E2.
      destruct (disambiguate _ _ (str "x") _) as [d|] eqn:D.
      * intros [= <-]. apply disambiguate_length in D as [Hi Hl]; [|lia].
        split; [|now left]. intros ->. simpl in Hl. lia.
      * intros H. apply first_correction_Some in H as [H1 H2]. auto.
    + intros H. apply first_correction_Some in H as [H1 H2]. auto.
Qed.

(** The corrector on a live board returns normally, and what it proposes
    is never the token it was given: the proposal is one of the legal
    moves of the position, or a move accepted on a copy of the
    position. *)
Theorem tryOcrCorrections_proposal_confirmed move chess h g :
  h !! chess = Some g ->
  exists r fresh,
    tryOcrCorrections O move chess h = (Ret r, h ++ fresh) /\
    forall c, r = Some c ->
      c <> move /\
      (includes (game_moves O g) c = true \/ accepted_on_copy O g c = true).
Proof.
  intros H. destruct (tryOcrCorrections_run O chess move h g H) as [fresh E].
  exists (correct O g move), fresh. split; [exact E|].
  intros c Hc. now apply correct_Some.
Qed.
End CorrectorResults.

Lemma tryOcrCorrections_proposal_confirmed_witness :
  exists r fresh,
    tryOcrCorrections LineOracle.oracle (str "Bb6") 0%nat
      [{| LineOracle.played := List.map str ["e4"; "e5"; "Nf3"; "Nc6"]%string;
          LineOracle.hist := List.map str ["e4"; "e5"; "Nf3"; "Nc6"]%string |}]
    = (Ret r,
       [{| LineOracle.played := List.map str ["e4"; "e5"; "Nf3"; "Nc6"]%string;
           LineOracle.hist := List.map str ["e4"; "e5"; "Nf3"; "Nc6"]%string |}]
       ++ fresh) /\
    forall c, r = Some c ->
      c <> str "Bb6" /\
      (includes (game_moves LineOracle.oracle
         {| LineOracle.played := List.map str ["e4"; "e5"; "Nf3"; "Nc6"]%string;
            LineOracle.hist := List.map str ["e4"; "e5"; "Nf3"; "Nc6"]%string |}) c = true \/
       accepted_on_copy LineOracle.oracle
         {| LineOracle.played := List.map str ["e4"; "e5"; "Nf3"; "Nc6"]%string;
            LineOracle.hist := List.map str ["e4"; "e5"; "Nf3"; "Nc6"]%string |} c = true).
Proof.
  exact (tryOcrCorrections_proposal_confirmed LineOracle.oracle (str "Bb6") 0%nat
           [{| LineOracle.played := List.map str ["e4"; "e5"; "Nf3"; "Nc6"]%string;
               LineOracle.hist := List.map str ["e4"; "e5"; "Nf3"; "Nc6"]%string |}]
           {| LineOracle.played := List.map str ["e4"; "e5"; "Nf3"; "Nc6"]%string;
              LineOracle.hist := List.map str ["e4"; "e5"; "Nf3"; "Nc6"]%string |}
           eq_refl).
Defined.
(** ** What the replay accepts *)

Section ReplayInvariant.
Variable O : Oracle.
Implicit Types (h : store O) (g : Game O).

Lemma insert_live (chess : ref) h g : h !! chess = Some g -> <[chess := g]> h = h.
Proof. apply list_insert_id. Qed.

Lemma insert_twice (chess : ref) h g1 g2 :
  <[chess := g2]> (<[chess := g1]> h) = <[chess := g2]> h.
Proof. apply list_insert_insert_eq. Qed.

Lemma insert_left (chess : ref) h (fresh : store O) g :
  (chess < length h)%nat ->
  <[chess := g]> (h ++ fresh) = <[chess := g]> h ++ fresh.
Proof. apply insert_app_l. Qed.

(** The loop only ever changes the board it replays on, and the moves
    it has accepted are moves that the oracle accepted, one after
    another, from the position the board was in. *)
Lemma replay_tokens_inv testGame : forall moves pm n h g,
  h !! testGame = Some g ->
  exists o g' fresh,
    replay_tokens O testGame moves pm n h
    = (o, <[testGame := g']> h ++ fresh) /\
    forall pm' f, o = Ret (pm', f) ->
      exists acc, pm' = pm ++ acc /\ play O g acc = Some g' /\
                  Forall (fun t => truthy t = true) acc.
Proof.
  induction moves as [|raw moves IH]; intros pm n h g Hg.
  - exists (Ret (pm, [])), g, []. rewrite insert_live by exact Hg.
    rewrite app_nil_r.
    split; [reflexivity|]. intros pm' f [= <- <-]. exists [].
    rewrite app_nil_r. repeat split. constructor.
  - cbn [replay_tokens].
    destruct (negb (truthy (trim raw))); [now apply IH|].
    destruct (test re_move_number (trim raw)); [now apply IH|].
    destruct (negb (truthy (trim (replace_all re_number_dot [] (trim raw)))))
      eqn:Et; [now apply IH|].
    apply negb_false_iff, truthy_nonempty in Et.
    apply normalizeCastling_nonempty, truthy_nonempty in Et.
    set (token := normalizeCastling _) in *.
    pose proof (lookup_lt_Some _ _ _ Hg) as Hlt.
    unfold bind at 1, try_catch at 1, bind at 1.
    destruct (game_move O g token) as [g1|] eqn:Hm.
    + rewrite (Chess_move_accepts O _ _ _ _ _ Hg Hm). unfold ret at 1.
      destruct (IH (pm ++ [token]) n (<[testGame := g1]> h) g1)
        as (o & g' & fresh & E1 & E2).
      { now apply list_lookup_insert_eq. }
      exists o, g', fresh. split.
      * rewrite E1. now rewrite insert_twice.
      * intros pm' f E. apply E2 in E as (acc & -> & Hp & Ht).
        exists (token :: acc). rewrite <- app_assoc. split; [reflexivity|].
        split; [simpl; now rewrite Hm|]. now constructor.
    + rewrite (Chess_move_refuses O _ _ _ _ Hg Hm). unfold bind at 1.
      destruct (tryOcrCorrections_run O testGame token h g Hg) as [fresh1 ->].
      assert (Hg' : (h ++ fresh1) !! testGame = Some g)
        by now apply lookup_app_l_Some.
      assert (Hstop : forall x : jsstring,
        exists (o : outcome (list jsstring * jsstring)) g' fresh,
          (Ret (pm, x), h ++ fresh1) = (o, <[testGame := g']> h ++ fresh) /\
          forall pm' f, o = Ret (pm', f) ->
            exists acc, pm' = pm ++ acc /\ play O g acc = Some g' /\
                        Forall (fun t => truthy t = true) acc).
      { intros x. exists (Ret (pm, x)), g, fresh1.
        rewrite insert_live by exact Hg.
        split; [reflexivity|]. intros pm' f [= <- _]. exists [].
        rewrite app_nil_r. repeat split. constructor. }
      destruct (correct O g token) as [c|]; [|apply Hstop].
      destruct (truthy c) eqn:Hc; [|apply Hstop].
      unfold bind at 1.
      destruct (game_move O g c) as [g1|] eqn:Hm'.
      * rewrite (Chess_move_accepts O _ _ _ _ _ Hg' Hm'). unfold ret at 1.
        destruct (IH (pm ++ [c]) n (<[testGame := g1]> (h ++ fresh1)) g1)
          as (o & g' & fresh & E1 & E2).
        { apply list_lookup_insert_eq. now apply lookup_lt_Some in Hg'. }
        exists o, g', (fresh1 ++ fresh). split.
        -- etransitivity; [exact E1|]. f_equal.
           rewrite insert_twice, insert_left by exact Hlt.
           now rewrite <- app_assoc.
        -- intros pm' f E. apply E2 in E as (acc & -> & Hp & Ht).
           exists (c :: acc). rewrite <- app_assoc. split; [reflexivity|].
           split; [simpl; now rewrite Hm'|]. now constructor.
      * rewrite (Chess_move_refuses O _ _ _ _ Hg' Hm').
        exists Throw, g, fresh1. rewrite insert_live by exact Hg.
        split; [reflexivity|]. discriminate.
Qed.

(** The replay on a new board. *)
Lemma replay_fallback_inv cleaned h :
  exists o g' fresh,
    replay_fallback O cleaned h = (o, h ++ g' :: fresh) /\
    forall v, o = Ret v ->
      exists acc f,
        play O (new_game O) acc = Some g' /\
        Forall (fun t => truthy t = true) acc /\
        v = {| valid := false;
               failedAt :=
                 Some (or_else f (if (0 <? length acc)%nat
                                  then str "end of game" else str "start"));
               partialPgn :=
                 if (0 <? length acc)%nat
                 then Some (trim (reconstruct 1 acc)) else None;
               moveCount :=
                 if (0 <? length acc)%nat
                 then ceil_half (length acc) else 0%nat |}.
Proof.
  unfold replay_fallback, bind at 1, Chess_new, alloc. unfold bind at 1.
  destruct (replay_tokens_inv (length h) (split re_spaces cleaned) [] 1%nat
              (h ++ [new_game O]) (new_game O) (lookup_fresh O h _))
    as (o & g' & fresh & E1 & E2).
  rewrite insert_fresh in E1. rewrite E1. rewrite <- app_assoc.
  destruct o as [[pm f]|].
  - destruct (E2 pm f eq_refl) as (acc & -> & Hp & Ht).
    change ([] ++ acc) with acc.
    destruct (0 <? length acc)%nat eqn:El; eexists _, g', fresh;
      (split; [reflexivity|]);
      intros v [= <-]; exists acc, f; rewrite El; auto.
  - exists Throw, g', fresh. split; [reflexivity|]. discriminate.
Qed.

(** The verdict of the replay. *)
Lemma validatePgnWithDetails_invalid pgn h v h' :
  validatePgnWithDetails O pgn h = (Ret v, h') ->
  valid v = false ->
  exists acc g',
    play O (new_game O) acc = Some g' /\
    Forall (fun t => truthy t = true) acc /\
    moveCount v = (if (0 <? length acc)%nat then ceil_half (length acc) else 0%nat) /\
    partialPgn v = (if (0 <? length acc)%nat
                    then Some (trim (reconstruct 1 acc)) else None) /\
    (exists f, failedAt v = Some f /\ truthy f = true) /\
    (partialPgn v = None <-> moveCount v = 0%nat).
Proof.
  rewrite validatePgnWithDetails_run. cbv zeta.
  destruct (loads O _) eqn:El; [intros [= <- <-]; discriminate|].
  intros E _.
  destruct (replay_fallback_inv (stripPgnMetadata (normalizeCastling pgn))
              (h ++ [snd (game_loadPgn O (new_game O)
                            (stripPgnMetadata (normalizeCastling pgn)))]))
    as (o & g' & fresh & E1 & E2).
  rewrite E in E1. injection E1 as <- _.
  destruct (E2 v eq_refl) as (acc & f & Hp & Ht & ->).
  exists acc, g'. simpl. repeat split; try assumption.
  - eexists. split; [reflexivity|]. apply or_else_truthy.
    now destruct (0 <? length acc)%nat.
  - destruct (0 <? length acc)%nat; [discriminate|reflexivity].
  - destruct (Nat.ltb_spec 0 (length acc)) as [Hl|Hl]; [|reflexivity].
    intros Hc. apply ceil_half_pos in Hl. lia.
Qed.

(** A verdict of [validatePgnWithDetails] that is not [valid] rests on
    moves that the oracle accepted one after another from the starting
    position: the partial notation is these moves, numbered, the count is
    the number of full moves they span, and the place of the failure is
    named.  No partial notation is given exactly when no move was
    accepted. *)
Theorem validatePgnWithDetails_partial_sound pgn h v h' :
  validatePgnWithDetails O pgn h = (Ret v, h') ->
  valid v = false ->
  exists acc g',
    play O (new_game O) acc = Some g' /\
    Forall (fun t => truthy t = true) acc /\
    moveCount v = (if (0 <? length acc)%nat then ceil_half (length acc) else 0%nat) /\
    partialPgn v = (if (0 <? length acc)%nat
                    then Some (trim (reconstruct 1 acc)) else None) /\
    (exists f, failedAt v = Some f /\ truthy f = true) /\
    (partialPgn v = None <-> moveCount v = 0%nat).
Proof. apply validatePgnWithDetails_invalid. Qed.

(** The verdict is [valid] exactly when the rules engine loads the
    cleaned text with at least one move; a valid verdict names no failure
    and carries no partial notation; [validatePgn] on the cleaned text
    gives the same verdict. *)
Theorem validatePgnWithDetails_verdict pgn h v h' :
  validatePgnWithDetails O pgn h = (Ret v, h') ->
  valid v = loads O (stripPgnMetadata (normalizeCastling pgn)) /\
  (valid v = true ->
   failedAt v = None /\ partialPgn v = None /\ (1 <= moveCount v)%nat) /\
  forall h0,
    fst (validatePgn O (stripPgnMetadata (normalizeCastling pgn)) h0)
    = Ret (valid v).
Proof.
  intros E.
  assert (Hv : valid v = loads O (stripPgnMetadata (normalizeCastling pgn))).
  { destruct (valid v) eqn:Ev.
    - symmetry. now apply (validatePgnWithDetails_valid O pgn h v h').
    - revert E. rewrite validatePgnWithDetails_run. cbv zeta.
      destruct (loads O _); [|reflexivity].
      intros [= <- _]. discriminate. }
  split; [exact Hv|]. split.
  - intros Ev. pose proof (validatePgnWithDetails_valid O pgn h v h' E Ev) as [Hc Hl].
    revert E. rewrite validatePgnWithDetails_run. cbv zeta. rewrite Hl.
    intros [= <- _]. simpl. auto.
  - intros h0. rewrite Hv. unfold validatePgn, loads.
    unfold try_catch, bind, Chess_new, alloc, Chess_loadPgn, Chess_history, read.
    rewrite lookup_fresh.
    destruct (game_loadPgn O (new_game O) _) as [ok g1].
    destruct ok; simpl; [|reflexivity].
    rewrite insert_fresh, lookup_fresh. reflexivity.
Qed.

(** [validatePgnWithDetails] leaves every object that was on the heap
    as it was: it works on objects of its own. *)
Lemma validatePgnWithDetails_frame pgn h :
  exists fresh, snd (validatePgnWithDetails O pgn h) = h ++ fresh.
Proof.
  rewrite validatePgnWithDetails_run. cbv zeta.
  destruct (loads O _); [eexists; reflexivity|].
  destruct (replay_fallback_inv (stripPgnMetadata (normalizeCastling pgn))
              (h ++ [snd (game_loadPgn O (new_game O)
                            (stripPgnMetadata (normalizeCastling pgn)))]))
    as (o & g' & fresh & E & _).
  rewrite E, <- app_assoc. eexists; reflexivity.
Qed.
End ReplayInvariant.

Lemma validatePgnWithDetails_partial_sound_witness :
  exists acc g',
    play LineOracle.oracle LineOracle.start acc = Some g' /\
    Forall (fun t => truthy t = true) acc /\
    2%nat = (if (0 <? length acc)%nat then ceil_half (length acc) else 0%nat) /\
    Some (str "1. e4 e5 2. Nf3 Nc6")
    = (if (0 <? length acc)%nat
       then Some (trim (reconstruct 1 acc)) else None) /\
    (exists f, Some (str "Zz9 (move 3)") = Some f /\ truthy f = true) /\
    (Some (str "1. e4 e5 2. Nf3 Nc6") = None <-> 2%nat = 0%nat).
Proof.
  destruct (validatePgnWithDetails LineOracle.oracle
              (str "1. e4 e5 2. Nf3 Nc6 3. Zz9 a6") []) as [o h'] eqn:E.
  assert (Ho : o = Ret {| valid := false;
                          failedAt := Some (str "Zz9 (move 3)");
                          partialPgn := Some (str "1. e4 e5 2. Nf3 Nc6");
                          moveCount := 2 |}).
  { vm_compute in E. now injection E as <- _. }
  subst o.
  exact (validatePgnWithDetails_partial_sound LineOracle.oracle _ _ _ _ E eq_refl).
Defined.

Lemma validatePgnWithDetails_verdict_witness :
  true = loads LineOracle.oracle
           (stripPgnMetadata (normalizeCastling (str "1. e4 {best} e5"))) /\
  (true = true ->
   @None jsstring = None /\ @None jsstring = None /\ (1 <= 1)%nat) /\
  forall h0,
    fst (validatePgn LineOracle.oracle
           (stripPgnMetadata (normalizeCastling (str "1. e4 {best} e5"))) h0)
    = Ret true.
Proof.
  destruct (validatePgnWithDetails LineOracle.oracle
              (str "1. e4 {best} e5") []) as [o h'] eqn:E.
  assert (Ho : o = Ret {| valid := true; failedAt := None;
                          partialPgn := None; moveCount := 1 |}).
  { vm_compute in E. now injection E as <- _. }
  subst o.
  exact (validatePgnWithDetails_verdict LineOracle.oracle _ _ _ _ E).
Defined.
(** ** Outcomes of the orchestrator *)

Section OutcomeTheory.
Variable O : Oracle.
Implicit Types (h : store O) (g : Game O).

Lemma parsePgnTextInput_blank raw h :
  truthy (cleanPgnInput raw) = false ->
  parsePgnTextInput O raw h
  = (Ret (failure (str "Please paste a valid PGN string.")), h).
Proof. intros E. unfold parsePgnTextInput. now rewrite E. Qed.

Lemma loaded_result_shape res cs :
  first_loaded O cs = Some res ->
  success res = true /\ isPartial res = None /\ error res = None.
Proof.
  intros H. apply first_loaded_Some in H as (c & _ & ->). now repeat split.
Qed.

(** The orchestrator leaves every object that was on the heap as it
    was, whatever its outcome: the boards it loads and replays on are its
    own. *)
Theorem parsePgnTextInput_frame raw :
  extends_heap (parsePgnTextInput O raw).
Proof.
  intros h. destruct (truthy (cleanPgnInput raw)) eqn:E.
  - destruct (parsePgnTextInput_run O raw h E) as [fresh ->].
    destruct (first_loaded O _); [now exists fresh|].
    unfold bind.
    destruct (validatePgnWithDetails_frame O (validated_text raw) (h ++ fresh))
      as [fresh2 E2].
    destruct (validatePgnWithDetails O _ _) as [[v|] h2]; simpl in E2; subst h2;
      rewrite <- app_assoc; [|now eexists].
    destruct (valid v); [now eexists|].
    destruct (truthy_opt (partialPgn v) && (0 <? moveCount v)%nat); now eexists.
  - rewrite parsePgnTextInput_blank by exact E. exists []. simpl.
    now rewrite app_nil_r.
Qed.

(** A result marked partial is built from moves that the oracle
    accepted one after another from the starting position, at least one of
    them: its notation is these moves, numbered, and its count is the
    number of full moves they span.  The mark is never given the value
    [false]. *)
Theorem parsePgnTextInput_partial_sound raw h r h' :
  parsePgnTextInput O raw h = (Ret r, h') ->
  (isPartial r = None \/ isPartial r = Some true) /\
  (isPartial r = Some true ->
   success r = true /\
   exists acc g',
     acc <> [] /\
     play O (new_game O) acc = Some g' /\
     Forall (fun t => truthy t = true) acc /\
     pgn r = Some (trim (reconstruct 1 acc)) /\
     movesFound r = Some (ceil_half (length acc))).
Proof.
  destruct (truthy (cleanPgnInput raw)) eqn:E.
  - destruct (parsePgnTextInput_run O raw h E) as [fresh ->].
    destruct (first_loaded O _) as [res|] eqn:El.
    { intros [= <- _]. apply loaded_result_shape in El as (_ & -> & _).
      split; [now left|discriminate]. }
    unfold bind.
    destruct (validatePgnWithDetails O _ _) as [[v|] h2] eqn:Ev; [|discriminate].
    destruct (valid v) eqn:Hv.
    { intros [= <- _]. simpl. split; [now left|discriminate]. }
    destruct (validatePgnWithDetails_invalid O _ _ _ _ Ev Hv)
      as (acc & g' & Hp & Ht & Hc & Hpp & _ & _).
    destruct (truthy_opt (partialPgn v) && (0 <? moveCount v)%nat) eqn:Hb.
    + intros [= <- _]. simpl. split; [now right|]. intros _.
      split; [reflexivity|]. exists acc, g'.
      apply andb_prop in Hb as [_ Hb]. apply Nat.ltb_lt in Hb.
      destruct (Nat.ltb_spec 0 (length acc)) as [Hl|Hl]; [|lia].
      rewrite Hc, Hpp. repeat split; try assumption.
      intros ->. simpl in Hl. lia.
    + intros [= <- _]. simpl. split; [now left|discriminate].
  - rewrite parsePgnTextInput_blank by exact E. intros [= <- _]. simpl.
    split; [now left|discriminate].
Qed.

(** A result is a success with a notation and a count and no error
    message, or a failure with a non-empty error message and nothing
    else. *)
Theorem parsePgnTextInput_result_shape raw h r h' :
  parsePgnTextInput O raw h = (Ret r, h') ->
  (success r = true /\ error r = None /\
   exists p n, pgn r = Some p /\ movesFound r = Some n) \/
  (success r = false /\ pgn r = None /\ movesFound r = None /\
   isPartial r = None /\ exists e, error r = Some e /\ truthy e = true).
Proof.
  destruct (truthy (cleanPgnInput raw)) eqn:E.
  - destruct (parsePgnTextInput_run O raw h E) as [fresh ->].
    destruct (first_loaded O _) as [res|] eqn:El.
    { intros [= <- _]. apply first_loaded_Some in El as (c & _ & ->).
      left. simpl. eauto 6. }
    unfold bind.
    destruct (validatePgnWithDetails O _ _) as [[v|] h2] eqn:Ev; [|discriminate].
    destruct (valid v) eqn:Hv.
    { intros [= <- _]. left. simpl. eauto 6. }
    destruct (truthy_opt (partialPgn v) && (0 <? moveCount v)%nat) eqn:Hb.
    + intros [= <- _]. left. simpl.
      apply andb_prop in Hb as [Hb _].
      destruct (partialPgn v) as [p|]; [|discriminate]. eauto 6.
    + intros [= <- _]. right. simpl. repeat split.
      eexists. split; [reflexivity|].
      destruct (truthy_opt (failedAt v)); reflexivity.
  - rewrite parsePgnTextInput_blank by exact E. intros [= <- _]. right. simpl.
    repeat split. eexists. split; reflexivity.
Qed.
End OutcomeTheory.

Lemma parsePgnTextInput_partial_sound_witness :
  (Some true = None \/ Some true = Some true) /\
  (Some true = Some true ->
   true = true /\
   exists acc g',
     acc <> [] /\
     play LineOracle.oracle LineOracle.start acc = Some g' /\
     Forall (fun t => truthy t = true) acc /\
     Some (str "1. e4 e5 2. Nf3 Nc6") = Some (trim (reconstruct 1 acc)) /\
     Some 2%nat = Some (ceil_half (length acc))).
Proof.
  destruct (parsePgnTextInput LineOracle.oracle
              (str "1. e4 e5 2. Nf3 Nc6 3. Zz9 a6") []) as [o h'] eqn:E.
  assert (Ho : o = Ret {| success := true;
                          pgn := Some (str "1. e4 e5 2. Nf3 Nc6");
                          error := None;
                          movesFound := Some 2%nat;
                          isPartial := Some true |}).
  { vm_compute in E. now injection E as <- _. }
  subst o.
  exact (parsePgnTextInput_partial_sound LineOracle.oracle _ _ _ _ E).
Defined.

Lemma parsePgnTextInput_result_shape_witness :
  (false = true /\ Some (str "Unable to parse PGN. Problem detected near Zz9 (move 1).") = None /\
   exists p n, @None jsstring = Some p /\ @None nat = Some n) \/
  (false = false /\ @None jsstring = None /\ @None nat = None /\
   @None bool = None /\
   exists e, Some (str "Unable to parse PGN. Problem detected near Zz9 (move 1).") = Some e /\
             truthy e = true).
Proof.
  destruct (parsePgnTextInput LineOracle.oracle (str "1. Zz9") [])
    as [o h'] eqn:E.
  assert (Ho : o = Ret (failure
            (str "Unable to parse PGN. Problem detected near Zz9 (move 1)."))).
  { vm_compute in E. now injection E as <- _. }
  subst o.
  exact (parsePgnTextInput_result_shape LineOracle.oracle _ _ _ _ E).
Defined.
(** ** Literal patterns *)

Lemma Matches_Lit_inv l : forall pre s post, Matches (Lit l) pre s post -> s = l.
Proof.
  induction l as [|c l IH]; intros pre s post H; cbn [Lit] in H.
  - now apply Matches_Eps_inv in H.
  - apply Matches_Seq_inv in H as (s1 & s2 & -> & H1 & H2).
    apply Matches_Cls_inv in H1 as (x & -> & Hx). apply N.eqb_eq in Hx as <-.
    apply IH in H2 as ->. reflexivity.
Qed.

Lemma Matches_Lit_intro l : forall pre post, Matches (Lit l) pre l post.
Proof.
  induction l as [|c l IH]; intros pre post; cbn [Lit]; [constructor|].
  change (c :: l) with ([c] ++ l). apply M_Seq; [|apply IH].
  constructor. apply N.eqb_refl.
Qed.

(** ** Shape of the cleaned input *)

Lemma Forall_map_subst (a b : char) (Q : char -> Prop) s :
  Q b -> Forall Q s -> Forall Q (List.map (fun x => if a =? x then b else x) s).
Proof.
  intros Hb H. induction H as [|x s Hx _ IH]; cbn [List.map]; constructor;
    [destruct (a =? x); assumption | exact IH].
Qed.

Lemma map_subst_gone (a b : char) s :
  a <> b -> Forall (fun c => c <> a) (List.map (fun x => if a =? x then b else x) s).
Proof.
  intros Hab. induction s as [|x s IH]; cbn [List.map]; constructor; [|exact IH].
  destruct (N.eqb_spec a x); congruence.
Qed.

Lemma exec_bold_hit pre t :
  exec re_bold pre (42 :: 42 :: t) = Some (2%nat, None).
Proof.
  unfold exec, re_bold. cbn [str List.map list_ascii_of_string].
  change (N_of_ascii "*") with 42. cbn [Lit m]. unfold Chr. cbn [m].
  rewrite N.eqb_refl. cbn [length]. do 2 f_equal. lia.
Qed.

Lemma exec_bold_miss pre s :
  (forall t, s <> 42 :: 42 :: t) -> exec re_bold pre s = None.
Proof.
  intros H. destruct (exec re_bold pre s) as [[n cap]|] eqn:E; [|reflexivity].
  apply exec_sound in E as (s1 & s2 & -> & _ & HM).
  apply Matches_Lit_inv in HM as ->. now destruct (H s2).
Qed.

Lemma replace_bold_no_double : forall n s pre,
  (length s <= n)%nat ->
  no_double 42 (replace_go re_bold [] pre s O) /\
  (head s <> Some 42 -> head (replace_go re_bold [] pre s O) <> Some 42).
Proof.
  induction n as [|n IH]; intros s pre Hn.
  - destruct s; [|simpl in Hn; lia]. cbn [replace_go].
    rewrite exec_bold_miss by discriminate. split; [exact I | auto].
  - destruct s as [|a [|b t]].
    + cbn [replace_go]. rewrite exec_bold_miss by discriminate.
      split; [exact I | auto].
    + rewrite replace_go_0, exec_bold_miss by discriminate.
      cbn [replace_go]. rewrite exec_bold_miss by discriminate.
      split; [|auto]. cbn [no_double head]. repeat split; discriminate.
    + destruct (N.eq_dec a 42) as [->|Ha]; [destruct (N.eq_dec b 42) as [->|Hb]|].
      * rewrite replace_go_0, exec_bold_hit.
        change (expand [] None) with (@nil N). cbn [app replace_go].
        destruct (IH t (42 :: 42 :: pre)) as [H1 _]; [simpl in Hn |- *; lia|].
        split; [exact H1|]. intros H. now destruct H.
      * rewrite replace_go_0, exec_bold_miss by (intros t' [= E]; congruence).
        destruct (IH (b :: t) (42 :: pre)) as [H1 H2]; [simpl in Hn |- *; lia|].
        split; [|intros H; now destruct H].
        cbn [no_double]. split; [|exact H1].
        intros _. apply H2. simpl. congruence.
      * rewrite replace_go_0, exec_bold_miss by (intros t' [= E]; congruence).
        destruct (IH (b :: t) (a :: pre)) as [H1 _]; [simpl in Hn |- *; lia|].
        split; [|intros _; simpl; congruence].
        cbn [no_double]. split; [congruence | exact H1].
Qed.

Lemma no_double_map (f : char -> char) c s :
  (forall x, f x = c -> x = c) -> f c = c ->
  no_double c s -> no_double c (List.map f s).
Proof.
  intros Hf Hc. induction s as [|a t IH]; [auto|].
  cbn [List.map no_double]. intros [H1 H2]. split; [|now apply IH].
  intros E. apply Hf in E. specialize (H1 E).
  destruct t as [|b t]; [discriminate|]. simpl in *.
  intros [= Eb]. apply Hf in Eb. congruence.
Qed.

Lemma no_double_app c x y :
  no_double c (x ++ y) -> no_double c x /\ no_double c y.
Proof.
  induction x as [|a x IH]; cbn [app no_double]; [tauto|].
  intros [H1 H2]. destruct (IH H2) as [Hx Hy]. repeat split; try assumption.
  intros E. specialize (H1 E). destruct x; [discriminate | exact H1].
Qed.

Lemma no_double_no_bold s : no_double 42 s -> test re_bold s = false.
Proof.
  intros H. destruct (test re_bold s) eqn:E; [|reflexivity].
  apply test_true in E as (p & s1 & s2 & -> & HM).
  apply Matches_Lit_inv in HM as ->.
  apply no_double_app in H as [_ H]. cbn [str List.map list_ascii_of_string app] in H.
  change (N_of_ascii "*") with 42 in H. cbn [no_double head] in H.
  destruct H as [H _]. now destruct (H eq_refl).
Qed.

Lemma trim_is_factor s : exists a b, s = a ++ trim s ++ b.
Proof.
  assert (Hs : forall t, exists w, t = w ++ trimStart t).
  { induction t as [|c t [w IH]]; [now exists []|]. simpl.
    destruct (is_space c); [|now exists []].
    exists (c :: w). simpl. now rewrite <- IH. }
  unfold trim, trimEnd.
  destruct (Hs s) as [a Ea]. destruct (Hs (rev (trimStart s))) as [b Eb].
  exists a, (rev b). rewrite Ea at 1. f_equal.
  rewrite <- rev_app_distr, <- Eb. now rewrite rev_involutive.
Qed.

(** The text that [cleanPgnInput] returns neither begins nor ends with
    white space, holds no no-break space and no carriage return, and
    holds no bold marker (two asterisks in a row). *)
Theorem cleanPgnInput_output x :
  head_ok (cleanPgnInput x) /\ last_ok (cleanPgnInput x) /\
  Forall (fun c => c <> c_nbsp /\ c <> c_cr) (cleanPgnInput x) /\
  test re_bold (cleanPgnInput x) = false.
Proof.
  unfold cleanPgnInput. destruct (negb (truthy x)).
  - repeat split; [intros c; discriminate | intros c; discriminate | constructor].
  - split; [apply trim_head_ok|]. split; [apply trim_last_ok|]. split.
    + apply Forall_trim. rewrite !replace_all_char.
      apply Forall_and. split.
      * apply Forall_map_subst; [discriminate|]. now apply map_subst_gone.
      * now apply map_subst_gone.
    + apply no_double_no_bold.
      match goal with |- no_double _ (trim ?s) =>
        destruct (trim_is_factor s) as (a & b & E);
        assert (H : no_double 42 s); [|rewrite E in H;
          apply no_double_app in H as [_ H]; now apply no_double_app in H as [H _]]
      end.
      rewrite !replace_all_char.
      apply no_double_map;
        [intros c; destruct (N.eqb_spec c_cr c); [discriminate | auto]
        | reflexivity |].
      apply no_double_map;
        [intros c; destruct (N.eqb_spec c_nbsp c); [discriminate | auto]
        | reflexivity |].
      apply (replace_bold_no_double (length (replace_all re_fence []
                (replace_all re_fence_pgn [] x)))). lia.
Qed.

(** ** Texts that the castling canonicalization leaves alone *)

Lemma Matches_word_inv r pre s post :
  Matches (word r) pre s post -> Matches r pre s post.
Proof.
  unfold word. intros H.
  apply Matches_Seq_inv in H as (s1 & s2 & -> & H1 & H2).
  apply Matches_WordB_inv in H1 as [-> _].
  apply Matches_Seq_inv in H2 as (s3 & s4 & -> & H3 & H4).
  apply Matches_WordB_inv in H4 as [-> _].
  simpl in *. now rewrite app_nil_r.
Qed.

Lemma test_word_false r s : test r s = false -> test (word r) s = false.
Proof.
  intros H. destruct (test (word r) s) eqn:E; [|reflexivity].
  apply test_true in E as (p & s1 & s2 & -> & HM).
  apply Matches_word_inv in HM.
  assert (T : test r (p ++ s1 ++ s2) = true) by (apply test_true; eauto).
  congruence.
Qed.

Lemma word_dashes r n :
  (forall pre s post, Matches r pre s post -> (n <= dashes s)%nat) ->
  forall pre s post, Matches (word r) pre s post -> (n <= dashes s)%nat.
Proof. intros H pre s post HM. apply Matches_word_inv in HM. eauto. Qed.

Lemma Lit_dashes l pre s post :
  Matches (Lit l) pre s post -> (dashes l <= dashes s)%nat.
Proof. intros H. apply Matches_Lit_inv in H as ->. lia. Qed.

Lemma normalizeCastling_no_match s :
  dashes s = 0%nat -> test (Lit (str "00")) s = false ->
  normalizeCastling s = s.
Proof.
  intros Hd Hz. unfold normalizeCastling.
  assert (H2 : forall g, test (castle2 g) s = false).
  { intros g. apply (few_dashes_no_match _ 1); [apply castle2_dashes | lia]. }
  assert (H3 : forall g, test (castle3 g) s = false).
  { intros g. apply (few_dashes_no_match _ 2); [apply castle3_dashes | lia]. }
  assert (Hz3 : test (Lit (str "000")) s = false).
  { destruct (test (Lit (str "000")) s) eqn:E; [|reflexivity].
    apply test_true in E as (p & s1 & s2 & -> & HM).
    apply Matches_Lit_inv in HM as ->.
    assert (T : test (Lit (str "00")) (p ++ str "000" ++ s2) = true).
    { apply test_true. exists p, (str "00"), (c_zero :: s2).
      split; [reflexivity|]. apply Matches_Lit_intro. }
    congruence. }
  rewrite (replace_all_no_match (castle3 glyph_zero)) by apply H3.
  rewrite (replace_all_no_match (castle2 glyph_zero)) by apply H2.
  rewrite (replace_all_no_match (castle3 glyph_o)) by apply H3.
  rewrite (replace_all_no_match (castle2 glyph_o)) by apply H2.
  rewrite (replace_all_no_match (word (castle3 glyph_O)))
    by (apply test_word_false, H3).
  rewrite (replace_all_no_match (word (castle2 glyph_O)))
    by (apply test_word_false, H2).
  rewrite (replace_all_no_match (word (Lit (str "00"))))
    by (apply test_word_false, Hz).
  rewrite (replace_all_no_match (word (Lit (str "000"))))
    by (apply test_word_false, Hz3).
  rewrite (replace_all_no_match (word (Lit (str "0-0"))))
    by (apply test_word_false, (few_dashes_no_match _ 1);
        [intros pre s' post; apply Lit_dashes | lia]).
  rewrite (replace_all_no_match (word (Lit (str "0-0-0"))))
    by (apply test_word_false, (few_dashes_no_match _ 2);
        [intros pre s' post; apply Lit_dashes | lia]).
  reflexivity.
Qed.

(** A text with no hyphen and no two zeros in a row is returned
    unchanged by [normalizeCastling]. *)
Theorem normalizeCastling_unchanged s :
  dashes s = 0%nat -> test (Lit (str "00")) s = false ->
  normalizeCastling s = s.
Proof. apply normalizeCastling_no_match. Qed.

Lemma normalizeCastling_unchanged_witness :
  normalizeCastling (str "10. Nf3 Nc6 20. exd5") = str "10. Nf3 Nc6 20. exd5".
Proof. apply normalizeCastling_unchanged; reflexivity. Defined.

(** ** Tokens without a digit *)

Lemma has_destination_digit u :
  has_destination u -> Exists (fun c => is_digit c = true) u.
Proof.
  intros (a & f & r & b & -> & _ & Hr).
  apply Exists_app. right. apply Exists_cons. right. apply Exists_cons. left.
  unfold mem, ranks in Hr. simpl in Hr.
  repeat (apply orb_prop in Hr as [Hr|Hr];
          [apply N.eqb_eq in Hr as ->; reflexivity|]).
  discriminate.
Qed.

Lemma normalized_token_digit_free move :
  Forall (fun c => is_digit c = false) move ->
  Forall (fun c => is_digit c = false) (normalized_token move).
Proof.
  intros H. unfold normalized_token.
  apply normalizeCastling_Forall; [reflexivity | reflexivity |].
  apply Forall_trim. rewrite List.Forall_forall in *.
  intros c Hc. apply List.filter_In in Hc as [Hc _]. auto.
Qed.

(** The only tokens without a digit that [isValidMove] accepts are the
    castling spellings. *)
Lemma isValidMove_digit_free move :
  Forall (fun c => is_digit c = false) move ->
  isValidMove move = true ->
  castling_shape (normalized_token move).
Proof.
  intros Hd Hv. apply isValidMove_iff in Hv as [_ [Hc|[Hdest _]]]; [exact Hc|].
  apply has_destination_digit in Hdest.
  apply normalized_token_digit_free in Hd.
  rewrite List.Forall_forall in Hd. apply List.Exists_exists in Hdest as (c & Hin & Hc).
  apply Hd in Hin. congruence.
Qed.
(** ** Numbers in the notation *)

Lemma string_of_uint_digits d :
  Forall (fun c => is_digit c = true) (str (NilEmpty.string_of_uint d)).
Proof.
  unfold str. induction d; cbn [NilEmpty.string_of_uint list_ascii_of_string List.map];
    constructor; try reflexivity; assumption.
Qed.

Lemma show_nat_digits n : Forall (fun c => is_digit c = true) (show_nat n).
Proof. apply string_of_uint_digits. Qed.

Lemma show_nat_nonempty n : show_nat n <> [].
Proof.
  unfold show_nat. destruct (Nat.to_uint n) eqn:E;
    try (unfold str; cbn [NilEmpty.string_of_uint list_ascii_of_string List.map];
         discriminate).
  pose proof (Unsigned.of_to n) as H. rewrite E in H. simpl in H. subst n.
  discriminate E.
Qed.

Lemma show_nat_first n :
  exists d s, show_nat n = d :: s /\ is_digit d = true.
Proof.
  pose proof (show_nat_digits n) as H. pose proof (show_nat_nonempty n) as Hn.
  destruct (show_nat n) as [|d s]; [congruence|].
  exists d, s. split; [reflexivity|]. now inversion H.
Qed.

Lemma digit_not_space c : is_digit c = true -> is_space c = false.
Proof.
  unfold is_digit, in_range. intros H. apply andb_prop in H as [H1 H2].
  apply N.leb_le in H1, H2. unfold is_space, in_range.
  repeat match goal with
         | |- context [?a <=? ?b] => destruct (N.leb_spec a b); try lia
         | |- context [?a =? ?b] => destruct (N.eqb_spec a b); try lia
         end; reflexivity.
Qed.


(** ** Trimming *)

Lemma spaces_or_not s : spaces s \/ Exists (fun c => is_space c = false) s.
Proof.
  induction s as [|c s [IH|IH]].
  - left. constructor.
  - destruct (is_space c) eqn:E; [left; now constructor | right; now left].
  - right. now right.
Qed.

Lemma trimStart_Exists s :
  Exists (fun c => is_space c = false) s ->
  exists c s', trimStart s = c :: s' /\ is_space c = false.
Proof.
  induction 1 as [c s Hc | c s _ IH]; simpl.
  - rewrite Hc. eauto.
  - destruct (is_space c) eqn:E; [exact IH | eauto].
Qed.

Lemma trimStart_app_Exists s t :
  Exists (fun c => is_space c = false) s -> trimStart (s ++ t) = trimStart s ++ t.
Proof.
  induction 1 as [c s Hc | c s _ IH]; simpl.
  - now rewrite Hc.
  - destruct (is_space c); [exact IH | reflexivity].
Qed.

Lemma trim_Exists s : Exists (fun c => is_space c = false) s -> trim s <> [].
Proof.
  intros H. apply trimStart_Exists in H as (c & s' & E & Hc).
  unfold trim. rewrite E. now apply trimEnd_nonempty.
Qed.

Lemma trimEnd_snoc_space s c : is_space c = true -> trimEnd (s ++ [c]) = trimEnd s.
Proof.
  intros Hc. unfold trimEnd. rewrite rev_app_distr. simpl. now rewrite Hc.
Qed.

Lemma trim_snoc_space s c : is_space c = true -> trim (s ++ [c]) = trim s.
Proof.
  intros Hc. destruct (spaces_or_not s) as [Hs|Hs].
  - rewrite !trim_all_space; [reflexivity | exact Hs |].
    apply Forall_app. split; [exact Hs | now constructor].
  - unfold trim. rewrite trimStart_app_Exists by exact Hs.
    now apply trimEnd_snoc_space.
Qed.

Lemma last_ok_app a b : b <> [] -> last_ok b -> last_ok (a ++ b).
Proof.
  intros Hb H. destruct (exists_last Hb) as (b' & g & ->).
  apply (last_ok_snoc _ (a ++ b') g); [now rewrite app_assoc|].
  apply H. apply last_snoc.
Qed.

(** ** Tabular input *)

Lemma csv_rows_filter : forall data pgn n,
  csv_rows (List.filter has_cell data) pgn n = csv_rows data pgn n.
Proof.
  induction data as [|r data IH]; intros pgn n; [reflexivity|].
  cbn [List.filter]. unfold has_cell at 1.
  destruct (truthy (column r "White" "white")) eqn:Ew;
    destruct (truthy (column r "Black" "black")) eqn:Eb;
    cbn [orb csv_rows]; rewrite ?Ew, ?Eb; cbn [negb andb]; apply IH.
Qed.

Lemma csv_rows_app : forall data pgn n,
  fst (csv_rows data pgn n) = pgn ++ fst (csv_rows data [] n).
Proof.
  induction data as [|r data IH]; intros pgn n; cbn [csv_rows].
  - simpl. now rewrite app_nil_r.
  - cbv zeta.
    destruct (negb (truthy (column r "White" "white"))
              && negb (truthy (column r "Black" "black"))); [apply IH|].
    rewrite IH. symmetry. rewrite IH. symmetry.
    destruct (truthy (column r "White" "white"));
      destruct (truthy (column r "Black" "black"));
      rewrite <- ?app_assoc; reflexivity.
Qed.

Lemma csv_rows_white data : forall n,
  Exists (fun r => truthy (column r "White" "white") = true) data ->
  Exists (fun c => is_space c = false) (fst (csv_rows data [] n)).
Proof.
  induction data as [|r data IH]; intros n H; [inversion H|].
  cbn [csv_rows]. cbv zeta.
  destruct (truthy (column r "White" "white")) eqn:Ew.
  - cbn [negb andb]. rewrite csv_rows_app. apply Exists_app. left.
    destruct (show_nat_first n) as (d & s & E & Hd).
    assert (X : Exists (fun c => is_space c = false)
                  ([] ++ show_nat n ++ str ". " ++
                   trim (column r "White" "white") ++ [c_space])).
    { rewrite E. left. now apply digit_not_space. }
    destruct (truthy (column r "Black" "black")); [|exact X].
    apply Exists_app. now left.
  - inversion H as [? ? Hr | ? ? Hr]; subst; [congruence|].
    destruct (truthy (column r "Black" "black")); cbn [negb andb].
    + rewrite csv_rows_app. apply Exists_app. right. now apply IH.
    + now apply IH.
Qed.

(** Rows that have neither a White nor a Black cell are passed over:
    they change neither the notation nor the numbering, and a table made
    of such rows only is refused.  A row with a White cell is enough for
    the table to be accepted. *)
Theorem parseCSV_rows_blank_rows data :
  parseCSV_rows (List.filter has_cell data) = parseCSV_rows data /\
  (Forall (fun r => has_cell r = false) data ->
   parseCSV_rows data = failure (str "No valid chess moves found in CSV")) /\
  (Exists (fun r => truthy (column r "White" "white") = true) data ->
   success (parseCSV_rows data) = true).
Proof.
  split; [|split].
  - unfold parseCSV_rows. now rewrite csv_rows_filter.
  - intros H. unfold parseCSV_rows.
    assert (E : forall pgn n, csv_rows data pgn n = (pgn, n)).
    { induction H as [|r data Hr _ IH]; intros pgn n; [reflexivity|].
      cbn [csv_rows]. cbv zeta. unfold has_cell in Hr.
      apply orb_false_elim in Hr as [-> ->]. apply IH. }
    now rewrite E.
  - intros H. unfold parseCSV_rows.
    pose proof (csv_rows_white data 1 H) as X. apply trim_Exists in X.
    destruct (csv_rows data [] 1) as [pgn n]. simpl in X.
    destruct (trim pgn) as [|c t]; [congruence|reflexivity].
Qed.

Lemma parseCSV_rows_blank_rows_witness :
  parseCSV_rows (List.filter has_cell [∅; cells "e4" ""; ∅])
  = parseCSV_rows [∅; cells "e4" ""; ∅] /\
  (Forall (fun r => has_cell r = false) [∅; cells "" ""] ->
   parseCSV_rows [∅; cells "" ""]
   = failure (str "No valid chess moves found in CSV")) /\
  (Exists (fun r => truthy (column r "White" "white") = true)
     [∅; cells "e4" ""; ∅] ->
   success (parseCSV_rows [∅; cells "e4" ""; ∅]) = true).
Proof.
  split; [|split].
  - exact (proj1 (parseCSV_rows_blank_rows [∅; cells "e4" ""; ∅])).
  - exact (proj1 (proj2 (parseCSV_rows_blank_rows [∅; cells "" ""]))).
  - exact (proj2 (proj2 (parseCSV_rows_blank_rows [∅; cells "e4" ""; ∅]))).
Defined.

(** ** The two renderers of a move list *)

Lemma trimEnd_fragment_clean n w :
  truthy w = true -> last_ok w ->
  trimEnd_fragment n w = show_nat n ++ str ". " ++ w.
Proof.
  intros Ht Hl. unfold trimEnd_fragment. apply trimEnd_last_ok.
  rewrite app_assoc. apply last_ok_app; [|exact Hl].
  now apply truthy_nonempty.
Qed.

Lemma reconstruct_segments : forall acc,
  Forall (fun t => truthy t = true /\ last_ok t) acc ->
  (forall n, acc <> [] ->
     history_segments n acc <> [] /\
     reconstruct n acc = join [c_space] (history_segments n acc) ++ [c_space]) /\
  (forall n w, truthy w = true -> last_ok w ->
     history_segments n (w :: acc) <> [] /\
     reconstruct n (w :: acc)
     = join [c_space] (history_segments n (w :: acc)) ++ [c_space]).
Proof.
  induction acc as [|b rest IH]; intros H.
  - split; [intros n Hn; congruence|]. intros n w Hw Hl. cbn [history_segments reconstruct].
    rewrite Hw. cbn [negb join]. split; [discriminate|].
    rewrite trimEnd_fragment_clean by assumption. now rewrite <- !app_assoc.
  - inversion H as [|? ? [Hb Hbl] Hrest]; subst.
    destruct (IH Hrest) as [IH1 IH2].
    split.
    + intros n _. now apply IH2.
    + intros n w Hw Hl. cbn [history_segments reconstruct].
      rewrite Hw, Hb. cbn [negb andb]. split; [discriminate|].
      rewrite trimEnd_fragment_clean by assumption.
      destruct rest as [|w' rest'].
      * cbn [history_segments reconstruct join]. rewrite app_nil_r.
        now rewrite <- !app_assoc.
      * destruct (IH1 (S n)) as [Hne ->]; [discriminate|].
        destruct (history_segments (S n) (w' :: rest')) as [|x t] eqn:E;
          [congruence|].
        cbn [join]. rewrite <- !app_assoc. reflexivity.
Qed.

Lemma trim_reconstruct acc :
  Forall (fun t => truthy t = true /\ last_ok t) acc ->
  trim (reconstruct 1 acc) = formatHistoryAsPgn acc.
Proof.
  intros H. destruct acc as [|w rest]; [reflexivity|].
  destruct (reconstruct_segments _ H) as [H1 _].
  destruct (H1 1%nat) as [_ ->]; [discriminate|].
  unfold formatHistoryAsPgn. now apply trim_snoc_space.
Qed.

(** On moves that are not empty and do not end with white space, the
    renderer of the replayed prefix and the renderer of a loaded game
    write the same notation. *)
Theorem reconstruct_agrees_with_formatHistoryAsPgn acc :
  Forall (fun t => truthy t = true /\ last_ok t) acc ->
  trim (reconstruct 1 acc) = formatHistoryAsPgn acc.
Proof. apply trim_reconstruct. Qed.

Lemma reconstruct_agrees_with_formatHistoryAsPgn_witness :
  trim (reconstruct 1 (List.map str ["e4"; "e5"; "Nf3"]%string))
  = formatHistoryAsPgn (List.map str ["e4"; "e5"; "Nf3"]%string).
Proof.
  apply reconstruct_agrees_with_formatHistoryAsPgn.
  repeat (apply List.Forall_cons;
          [split; [reflexivity | intros c [= <-]; reflexivity]|]).
  apply List.Forall_nil.
Defined.

(** ** Move list of the board view *)

Lemma getMoveHistory_from_spec : forall l n,
  (forall x,
     length (ChessUtils.getMoveHistory_from n (x :: l)) = ceil_half (S (length l)) /\
     List.concat (List.map ChessUtils.plies (ChessUtils.getMoveHistory_from n (x :: l)))
     = x :: l /\
     forall k item,
       ChessUtils.getMoveHistory_from n (x :: l) !! k = Some item ->
       ChessUtils.moveNumber item = (n + k)%nat /\
       ChessUtils.white item = (x :: l) !! (2 * k)%nat /\
       ChessUtils.black item = (x :: l) !! (2 * k + 1)%nat /\
       is_Some (ChessUtils.white item)) /\
  (length (ChessUtils.getMoveHistory_from n l) = ceil_half (length l) /\
   List.concat (List.map ChessUtils.plies (ChessUtils.getMoveHistory_from n l)) = l /\
   forall k item,
     ChessUtils.getMoveHistory_from n l !! k = Some item ->
     ChessUtils.moveNumber item = (n + k)%nat /\
     ChessUtils.white item = l !! (2 * k)%nat /\
     ChessUtils.black item = l !! (2 * k + 1)%nat /\
     is_Some (ChessUtils.white item)).
Proof.
  induction l as [|y l IH]; intros n.
  - split; [intros x|]; cbn [ChessUtils.getMoveHistory_from].
    + split; [reflexivity|]. split; [reflexivity|].
      intros [|k] item; [|discriminate]. intros [= <-]. simpl.
      rewrite Nat.add_0_r. repeat split. eauto.
    + split; [reflexivity|]. split; [reflexivity|].
      intros k item; discriminate.
  - split; [|apply IH].
    intros x. cbn [ChessUtils.getMoveHistory_from].
    destruct (IH (S n)) as [_ (Hlen & Hcat & Hk)].
    split; [|split].
    + cbn [length]. rewrite Hlen. reflexivity.
    + cbn [List.map List.concat]. rewrite Hcat. reflexivity.
    + intros [|k] item H.
      * injection H as <-. simpl. rewrite Nat.add_0_r. repeat split. eauto.
      * apply Hk in H as (-> & -> & -> & Hs).
        replace (2 * S k)%nat with (S (S (2 * k))) by lia.
        replace (S (S (2 * k)) + 1)%nat with (S (S (2 * k + 1))) by lia.
        repeat split; [lia | exact Hs].
Qed.

(** [getMoveHistory] lays the plies out two to a row: there are
    [ceil(n / 2)] rows, row [k] (from 0) is numbered [k + 1] and holds the
    plies [2k] and [2k + 1], its white ply is never missing, and reading
    the rows in order gives the plies back. *)
Theorem getMoveHistory_rows playedMoves :
  length (ChessUtils.getMoveHistory playedMoves) = ceil_half (length playedMoves) /\
  List.concat (List.map ChessUtils.plies (ChessUtils.getMoveHistory playedMoves))
  = playedMoves /\
  forall k item,
    ChessUtils.getMoveHistory playedMoves !! k = Some item ->
    ChessUtils.moveNumber item = S k /\
    ChessUtils.white item = playedMoves !! (2 * k)%nat /\
    ChessUtils.black item = playedMoves !! (2 * k + 1)%nat /\
    is_Some (ChessUtils.white item).
Proof. exact (proj2 (getMoveHistory_from_spec playedMoves 1)). Qed.

Lemma getMoveHistory_rows_witness :
  ChessUtils.getMoveHistory
    [ {| ChessUtils.san := str "e4"; ChessUtils.isCustom := false |};
      {| ChessUtils.san := str "e5"; ChessUtils.isCustom := false |};
      {| ChessUtils.san := str "Nf3"; ChessUtils.isCustom := true |} ]
    !! 1%nat
  = Some {| ChessUtils.moveNumber := 2;
            ChessUtils.white :=
              Some {| ChessUtils.san := str "Nf3"; ChessUtils.isCustom := true |};
            ChessUtils.black := None |} /\
  2%nat = 2%nat /\
  Some {| ChessUtils.san := str "Nf3"; ChessUtils.isCustom := true |}
  = [ {| ChessUtils.san := str "e4"; ChessUtils.isCustom := false |};
      {| ChessUtils.san := str "e5"; ChessUtils.isCustom := false |};
      {| ChessUtils.san := str "Nf3"; ChessUtils.isCustom := true |} ]
    !! (2 * 1)%nat /\
  None
  = [ {| ChessUtils.san := str "e4"; ChessUtils.isCustom := false |};
      {| ChessUtils.san := str "e5"; ChessUtils.isCustom := false |};
      {| ChessUtils.san := str "Nf3"; ChessUtils.isCustom := true |} ]
    !! (2 * 1 + 1)%nat /\
  is_Some (Some {| ChessUtils.san := str "Nf3"; ChessUtils.isCustom := true |}).
Proof.
  split; [reflexivity|].
  exact (proj2 (proj2 (getMoveHistory_rows
           [ {| ChessUtils.san := str "e4"; ChessUtils.isCustom := false |};
             {| ChessUtils.san := str "e5"; ChessUtils.isCustom := false |};
             {| ChessUtils.san := str "Nf3"; ChessUtils.isCustom := true |} ]))
         1%nat
         {| ChessUtils.moveNumber := 2;
            ChessUtils.white :=
              Some {| ChessUtils.san := str "Nf3"; ChessUtils.isCustom := true |};
            ChessUtils.black := None |}
         eq_refl).
Defined.
(** ** What a group records *)

Lemma Matches_Grp_inv r pre s post :
  Matches (Grp r) pre s post -> Matches r pre s post.
Proof. intros H. now inversion H. Qed.

Lemma Matches_Star_Cls p r pre s post :
  Matches r pre s post -> r = Star (Cls p) ->
  Forall (fun c => p c = true) s.
Proof.
  induction 1 as [| | | | | |r pre s1 s2 post Hne H1 _ H2 IH2| | | |];
    intros E; try discriminate.
  - constructor.
  - injection E as ->. apply Matches_Cls_inv in H1 as (c & -> & Hc).
    constructor; [exact Hc | now apply IH2].
Qed.

Lemma Matches_Plus_Cls p pre s post :
  Matches (Plus (Cls p)) pre s post ->
  s <> [] /\ Forall (fun c => p c = true) s.
Proof.
  unfold Plus. intros H. apply Matches_Seq_inv in H as (s1 & s2 & -> & H1 & H2).
  apply Matches_Cls_inv in H1 as (c & -> & Hc).
  split; [discriminate|]. constructor; [exact Hc|].
  now apply (Matches_Star_Cls p _ _ _ _ H2).
Qed.

Lemma Matches_Star_Cls_intro (p : char -> bool) s :
  Forall (fun c => p c = true) s ->
  forall pre post, Matches (Star (Cls p)) pre s post.
Proof.
  induction 1 as [|c s Hc _ IH]; intros pre post; [constructor|].
  change (c :: s) with ([c] ++ s).
  apply M_StarS; [discriminate | now constructor | apply IH].
Qed.


Lemma factor_refl c : factor c c.
Proof. exists [], []. now rewrite app_nil_r. Qed.

Lemma factor_app_l c s t : factor c s -> factor c (s ++ t).
Proof. intros (a & b & ->). exists a, (b ++ t). now rewrite <- !app_assoc. Qed.

Lemma factor_app_r c s t : factor c t -> factor c (s ++ t).
Proof. intros (a & b & ->). exists (s ++ a), b. now rewrite <- !app_assoc. Qed.

Lemma factor_Forall (Q : char -> Prop) c s :
  factor c s -> Forall Q s -> Forall Q c.
Proof.
  intros (a & b & ->) H. apply Forall_app in H as [_ H].
  now apply Forall_app in H as [H _].
Qed.

Section CaptureTheory.
Context {A : Type}.
Variable P : jsstring -> Prop.
Implicit Types (k : @cont A) (r : regex).

Lemma recorded_trans cap cap' cap'' s1 t1 :
  recorded P cap cap' s1 -> recorded P cap' cap'' t1 ->
  recorded P cap cap'' (s1 ++ t1).
Proof.
  intros H1 [->|(c & -> & Hc & Hf)].
  - destruct H1 as [->|(c & -> & Hc & Hf)]; [now left|].
    right. exists c. auto using factor_app_l.
  - right. exists c. auto using factor_app_r.
Qed.

Lemma star_loop_capture r
  (IH : forall pre s cap k v, m r pre s cap k = Some v ->
        exists s1 s2 cap', s = s1 ++ s2 /\
                           k (rev s1 ++ pre) s2 cap' = Some v /\
                           recorded P cap cap' s1) :
  forall n pre s cap k v,
    star_loop (m r) k n pre s cap = Some v ->
    exists s1 s2 cap', s = s1 ++ s2 /\
                       k (rev s1 ++ pre) s2 cap' = Some v /\
                       recorded P cap cap' s1.
Proof.
  induction n as [|n IHn]; intros pre s cap k v H; simpl in H.
  - exists [], s, cap. repeat split; [exact H | now left].
  - destruct (m r pre s cap _) as [v'|] eqn:E.
    + injection H as ->.
      apply IH in E as (s1 & s2 & cap' & -> & Hk & Hr).
      destruct (length s2 <? length (s1 ++ s2))%nat; [|discriminate].
      apply IHn in Hk as (t1 & t2 & cap'' & -> & Hk & Hr').
      exists (s1 ++ t1), t2, cap''. split; [now rewrite <- app_assoc|].
      split; [rewrite rev_app_distr, <- app_assoc; exact Hk|].
      eapply recorded_trans; eassumption.
    + exists [], s, cap. repeat split; [exact H | now left].
Qed.

Lemma m_capture r : groups_in P r ->
  forall pre s cap k v,
    m r pre s cap k = Some v ->
    exists s1 s2 cap', s = s1 ++ s2 /\
                       k (rev s1 ++ pre) s2 cap' = Some v /\
                       recorded P cap cap' s1.
Proof.
  induction r as [|p|r1 IH1 r2 IH2|r1 IH1 r2 IH2|r1 IH1|r1 IH1| | |];
    intros G pre s cap k v H; simpl in H, G.
  - exists [], s, cap. repeat split; [exact H | now left].
  - destruct s as [|c t]; [discriminate|].
    destruct (p c); [|discriminate].
    exists [c], t, cap. repeat split; [exact H | now left].
  - destruct G as [G1 G2].
    apply (IH1 G1) in H as (s1 & s2 & cap' & -> & H & Hr).
    apply (IH2 G2) in H as (t1 & t2 & cap'' & -> & H & Hr').
    exists (s1 ++ t1), t2, cap''. split; [now rewrite <- app_assoc|].
    split; [rewrite rev_app_distr, <- app_assoc; exact H|].
    eapply recorded_trans; eassumption.
  - destruct G as [G1 G2]. destruct (m r1 pre s cap k) as [v'|] eqn:E.
    + injection H as ->. now apply (IH1 G1) in E.
    + now apply (IH2 G2) in H.
  - eapply star_loop_capture; eauto.
  - apply m_sound in H as (s1 & s2 & cap' & -> & HM & Hk).
    cbv beta in Hk. rewrite length_app, Nat.add_sub, take_app_length in Hk.
    exists s1, s2, (Some s1). repeat split; [exact Hk|].
    right. exists s1. repeat split; [eapply G; exact HM | apply factor_refl].
  - destruct (word_boundary pre s); [|discriminate].
    exists [], s, cap. repeat split; [exact H | now left].
  - destruct pre; [|discriminate].
    exists [], s, cap. repeat split; [exact H | now left].
  - destruct s; [|discriminate].
    exists [], [], cap. repeat split; [exact H | now left].
Qed.
End CaptureTheory.

(** The text that [exec] reports for the group has the property of the
    group, and stands in the input. *)
Lemma exec_capture (P : jsstring -> Prop) r pre s n c :
  groups_in P r -> exec r pre s = Some (n, Some c) -> P c /\ factor c s.
Proof.
  intros G H. unfold exec in H.
  apply (m_capture P r G) in H as (s1 & s2 & cap' & -> & Hk & Hr).
  injection Hk as _ ->.
  destruct Hr as [?|(c' & [= <-] & Hc & Hf)]; [discriminate|].
  split; [exact Hc | now apply factor_app_l].
Qed.

(** ** Group marks do not change the match *)

Section EraseTheory.
Context {A B C : Type}.
Variables (f : A -> C) (f' : B -> C).

Lemma star_loop_erase r r'
  (IH : forall pre s cap cap' (k : @cont A) (k' : @cont B),
        (forall p t c c', same_answer f f' (k p t c) (k' p t c')) ->
        same_answer f f' (m r pre s cap k) (m r' pre s cap' k')) :
  forall n pre s cap cap' (k : @cont A) (k' : @cont B),
    (forall p t c c', same_answer f f' (k p t c) (k' p t c')) ->
    same_answer f f' (star_loop (m r) k n pre s cap)
                (star_loop (m r') k' n pre s cap').
Proof.
  induction n as [|n IHn]; intros pre s cap cap' k k' Hk; simpl; [apply Hk|].
  match goal with
  | |- same_answer f f' (match ?a with _ => _ end) (match ?b with _ => _ end) =>
      assert (E : same_answer f f' a b)
  end.
  { apply IH. intros p t c c'.
    destruct (length t <? length s)%nat; [now apply IHn | reflexivity]. }
  unfold same_answer in *.
  destruct (m r pre s cap _), (m r' pre s cap' _); try discriminate;
    [exact E | apply Hk].
Qed.

Lemma m_erase r :
  forall pre s cap cap' (k : @cont A) (k' : @cont B),
    (forall p t c c', same_answer f f' (k p t c) (k' p t c')) ->
    same_answer f f' (m r pre s cap k) (m (erase r) pre s cap' k').
Proof.
  induction r as [|p|r1 IH1 r2 IH2|r1 IH1 r2 IH2|r1 IH1|r1 IH1| | |];
    intros pre s cap cap' k k' Hk; cbn [m erase].
  - apply Hk.
  - destruct s as [|c t]; [reflexivity|]. destruct (p c); [apply Hk|reflexivity].
  - apply IH1. intros p t c c'. now apply IH2.
  - pose proof (IH1 pre s cap cap' k k' Hk) as E.
    unfold same_answer in *.
    destruct (m r1 pre s cap k), (m (erase r1) pre s cap' k'); try discriminate;
      [exact E | now apply IH2].
  - apply star_loop_erase; [exact IH1 | exact Hk].
  - apply IH1. intros p t c c'. apply Hk.
  - destruct (word_boundary pre s); [apply Hk | reflexivity].
  - destruct pre; [apply Hk | reflexivity].
  - destruct s; [apply Hk | reflexivity].
Qed.
End EraseTheory.

Lemma exec_erase r pre s :
  option_map fst (exec r pre s) = option_map fst (exec (erase r) pre s).
Proof. unfold exec. apply (m_erase fst fst). reflexivity. Qed.

Lemma erase_sequentialPattern g :
  erase (sequentialPattern g) = sequentialPattern 0.
Proof.
  unfold sequentialPattern, group. cbn [seqs].
  destruct (g =? 1)%nat, (g =? 2)%nat, (g =? 3)%nat; reflexivity.
Qed.

(** The three readings of the pattern find the same match. *)
Lemma sequentialPattern_same_match g g' pre s :
  option_map fst (exec (sequentialPattern g) pre s)
  = option_map fst (exec (sequentialPattern g') pre s).
Proof. now rewrite exec_erase, (exec_erase (sequentialPattern g')), !erase_sequentialPattern. Qed.

(** A match holds a digit, a full stop and a third character at
    least. *)
Lemma sequentialPattern_match_length g pre s n cap :
  exec (sequentialPattern g) pre s = Some (n, cap) -> (3 <= n)%nat.
Proof.
  intros H.
  assert (E : option_map fst (exec (sequentialPattern 0) pre s) = Some n).
  { rewrite <- (sequentialPattern_same_match g), H. reflexivity. }
  destruct (exec (sequentialPattern 0) pre s) as [[n' cap']|] eqn:E0;
    [|discriminate].
  injection E as ->. apply exec_sound in E0 as (s1 & s2 & -> & -> & HM).
  unfold sequentialPattern, group in HM. cbn [seqs Nat.eqb] in HM.
  unfold Chr, not_space_digit in HM.
  apply Matches_Seq_inv in HM as (a & b & -> & Ha & HM).
  apply Matches_Plus_Cls in Ha as [Ha _].
  apply Matches_Seq_inv in HM as (d & b' & -> & Hd & HM).
  apply Matches_Cls_inv in Hd as (x & -> & _).
  apply Matches_Seq_inv in HM as (w & b'' & -> & _ & HM).
  apply Matches_Seq_inv in HM as (t & b3 & -> & Ht & _).
  apply Matches_Plus_Cls in Ht as [Ht _].
  destruct a; [congruence|]. destruct t; [congruence|].
  rewrite !length_app. cbn [length]. lia.
Qed.

(** ** The scan for numbered moves *)

Lemma groups_sequentialPattern g :
  (g = 2 \/ g = 3)%nat -> groups_in no_space_digit (sequentialPattern g).
Proof.
  intros [-> | ->]; unfold sequentialPattern, group; cbn [seqs Nat.eqb groups_in];
    repeat split; intros pre s post H; now apply Matches_Plus_Cls in H.
Qed.

Lemma no_space_digit_digit_free w :
  no_space_digit w -> Forall (fun c => is_digit c = false) w.
Proof.
  intros H. eapply Forall_impl; [exact H|]. intros c Hc. simpl in Hc.
  apply negb_true_iff, orb_false_elim in Hc. tauto.
Qed.

(** A token that the pattern records and [isValidMove] accepts. *)
Lemma recorded_token_castling g pre s n w :
  (g = 2 \/ g = 3)%nat ->
  exec (sequentialPattern g) pre s = Some (n, Some w) ->
  isValidMove w = true ->
  castling_token (cleanMove w) /\ factor w s.
Proof.
  intros Hg H Hv.
  apply (exec_capture no_space_digit _ _ _ _ _ (groups_sequentialPattern g Hg))
    in H as [Hw Hf].
  split; [|exact Hf]. exists w. split; [reflexivity|].
  apply no_space_digit_digit_free in Hw. split; [exact Hw|].
  now apply isValidMove_digit_free.
Qed.

Lemma array_get_Forall (Q : Entry -> Prop) moves i e :
  Forall (fun item => Q (snd item)) moves ->
  array_get moves i = Some e -> Q e.
Proof.
  induction 1 as [|[j x] moves Hx _ IH]; simpl; [discriminate|].
  destruct (j =? i)%nat; [now intros [= <-] | exact IH].
Qed.

Lemma array_set_Forall (Q : Entry -> Prop) moves i e :
  Q e -> Forall (fun item => Q (snd item)) moves ->
  Forall (fun item => Q (snd item)) (array_set moves i e).
Proof.
  intros He. induction 1 as [|[j x] moves Hx Hm IH]; simpl.
  - now repeat constructor.
  - destruct (i <? j)%nat; [now repeat constructor|].
    destruct (i =? j)%nat; now constructor.
Qed.

Lemma record_match_castling pre s n m1 m2 m3 moves :
  exec_sequential pre s = Some (n, m1, m2, m3) ->
  Forall (fun item => castling_only (snd item)) moves ->
  Forall (fun item => castling_only (snd item)) (record_match m1 m2 m3 moves).
Proof.
  unfold exec_sequential. intros H Hm.
  destruct (exec (sequentialPattern 1) pre s) as [[n1 c1]|]; [|discriminate].
  destruct (exec (sequentialPattern 2) pre s) as [[n2 c2]|] eqn:E2; [|discriminate].
  destruct (exec (sequentialPattern 3) pre s) as [[n3 c3]|] eqn:E3; [|discriminate].
  injection H as -> -> -> ->.
  unfold record_match.
  destruct (isValidMove (default [] m2)) eqn:Hv; [|exact Hm].
  destruct (is_index _); [|exact Hm].
  apply array_set_Forall; [|exact Hm].
  destruct m2 as [w|]; [|discriminate Hv]. simpl in Hv.
  split; cbn [white black].
  - intros x [= <-]. simpl.
    now apply (recorded_token_castling 2 pre s n2 w (or_introl eq_refl) E2).
  - intros b.
    destruct (truthy_opt m3 && isValidMove (default [] m3)) eqn:Hb.
    + intros [= <-]. apply andb_prop in Hb as [_ Hb].
      destruct m3 as [b|]; [|discriminate Hb]. simpl in *.
      now apply (recorded_token_castling 3 pre s n3 b (or_intror eq_refl) E3).
    + destruct (array_get moves _) as [old|] eqn:Eo; [|discriminate].
      simpl. intros Hb'.
      apply (array_get_Forall castling_only _ _ _ Hm) in Eo. now apply Eo.
Qed.

Lemma scan_sequential_castling : forall s pre skip moves,
  Forall (fun item => castling_only (snd item)) moves ->
  Forall (fun item => castling_only (snd item)) (scan_sequential pre s skip moves).
Proof.
  induction s as [|c s IH]; intros pre skip moves Hm.
  - destruct skip; cbn [scan_sequential]; [|exact Hm].
    destruct (exec_sequential pre []) as [[[[n m1] m2] m3]|] eqn:E; [|exact Hm].
    eapply record_match_castling; eassumption.
  - destruct skip; cbn [scan_sequential]; [|now apply IH].
    destruct (exec_sequential pre (c :: s)) as [[[[n m1] m2] m3]|] eqn:E;
      [|now apply IH].
    apply IH. eapply record_match_castling; eassumption.
Qed.

(** The scan for numbered moves keeps castling moves only, whatever the
    text: the tokens it reads hold no digit, and the only such tokens
    that [isValidMove] accepts are castling spellings.  A move such as
    [e4] after a move number is never stored. *)
Theorem scan_sequential_castling_only s :
  Forall (fun item => castling_only (snd item)) (scan_sequential [] s O []).
Proof. apply scan_sequential_castling. constructor. Qed.

(** ** Texts without a castling move *)

Lemma dashes_zero_Forall s :
  dashes s = 0%nat <-> Forall (fun c => (c_dash =? c) = false) s.
Proof.
  induction s as [|c s IH]; [split; [constructor|reflexivity]|].
  rewrite dashes_cons. destruct (c_dash =? c) eqn:E; split.
  - simpl. discriminate.
  - intros H. inversion H; congruence.
  - intros H. constructor; [exact E|]. apply IH. simpl in H. lia.
  - intros H. inversion H; subst. simpl. now apply IH.
Qed.

Lemma digit_free_no_zeros s :
  Forall (fun c => is_digit c = false) s -> test (Lit (str "00")) s = false.
Proof.
  intros H. apply zero_free_no_match; [apply starts_with_Lit|].
  eapply Forall_impl; [exact H|]. intros c Hc. simpl in Hc.
  destruct (N.eqb_spec c_zero c) as [<-|]; [discriminate|reflexivity].
Qed.

Lemma castling_shape_dash u : castling_shape u -> (1 <= dashes u)%nat.
Proof.
  intros [(a & b & -> & _) | (a & b & c & -> & _)];
    rewrite !dashes_cons, N.eqb_refl; lia.
Qed.

(** A token without hyphen and without digit is refused. *)
Lemma isValidMove_no_dash w :
  Forall (fun c => (c_dash =? c) = false) w ->
  Forall (fun c => is_digit c = false) w ->
  isValidMove w = false.
Proof.
  intros Hd Hn. destruct (isValidMove w) eqn:E; [|reflexivity].
  pose proof (isValidMove_digit_free w Hn E) as Hc.
  apply castling_shape_dash in Hc. unfold normalized_token in Hc.
  set (x := trim (List.filter (fun c => negb (is_mark c)) w)) in *.
  assert (Hx : forall Q : char -> Prop, Forall Q w -> Forall Q x).
  { intros Q HQ. apply Forall_trim. rewrite List.Forall_forall in *.
    intros c Hin. apply List.filter_In in Hin as [Hin _]. auto. }
  rewrite normalizeCastling_no_match in Hc.
  - apply Hx, dashes_zero_Forall in Hd. lia.
  - now apply dashes_zero_Forall, Hx.
  - now apply digit_free_no_zeros, Hx.
Qed.

Lemma record_match_no_dash pre s n m1 m2 m3 :
  Forall (fun c => (c_dash =? c) = false) s ->
  exec_sequential pre s = Some (n, m1, m2, m3) ->
  record_match m1 m2 m3 [] = [].
Proof.
  unfold exec_sequential. intros Hs H.
  destruct (exec (sequentialPattern 1) pre s) as [[n1 c1]|]; [|discriminate].
  destruct (exec (sequentialPattern 2) pre s) as [[n2 c2]|] eqn:E2; [|discriminate].
  destruct (exec (sequentialPattern 3) pre s) as [[n3 c3]|]; [|discriminate].
  injection H as -> -> -> ->. unfold record_match.
  destruct m2 as [w|]; [|reflexivity]. simpl.
  apply (exec_capture no_space_digit _ _ _ _ _
           (groups_sequentialPattern 2 (or_introl eq_refl))) in E2 as [Hw Hf].
  rewrite isValidMove_no_dash; [reflexivity | |].
  - eapply factor_Forall; eassumption.
  - now apply no_space_digit_digit_free.
Qed.

Lemma scan_sequential_no_dash : forall s pre skip,
  Forall (fun c => (c_dash =? c) = false) s ->
  scan_sequential pre s skip [] = [].
Proof.
  induction s as [|c s IH]; intros pre skip Hs.
  - destruct skip; cbn [scan_sequential]; [|reflexivity].
    destruct (exec_sequential pre []) as [[[[n m1] m2] m3]|] eqn:E; [|reflexivity].
    eapply record_match_no_dash; eassumption.
  - assert (Hs' : Forall (fun c => (c_dash =? c) = false) s) by now inversion Hs.
    destruct skip; cbn [scan_sequential]; [|now apply IH].
    destruct (exec_sequential pre (c :: s)) as [[[[n m1] m2] m3]|] eqn:E;
      [|now apply IH].
    rewrite (record_match_no_dash _ _ _ _ _ _ Hs E). now apply IH.
Qed.

Lemma extractChessMoves_loose text :
  dashes text = 0%nat -> test (Lit (str "00")) text = false ->
  extractChessMoves text =
  let allMoves :=
    match_all singleMovePattern (trim (replace_all re_spaces blank text)) in
  if (2 <=? length allMoves)%nat then trim (pair_moves allMoves [] 1) else [].
Proof.
  intros Hd Hz. unfold extractChessMoves.
  rewrite normalizeCastling_no_match by assumption.
  rewrite scan_sequential_no_dash; [reflexivity|].
  apply Forall_trim. apply (replace_go_Forall _ _ _ (expand_lit [c_space]));
    [now repeat constructor|]. now apply dashes_zero_Forall.
Qed.

(** On a text with no hyphen and no two zeros in a row the scan for
    numbered moves stores nothing: the result is built from the loose
    scan alone, which numbers the moves it finds from 1 whatever numbers
    the text has, and a text of white space gives the empty text. *)
Theorem extractChessMoves_without_hyphen text :
  dashes text = 0%nat -> test (Lit (str "00")) text = false ->
  extractChessMoves text =
  (let allMoves :=
     match_all singleMovePattern (trim (replace_all re_spaces blank text)) in
   if (2 <=? length allMoves)%nat then trim (pair_moves allMoves [] 1) else []) /\
  (spaces text -> extractChessMoves text = []).
Proof.
  intros Hd Hz. split; [now apply extractChessMoves_loose|].
  intros Hs. rewrite extractChessMoves_loose by assumption. cbv zeta.
  rewrite trim_all_space; [reflexivity|].
  apply (replace_go_Forall _ _ _ (expand_lit [c_space]));
    [now repeat constructor | exact Hs].
Qed.

Lemma extractChessMoves_without_hyphen_witness :
  extractChessMoves (str "7. e4 e5 8. Nf3") = str "1. e4 e5 2. Nf3" /\
  (spaces [c_space; c_lf] -> extractChessMoves [c_space; c_lf] = []).
Proof.
  split.
  - rewrite (proj1 (extractChessMoves_without_hyphen (str "7. e4 e5 8. Nf3")
                      eq_refl eq_refl)).
    reflexivity.
  - exact (proj2 (extractChessMoves_without_hyphen [c_space; c_lf]
                    eq_refl eq_refl)).
Defined.

(** The same text with a castling move: the scan for numbered moves
    finds it, and the other moves are lost. *)
Example extractChessMoves_castling_alone :
  extractChessMoves (str "1. e4 e5 2. Nf3 Nc6 3. Bc4 Bc5 4. O-O Nf6")
  = str "4. O-O".
Proof. reflexivity. Qed.
(** ** Shape of the extracted text *)











(** ** Recognized text of an image *)

Section ImageTheory.
Variable O : Oracle.
Implicit Types (h : store O).

End ImageTheory.
(** ** Reply of the second recognizer *)

Section ReplyTheory.
Variable O : Oracle.
Implicit Types (h : store O).

(** The three ways in which the reply is answered. *)
Lemma parseImageWithGemini_reply_cases extractedMoves total h r h' :
  parseImageWithGemini_reply O extractedMoves total h = (Ret r, h') ->
  (exists msg, r = image_failure msg /\ truthy msg = true) \/
  (exists v p,
     valid v = false /\ partialPgn v = Some p /\ truthy p = true /\
     (0 < moveCount v)%nat /\
     r = {| base := {| success := true; pgn := Some p; error := None;
                       movesFound := Some (moveCount v);
                       isPartial := Some true |};
            totalMovesInImage := if (0 <? total)%nat then Some total else None;
            imageQualityWarning :=
              if (0 <? total)%nat && (moveCount v <? total)%nat
              then Some (warning_text (moveCount v) total
                           " moves could be extracted from"
                           "Consider re-uploading a clearer image for complete game analysis.")
              else None |}) \/
  (exists c,
     truthy c = true /\ (5 <= length c)%nat /\
     loads O (stripPgnMetadata (normalizeCastling c)) = true /\
     r = {| base := {| success := true; pgn := Some c; error := None;
                       movesFound := Some (length (match_all re_number_dot c));
                       isPartial :=
                         Some (length (match_all re_number_dot c) <? total)%nat |};
            totalMovesInImage := if (0 <? total)%nat then Some total else None;
            imageQualityWarning :=
              if (0 <? total)%nat
                 && (length (match_all re_number_dot c) <? total)%nat
              then Some (warning_text (length (match_all re_number_dot c)) total
                           " moves were extracted from"
                           "Consider uploading a clearer image for complete game analysis.")
              else None |}).
Proof.
  unfold parseImageWithGemini_reply.
  destruct (str_eqb extractedMoves (str "NO_NOTATION_FOUND")
            || (length extractedMoves <? 5)%nat).
  { intros [= <- _]. left. eexists. split; reflexivity. }
  cbv zeta.
  set (c := if negb (test re_first_move _) then _ else _).
  destruct (negb (truthy c) || (length c <? 5)%nat) eqn:Ec.
  { intros [= <- _]. left. eexists. split; reflexivity. }
  apply orb_false_elim in Ec as [Et El].
  apply negb_false_iff in Et. apply Nat.ltb_ge in El.
  unfold bind.
  destruct (validatePgnWithDetails O c h) as [[v|] h2] eqn:Ev; [|discriminate].
  destruct (valid v) eqn:Hv; cbn [negb].
  - intros [= <- _]. right. right. exists c.
    pose proof (validatePgnWithDetails_valid O _ _ _ _ Ev Hv) as [_ Hl].
    repeat split; assumption.
  - destruct (truthy_opt (partialPgn v) && (0 <? moveCount v)%nat) eqn:Hb.
    + intros [= <- _]. right. left.
      apply andb_prop in Hb as [Hp Hc]. apply Nat.ltb_lt in Hc.
      destruct (partialPgn v) as [p|] eqn:Ep; [|discriminate].
      exists v, p. repeat split; try assumption.
    + intros [= <- _]. left. eexists. split; reflexivity.
Qed.

(** A success of the second recognizer carries a warning exactly when
    the reply announced a positive number of moves and fewer were found;
    a result with a warning is marked partial; the announced number is
    kept exactly when it is positive. *)
Theorem parseImageWithGemini_reply_warning extractedMoves total h r h' :
  parseImageWithGemini_reply O extractedMoves total h = (Ret r, h') ->
  success (base r) = true ->
  exists n,
    movesFound (base r) = Some n /\
    (is_Some (imageQualityWarning r) <-> (0 < total /\ n < total)%nat) /\
    (is_Some (imageQualityWarning r) -> isPartial (base r) = Some true) /\
    (is_Some (totalMovesInImage r) <-> (0 < total)%nat) /\
    (forall t, totalMovesInImage r = Some t -> t = total).
Proof.
  intros H Hs.
  assert (X : forall (a b : bool) (w : jsstring) (P Q : Prop),
             (a = true <-> P) -> (b = true <-> Q) ->
             (is_Some (if a && b then Some w else None) <-> P /\ Q)).
  { intros a b w P Q Ha Hb. destruct a, b; simpl; split;
      try (intros [x [=]]); try (intros [HP HQ]); try tauto;
      try (apply Ha in HP; discriminate); try (apply Hb in HQ; discriminate).
    all: eauto. }
  assert (Y : is_Some (if (0 <? total)%nat then Some total else None)
              <-> (0 < total)%nat).
  { destruct (Nat.ltb_spec 0 total); split; eauto; try lia.
    intros [x [=]]. }
  assert (Z : forall t, (if (0 <? total)%nat then Some total else None) = Some t
                        -> t = total).
  { intros t. destruct (0 <? total)%nat; congruence. }
  apply parseImageWithGemini_reply_cases in H
    as [(msg & -> & _) | [(v & p & Hv & Hp & Ht & Hc & ->) | (c & Ht & Hl & Hload & ->)]];
    [discriminate Hs | |]; cbn [base movesFound isPartial imageQualityWarning
                                 totalMovesInImage].
  - exists (moveCount v). split; [reflexivity|].
    split; [apply X; apply Nat.ltb_lt|]. repeat split; try apply Y; auto.
  - exists (length (match_all re_number_dot c)). split; [reflexivity|].
    split; [apply X; apply Nat.ltb_lt|]. split; [|split; [exact Y | exact Z]].
    intros Hw. apply (X _ _ _ _ _ (Nat.ltb_lt _ _) (Nat.ltb_lt _ _)) in Hw as [_ Hw].
    apply Nat.ltb_lt in Hw. now rewrite Hw.
Qed.

(** What a result of the second recognizer stands on.  A success carries
    a non-empty notation; when it is not marked partial, the notation has
    at least five code units, the rules engine loads it (normalized and
    stripped) with at least one move, and at least as many move numbers
    were counted in it as the reply announced.  A failure carries a
    non-empty message and nothing else.  A reply of fewer than five code
    units is refused without any work on the heap. *)
Theorem parseImageWithGemini_reply_sound extractedMoves total h r h' :
  parseImageWithGemini_reply O extractedMoves total h = (Ret r, h') ->
  (success (base r) = true ->
   exists p n b,
     pgn (base r) = Some p /\ truthy p = true /\ error (base r) = None /\
     movesFound (base r) = Some n /\ isPartial (base r) = Some b /\
     (b = false ->
      (5 <= length p)%nat /\ (total <= n)%nat /\
      loads O (stripPgnMetadata (normalizeCastling p)) = true)) /\
  (success (base r) = false ->
   exists msg, r = image_failure msg /\ truthy msg = true) /\
  ((length extractedMoves < 5)%nat -> h' = h /\ success (base r) = false).
Proof.
  intros H. split; [|split].
  - intros Hs. apply parseImageWithGemini_reply_cases in H
      as [(msg & -> & _) | [(v & p & Hv & Hp & Ht & Hc & ->) | (c & Ht & Hl & Hload & ->)]];
      [discriminate Hs | |]; cbn [base pgn error movesFound isPartial].
    + exists p, (moveCount v), true. repeat split; auto; discriminate.
    + exists c, (length (match_all re_number_dot c)),
        (length (match_all re_number_dot c) <? total)%nat.
      repeat split; auto. now apply Nat.ltb_ge.
  - intros Hs. apply parseImageWithGemini_reply_cases in H
      as [(msg & -> & Hm) | [(v & p & Hv & Hp & Ht & Hc & ->) | (c & Ht & Hl & Hload & ->)]];
      [eauto | discriminate Hs | discriminate Hs].
  - intros Hl. unfold parseImageWithGemini_reply in H.
    apply Nat.ltb_lt in Hl. rewrite Hl, orb_true_r in H.
    injection H as <- <-. split; reflexivity.
Qed.
End ReplyTheory.

Lemma parseImageWithGemini_reply_warning_witness :
  exists n,
    Some 3%nat = Some n /\
    (is_Some (Some (warning_text 3 5 " moves were extracted from"
                      "Consider uploading a clearer image for complete game analysis."))
     <-> (0 < 5 /\ n < 5)%nat) /\
    (is_Some (Some (warning_text 3 5 " moves were extracted from"
                      "Consider uploading a clearer image for complete game analysis."))
     -> Some true = Some true) /\
    (is_Some (Some 5%nat) <-> (0 < 5)%nat) /\
    (forall t, Some 5%nat = Some t -> t = 5%nat).
Proof.
  destruct (parseImageWithGemini_reply LineOracle.oracle
              (str "```pgn 1. e4 e5 2. Nf3 Nc6 3. Bb5 a6```") 5 [])
    as [o h'] eqn:E.
  assert (Ho : o = Ret
    {| base := {| success := true;
                  pgn := Some (str "1. e4 e5 2. Nf3 Nc6 3. Bb5 a6");
                  error := None; movesFound := Some 3%nat;
                  isPartial := Some true |};
       totalMovesInImage := Some 5%nat;
       imageQualityWarning :=
         Some (warning_text 3 5 " moves were extracted from"
                 "Consider uploading a clearer image for complete game analysis.") |}).
  { vm_compute in E. now injection E as <- _. }
  subst o.
  exact (parseImageWithGemini_reply_warning LineOracle.oracle _ _ _ _ _ E eq_refl).
Defined.

Lemma parseImageWithGemini_reply_sound_witness :
  (true = true ->
   exists p n b,
     Some (str "1. e4 e5 2. Nf3 Nc6") = Some p /\ truthy p = true /\
     @None jsstring = None /\
     Some 2%nat = Some n /\ Some false = Some b /\
     (b = false ->
      (5 <= length p)%nat /\ (0 <= n)%nat /\
      loads LineOracle.oracle (stripPgnMetadata (normalizeCastling p)) = true)) /\
  (true = false ->
   exists msg,
     {| base := {| success := true;
                   pgn := Some (str "1. e4 e5 2. Nf3 Nc6");
                   error := None; movesFound := Some 2%nat;
                   isPartial := Some false |};
        totalMovesInImage := None;
        imageQualityWarning := None |} = image_failure msg /\
     truthy msg = true) /\
  ((length (str "## e4 e5 Nf3 Nc6 Zz9") < 5)%nat ->
   [snd (LineOracle.loadPgn LineOracle.start (str "1. e4 e5 2. Nf3 Nc6"))]
   = [] /\ true = false).
Proof.
  destruct (parseImageWithGemini_reply LineOracle.oracle
              (str "## e4 e5 Nf3 Nc6 Zz9") 0 []) as [o h'] eqn:E.
  assert (Ho : o = Ret
    {| base := {| success := true;
                  pgn := Some (str "1. e4 e5 2. Nf3 Nc6");
                  error := None; movesFound := Some 2%nat;
                  isPartial := Some false |};
       totalMovesInImage := None;
       imageQualityWarning := None |}).
  { vm_compute in E. now injection E as <- _. }
  assert (Hh : h' = [snd (LineOracle.loadPgn LineOracle.start
                            (str "1. e4 e5 2. Nf3 Nc6"))]).
  { vm_compute in E. vm_compute. now injection E as _ <-. }
  subst o h'.
  exact (parseImageWithGemini_reply_sound LineOracle.oracle _ _ _ _ _ E).
Defined.
(** ** What the metadata stripper leaves *)

Lemma replace_go_thinned r : forall s pre skip,
  thinned s (replace_go r blank pre s skip).
Proof.
  induction s as [|c s IH]; intros pre skip.
  - destruct skip; cbn [replace_go]; [|constructor].
    destruct (exec r pre []) as [[[|n] cap]|]; unfold blank;
      rewrite ?expand_lit; repeat constructor.
  - destruct skip; [|cbn [replace_go]; constructor; apply IH].
    rewrite replace_go_0.
    destruct (exec r pre (c :: s)) as [[[|n] cap]|]; unfold blank;
      rewrite ?expand_lit; repeat constructor; apply IH.
Qed.

Lemma thinned_In s out : thinned s out ->
  forall x, In x out -> x = c_space \/ In x s.
Proof.
  induction 1 as [|c s out _ IH|c s out _ IH|s out _ IH]; intros x Hx.
  - destruct Hx.
  - destruct Hx as [<-|Hx]; [right; now left|].
    destruct (IH x Hx); [now left | right; now right].
  - destruct (IH x Hx); [now left | right; now right].
  - destruct Hx as [<-|Hx]; [now left | now apply IH].
Qed.

Lemma thinned_absent s out x :
  x <> c_space -> thinned s out -> ~ In x s -> ~ In x out.
Proof.
  intros Hx H Hn Hin. destruct (thinned_In s out H x Hin); congruence.
Qed.

Lemma thinned_unpaired a b s out :
  a <> c_space -> b <> c_space ->
  thinned s out -> unpaired a b s -> unpaired a b out.
Proof.
  intros Ha Hb. induction 1 as [|c s out H IH|c s out H IH|s out H IH];
    cbn [unpaired]; intros Hu.
  - exact I.
  - destruct Hu as [H1 H2]. split; [|now apply IH].
    intros E. apply (thinned_absent s out b Hb H). now apply H1.
  - apply IH, Hu.
  - split; [|now apply IH]. intros E. congruence.
Qed.

Lemma unpaired_app a b x y :
  unpaired a b (x ++ y) -> unpaired a b x /\ unpaired a b y.
Proof.
  induction x as [|c x IH]; cbn [app unpaired]; [tauto|].
  intros [H1 H2]. destruct (IH H2) as [Hx Hy]. repeat split; try assumption.
  intros E Hin. apply (H1 E). apply in_or_app. now left.
Qed.

Lemma single_spaced_app x y :
  single_spaced (x ++ y) -> single_spaced x /\ single_spaced y.
Proof.
  induction x as [|c x IH]; cbn [app single_spaced]; [tauto|].
  intros [H1 H2]. destruct (IH H2) as [Hx Hy]. repeat split; try assumption.
  - now apply H1.
  - destruct (H1 H) as [_ Hh]. destruct x; [intros ? [=] | exact Hh].
Qed.

(** *** Tags and braces *)

Lemma first_split (b : char) s :
  In b s -> exists u v, s = u ++ b :: v /\ ~ In b u.
Proof.
  induction s as [|c s IH]; [intros []|]. intros H.
  destruct (N.eq_dec c b) as [->|Hc].
  - exists [], s. split; [reflexivity | intros []].
  - destruct H as [->|H]; [congruence|].
    destruct (IH H) as (u & v & -> & Hu). exists (c :: u), v.
    split; [reflexivity|]. intros [E|E]; [congruence | contradiction].
Qed.

Lemma last_split (a : char) s :
  In a s -> exists u v, s = u ++ a :: v /\ ~ In a v.
Proof.
  induction s as [|c s IH]; [intros []|]. intros H.
  destruct (in_dec N.eq_dec a s) as [Hin|Hin].
  - destruct (IH Hin) as (u & v & -> & Hv). now exists (c :: u), v.
  - destruct H as [->|H]; [|contradiction]. now exists [], s.
Qed.

Lemma none_of_Forall (cs u : jsstring) :
  (forall c, In c cs -> ~ In c u) ->
  Forall (fun x => negb (existsb (N.eqb x) cs) = true) u.
Proof.
  intros H. apply List.Forall_forall. intros x Hx.
  apply negb_true_iff. destruct (existsb (N.eqb x) cs) eqn:E; [|reflexivity].
  apply existsb_exists in E as (c & Hc & E). apply N.eqb_eq in E as <-.
  now destruct (H x Hc).
Qed.

Lemma Matches_bracket a cs b pre u post :
  (forall c, In c cs -> ~ In c u) ->
  Matches (seqs [Chr a; Star (none_of cs); Chr b]) pre (a :: u ++ [b]) post.
Proof.
  intros H. cbn [seqs]. change (a :: u ++ [b]) with ([a] ++ u ++ [b] ++ []).
  apply M_Seq; [constructor; apply N.eqb_refl|].
  apply M_Seq; [apply Matches_Star_Cls_intro; now apply none_of_Forall|].
  apply M_Seq; [constructor; apply N.eqb_refl | constructor].
Qed.

Lemma Matches_bracket_inv a cs b pre s post :
  Matches (seqs [Chr a; Star (none_of cs); Chr b]) pre s post ->
  exists u, s = a :: u ++ [b].
Proof.
  cbn [seqs]. unfold Chr. intros H. inv_matches.
  repeat match goal with
         | H : (_ =? _) = true |- _ => apply N.eqb_eq in H; subst
         end.
  eexists. reflexivity.
Qed.

Lemma bracket_match_length a cs b pre s n cap :
  exec (seqs [Chr a; Star (none_of cs); Chr b]) pre s = Some (n, cap) ->
  (2 <= n)%nat.
Proof.
  intros E. apply exec_sound in E as (s1 & s2 & _ & -> & HM).
  apply Matches_bracket_inv in HM as (u & ->).
  simpl. rewrite length_app. simpl. lia.
Qed.

Lemma bracket_found a b pre s :
  In b s -> is_Some (exec (bracket a b) pre (a :: s)).
Proof.
  intros H. apply first_split in H as (u & v & -> & Hu).
  replace (a :: u ++ b :: v) with ((a :: u ++ [b]) ++ v)
    by (simpl; now rewrite <- app_assoc).
  apply exec_complete. apply Matches_bracket.
  intros c [<-|[]]. exact Hu.
Qed.

Lemma replace_bracket_unpaired a b :
  a <> c_space -> b <> c_space ->
  forall s pre skip, unpaired a b (replace_go (bracket a b) blank pre s skip).
Proof.
  intros Ha Hb. induction s as [|c s IH]; intros pre skip.
  - destruct skip; cbn [replace_go]; [|exact I].
    destruct (exec (bracket a b) pre []) as [[n cap]|] eqn:E; [|exact I].
    pose proof (bracket_match_length _ _ _ _ _ _ _ E) as Hn.
    apply exec_le in E. simpl in E. lia.
  - destruct skip; [|cbn [replace_go]; apply IH].
    rewrite replace_go_0.
    destruct (exec (bracket a b) pre (c :: s)) as [[[|n] cap]|] eqn:E.
    + apply bracket_match_length in E. lia.
    + unfold blank. rewrite expand_lit. cbn [app unpaired].
      split; [congruence | apply IH].
    + cbn [unpaired]. split; [|apply IH].
      intros -> Hin.
      apply (thinned_In _ _ (replace_go_thinned _ _ _ _)) in Hin
        as [Hin|Hin]; [congruence|].
      destruct (bracket_found a b pre s Hin) as [x Hx]. congruence.
Qed.

Lemma unpaired_no_bracket a b s :
  unpaired a b s -> test (bracket a b) s = false.
Proof.
  intros H. destruct (test (bracket a b) s) eqn:E; [|reflexivity].
  apply test_true in E as (p & s1 & s2 & -> & HM).
  apply Matches_bracket_inv in HM as (u & ->).
  apply unpaired_app in H as [_ H]. cbn [app unpaired] in H.
  destruct H as [H _]. destruct (H eq_refl).
  apply in_or_app. left. apply in_or_app. right. now left.
Qed.

(** *** Comments to the end of the line *)

Lemma semi_found pre s : exists n cap, exec re_semi pre (59 :: s) = Some (S n, cap).
Proof.
  assert (HM : Matches re_semi pre ([59] ++ []) s).
  { unfold re_semi. apply M_Seq; [constructor; reflexivity | constructor]. }
  apply exec_complete in HM as [[n cap] E]. simpl in E.
  destruct n as [|n]; [|eauto].
  apply exec_sound in E as (s1 & s2 & Hs & Hn & HM).
  unfold re_semi, Chr in HM. inv_matches. discriminate Hn.
Qed.

Lemma replace_semi_absent : forall s pre skip,
  ~ In 59 (replace_go re_semi blank pre s skip).
Proof.
  induction s as [|c s IH]; intros pre skip.
  - destruct skip; cbn [replace_go]; [|intros []].
    rewrite (exec_starts_with_nil (N.eqb 59)); [intros []|].
    unfold re_semi. apply starts_with_Seq, starts_with_Cls. auto.
  - destruct skip; [|cbn [replace_go]; apply IH].
    rewrite replace_go_0.
    destruct (exec re_semi pre (c :: s)) as [[[|n] cap]|] eqn:E;
      unfold blank; rewrite ?expand_lit; cbn [app].
    + intros [H|[H|H]]; [discriminate H | | now apply IH in H].
      subst c. destruct (semi_found pre s) as (n & cap' & E'). congruence.
    + intros [H|H]; [discriminate H | now apply IH in H].
    + intros [H|H]; [|now apply IH in H].
      subst c. destruct (semi_found pre s) as (n & cap' & E'). congruence.
Qed.

Lemma absent_no_semi s : ~ In 59 s -> test re_semi s = false.
Proof.
  intros H. destruct (test re_semi s) eqn:E; [|reflexivity].
  apply test_true in E as (p & s1 & s2 & -> & HM).
  unfold re_semi, Chr in HM. inv_matches.
  apply N.eqb_eq in Hc as <-. destruct H.
  apply in_or_app. right. now left.
Qed.

(** *** Parentheses *)

Lemma replace_go_strict r t :
  (forall pre s n cap, exec r pre s = Some (n, cap) -> (2 <= n)%nat) ->
  (forall cap, (length (expand t cap) <= 1)%nat) ->
  forall s pre, test_go r pre s = true ->
    (length (replace_go r t pre s O) < length s)%nat.
Proof.
  intros Hr Ht. induction s as [|c s IH]; intros pre H.
  - simpl in H. destruct (exec r pre []) as [[n cap]|] eqn:E; [|discriminate].
    pose proof (Hr _ _ _ _ E). apply exec_le in E. simpl in E. lia.
  - rewrite replace_go_0. cbn [test_go] in H.
    destruct (exec r pre (c :: s)) as [[n cap]|] eqn:E.
    + pose proof (Hr _ _ _ _ E) as Hn. apply exec_le in E.
      destruct n as [|n]; [lia|]. simpl in E.
      rewrite length_app.
      pose proof (proj1 (replace_go_shrinks r t Hr Ht s (c :: pre)) n ltac:(lia)).
      specialize (Ht cap). simpl. lia.
    + apply IH in H. simpl. lia.
Qed.

Lemma paren_fixpoint_no_match s :
  replace_all re_paren blank s = s -> test re_paren s = false.
Proof.
  intros H. destruct (test re_paren s) eqn:E; [|reflexivity].
  apply (replace_go_strict re_paren blank) in E.
  - unfold replace_all in H. rewrite H in E. lia.
  - intros pre s' n cap E'. now apply bracket_match_length in E'.
  - intros cap. simpl. lia.
Qed.

Lemma no_paren_unpaired : forall s pre,
  test_go re_paren pre s = false -> unpaired 40 41 s.
Proof.
  induction s as [|c s IH]; intros pre H; [exact I|].
  cbn [unpaired]. split.
  - intros -> Hin.
    apply first_split in Hin as (u & v & -> & Hu).
    assert (T : test_go re_paren pre (40 :: u ++ 41 :: v) = true);
      [|congruence].
    apply test_go_true.
    destruct (in_dec N.eq_dec 40 u) as [Hin|Hin].
    + apply last_split in Hin as (u1 & u2 & -> & Hu2).
      exists (40 :: u1), (40 :: u2 ++ [41]), v. split.
      * simpl. rewrite <- !app_assoc. reflexivity.
      * apply Matches_bracket. intros x [<-|[<-|[]]]; [exact Hu2|].
        intros Hx. apply Hu. apply in_or_app. right. now right.
    + exists [], (40 :: u ++ [41]), v. split.
      * simpl. rewrite <- !app_assoc. reflexivity.
      * apply Matches_bracket. intros x [<-|[<-|[]]]; assumption.
  - cbn [test_go] in H. destruct (exec re_paren pre (c :: s)); [discriminate|].
    now apply IH in H.
Qed.

Lemma unpaired_no_paren s : unpaired 40 41 s -> test re_paren s = false.
Proof.
  intros H. destruct (test re_paren s) eqn:E; [|reflexivity].
  apply test_true in E as (p & s1 & s2 & -> & HM).
  apply Matches_bracket_inv in HM as (u & ->).
  apply unpaired_app in H as [_ H]. cbn [app unpaired] in H.
  destruct H as [H _]. destruct (H eq_refl).
  apply in_or_app. left. apply in_or_app. right. now left.
Qed.

Lemma strip_parens_keeps (Q : jsstring -> Prop) :
  (forall s, Q s -> Q (replace_all re_paren blank s)) ->
  forall fuel s, Q s -> Q (strip_parens fuel s).
Proof.
  intros HQ. induction fuel as [|f IH]; intros s Hs; [exact Hs|].
  cbn [strip_parens]. cbv zeta.
  destruct (str_eqb _ s); [now apply HQ | now apply IH, HQ].
Qed.

(** *** White space *)

Lemma spaces_split s :
  exists w rest, s = w ++ rest /\ spaces w /\ head_ok rest.
Proof.
  induction s as [|c s (w & rest & -> & Hw & Hr)].
  - exists [], []. repeat split; [constructor | intros ? [=]].
  - destruct (is_space c) eqn:E.
    + exists (c :: w), rest. repeat split; [now constructor | exact Hr].
    + exists [], (c :: w ++ rest). repeat split; [constructor|].
      intros ? [= <-]. exact E.
Qed.

Lemma exec_spaces_run c w rest pre :
  is_space c = true -> spaces w -> head_ok rest ->
  exec re_spaces pre (c :: w ++ rest) = Some (S (length w), None).
Proof.
  intros Hc Hw Hr. unfold exec, re_spaces, Plus.
  rewrite m_Seq_Cls by exact Hc. cbn [m].
  apply star_spaces; [exact Hw | exact Hr | rewrite length_app; lia |].
  do 2 f_equal. cbn [length]. rewrite length_app. lia.
Qed.

Lemma exec_spaces_none c s pre :
  is_space c = false -> exec re_spaces pre (c :: s) = None.
Proof.
  intros H. apply (exec_starts_with is_space); [|exact H].
  unfold re_spaces, Plus. apply starts_with_Seq, starts_with_Cls. auto.
Qed.

Lemma exec_spaces_nil pre : exec re_spaces pre [] = None.
Proof.
  apply (exec_starts_with_nil is_space).
  unfold re_spaces, Plus. apply starts_with_Seq, starts_with_Cls. auto.
Qed.

Lemma collapse_single_spaced : forall n s pre,
  (length s <= n)%nat ->
  single_spaced (replace_go re_spaces blank pre s O) /\
  (head_ok s -> head_ok (replace_go re_spaces blank pre s O)).
Proof.
  induction n as [|n IH]; intros s pre Hn.
  - destruct s; [|simpl in Hn; lia].
    cbn [replace_go]. rewrite exec_spaces_nil. split; [exact I | auto].
  - destruct s as [|c s].
    { cbn [replace_go]. rewrite exec_spaces_nil. split; [exact I | auto]. }
    rewrite replace_go_0. destruct (is_space c) eqn:Ec.
    + destruct (spaces_split s) as (w & rest & -> & Hw & Hr).
      rewrite (exec_spaces_run c w rest pre Ec Hw Hr).
      unfold blank. rewrite expand_lit. rewrite replace_go_skip.
      destruct (IH rest (rev w ++ c :: pre)) as [H1 H2].
      { simpl in Hn. rewrite length_app in Hn. lia. }
      split.
      * cbn [app single_spaced]. split; [|exact H1].
        intros _. split; [reflexivity | now apply H2].
      * intros Hh. specialize (Hh c eq_refl). congruence.
    + rewrite exec_spaces_none by exact Ec.
      destruct (IH s (c :: pre)) as [H1 _]; [simpl in Hn; lia|].
      split.
      * cbn [single_spaced]. split; [congruence | exact H1].
      * intros _ x [= <-]. exact Ec.
Qed.

Lemma single_spaced_fixed : forall s pre,
  single_spaced s -> replace_go re_spaces blank pre s O = s.
Proof.
  induction s as [|c s IH]; intros pre H.
  - cbn [replace_go]. now rewrite exec_spaces_nil.
  - cbn [single_spaced] in H. destruct H as [H1 H2].
    rewrite replace_go_0. destruct (is_space c) eqn:Ec.
    + destruct (H1 eq_refl) as [-> Hh].
      pose proof (exec_spaces_run c_space [] s pre Ec (List.Forall_nil _) Hh) as E.
      cbn [app length] in E. rewrite E.
      unfold blank. rewrite expand_lit. cbn [app]. now rewrite IH.
    + rewrite exec_spaces_none by exact Ec. now rewrite IH.
Qed.

(** *** The stripped text *)

Lemma stripPgnMetadata_no_match y :
  test re_tag y = false -> test re_brace y = false ->
  test re_semi y = false -> test re_paren y = false ->
  stripPgnMetadata y = trim (replace_all re_spaces blank y).
Proof.
  intros H1 H2 H3 H4. unfold stripPgnMetadata.
  destruct y as [|c y]; [reflexivity|]. cbn [truthy negb]. cbv zeta.
  rewrite (replace_all_no_match re_tag) by exact H1.
  rewrite (replace_all_no_match re_brace) by exact H2.
  rewrite (replace_all_no_match re_semi) by exact H3.
  cbn [strip_parens]. cbv zeta.
  rewrite (replace_all_no_match re_paren) by exact H4.
  now rewrite str_eqb_refl.
Qed.

(** What holds of the text before the final [trim]. *)
Lemma stripPgnMetadata_shape text :
  let y := stripPgnMetadata text in
  head_ok y /\ last_ok y /\ single_spaced y /\ ~ In 59 y /\
  unpaired 91 93 y /\ unpaired 123 125 y /\ unpaired 40 41 y.
Proof.
  unfold stripPgnMetadata. destruct (negb (truthy text)).
  { cbv zeta. repeat split; try exact I; try (intros ? [=]). intros []. }
  cbv zeta.
  set (s1 := replace_all re_tag blank text).
  set (s2 := replace_all re_brace blank s1).
  set (s3 := replace_all re_semi blank s2).
  set (s4 := strip_parens (S (length s3)) s3).
  set (s5 := replace_all re_spaces blank s4).
  assert (T : forall r s, thinned s (replace_all r blank s))
    by (intros r s; apply replace_go_thinned).
  assert (K : forall a b, a <> c_space -> b <> c_space ->
            forall r s, unpaired a b s -> unpaired a b (replace_all r blank s)).
  { intros a b Ha Hb r s. apply thinned_unpaired; auto. }
  assert (A : forall r s, ~ In 59 s -> ~ In 59 (replace_all r blank s)).
  { intros r s. apply thinned_absent; [discriminate | apply T]. }
  assert (U1 : unpaired 91 93 s1)
    by (apply (replace_bracket_unpaired 91 93); discriminate).
  assert (U2 : unpaired 123 125 s2)
    by (apply (replace_bracket_unpaired 123 125); discriminate).
  assert (U3 : ~ In 59 s3) by apply replace_semi_absent.
  assert (U4 : unpaired 40 41 s4).
  { apply (no_paren_unpaired _ []). apply paren_fixpoint_no_match.
    apply strip_parens_fixpoint. lia. }
  assert (U5 : single_spaced s5)
    by (apply (collapse_single_spaced (length s4)); lia).
  assert (V1 : unpaired 91 93 s5).
  { apply K; try discriminate.
    apply strip_parens_keeps; [apply K; discriminate|].
    do 2 (apply K; try discriminate). exact U1. }
  assert (V2 : unpaired 123 125 s5).
  { apply K; try discriminate.
    apply strip_parens_keeps; [apply K; discriminate|].
    apply K; try discriminate. exact U2. }
  assert (V3 : ~ In 59 s5).
  { apply A. apply strip_parens_keeps; [apply A | exact U3]. }
  assert (V4 : unpaired 40 41 s5) by (apply K; try discriminate; exact U4).
  destruct (trim_is_factor s5) as (a & b & E).
  split; [apply trim_head_ok|]. split; [apply trim_last_ok|].
  rewrite E in U5, V1, V2, V3, V4.
  apply single_spaced_app in U5 as [_ U5]. apply single_spaced_app in U5 as [U5 _].
  apply unpaired_app in V1 as [_ V1]. apply unpaired_app in V1 as [V1 _].
  apply unpaired_app in V2 as [_ V2]. apply unpaired_app in V2 as [V2 _].
  apply unpaired_app in V4 as [_ V4]. apply unpaired_app in V4 as [V4 _].
  repeat split; try assumption.
  intros Hin. apply V3. apply in_or_app. right. apply in_or_app. now left.
Qed.

(** The text that [stripPgnMetadata] returns neither begins nor ends
    with white space, has its white space as single spaces only, and has
    nothing left for the stripper to remove: no tag, no brace comment, no
    semicolon comment and no parenthesized variation. *)
Theorem stripPgnMetadata_output text :
  head_ok (stripPgnMetadata text) /\ last_ok (stripPgnMetadata text) /\
  single_spaced (stripPgnMetadata text) /\
  test re_tag (stripPgnMetadata text) = false /\
  test re_brace (stripPgnMetadata text) = false /\
  test re_semi (stripPgnMetadata text) = false /\
  test re_paren (stripPgnMetadata text) = false.
Proof.
  destruct (stripPgnMetadata_shape text) as (H1 & H2 & H3 & H4 & H5 & H6 & H7).
  repeat split; try assumption.
  - now apply (unpaired_no_bracket 91 93).
  - now apply (unpaired_no_bracket 123 125).
  - now apply absent_no_semi.
  - now apply unpaired_no_paren.
Qed.

(** Stripping a stripped text changes nothing. *)
Theorem stripPgnMetadata_idempotent text :
  stripPgnMetadata (stripPgnMetadata text) = stripPgnMetadata text.
Proof.
  destruct (stripPgnMetadata_shape text) as (H1 & H2 & H3 & H4 & H5 & H6 & H7).
  rewrite stripPgnMetadata_no_match.
  - unfold replace_all. rewrite single_spaced_fixed by exact H3.
    now apply trim_fixed.
  - now apply (unpaired_no_bracket 91 93).
  - now apply (unpaired_no_bracket 123 125).
  - now apply absent_no_semi.
  - now apply unpaired_no_paren.
Qed.
(** ** Reading back what [formatHistoryAsPgn] writes *)





(** *** The words of the notation *)









(** *** Splitting at white space *)



(** *** The tokens *)







(** ** The loose scan *)

Lemma match_all_go_Matches r x : forall s pre skip,
  In x (match_all_go r pre s skip) -> exists pre' post, Matches r pre' x post.
Proof.
  induction s as [|c s IH]; intros pre skip H.
  - destruct skip; cbn [match_all_go] in H; [|destruct H].
    destruct (exec r pre []) as [[[|n] cap]|] eqn:E; cbn [In] in H.
    + destruct H as [<-|[]]. apply exec_sound in E as (s1 & s2 & Hs & Hn & HM).
      destruct s1; [eauto | discriminate].
    + apply exec_le in E. simpl in E. lia.
    + destruct H.
  - destruct skip; cbn [match_all_go] in H; [|now apply IH in H].
    destruct (exec r pre (c :: s)) as [[[|n] cap]|] eqn:E.
    + destruct H as [<-|H]; [|now apply IH in H].
      apply exec_sound in E as (s1 & s2 & Hs & Hn & HM).
      destruct s1; [eauto | discriminate].
    + destruct H as [<-|H]; [|now apply IH in H].
      apply exec_sound in E as (s1 & s2 & Hs & Hn & HM).
      rewrite Hs, Hn, take_app_length. eauto.
    + now apply IH in H.
Qed.

Lemma Matches_singleMovePattern pre x post :
  Matches singleMovePattern pre x post -> loose_move x.
Proof.
  unfold singleMovePattern. intros H.
  apply Matches_Alt_inv in H as [H|H].
  - right. right. cbn [seqs] in H. unfold one_of, Chr in H.
    inv_matches. inv_optional.
    match goal with
    | HP : optional _ ?sp, HF : optional _ ?sf, HR : optional _ ?sr,
      HX : optional (N.eqb 120) ?sx, HQ : ?sq = [] \/ _,
      HK : optional _ ?mk
      |- exists core mk', ?sp ++ ?sf ++ ?sr ++ ?sx ++ [?d1] ++ [?d2] ++ ?sq ++ ?mk ++ []
                         = core ++ mk' /\ _ =>
        exists (sp ++ sf ++ sr ++ sx ++ [d1; d2] ++ sq), mk;
        split; [rewrite app_nil_r, <- !app_assoc; reflexivity|];
        split; [|exact HK];
        exists sp, sf, sr, sx, d1, d2, sq; split; [reflexivity|];
        split; [exact HP|]; split; [exact HF|]; split; [exact HR|];
        split; [exact HX|]; split; [assumption|]; split; [assumption|];
        destruct HQ as [->|(a & b & -> & Ha & Hb)]; [now left|];
        apply N.eqb_eq in Ha as <-; right; exists b; split; [reflexivity | exact Hb]
    end.
  - apply Matches_Alt_inv in H as [H|H]; apply Matches_Lit_inv in H as ->;
      [left | right; left]; reflexivity.
Qed.

Lemma san_chars_facts c :
  mem san_chars c = true ->
  is_space c = false /\ is_mark c = false /\ (c_dash =? c) = false /\
  (c_zero =? c) = false.
Proof.
  unfold mem, san_chars. intros H. simpl in H.
  repeat (apply orb_prop in H as [H|H];
          [apply N.eqb_eq in H as ->; repeat split; reflexivity|]).
  discriminate.
Qed.

Lemma mem_sublist (cs ds : jsstring) c :
  forallb (mem ds) cs = true -> mem cs c = true -> mem ds c = true.
Proof.
  intros Hsub H. unfold mem in H. apply existsb_exists in H as (x & Hx & E).
  apply N.eqb_eq in E as <-.
  rewrite forallb_forall in Hsub. now apply Hsub.
Qed.

Lemma optional_Forall (p q : char -> bool) s :
  (forall c, p c = true -> q c = true) -> optional p s ->
  Forall (fun c => q c = true) s.
Proof.
  intros Hpq [->|(c & -> & Hc)]; [constructor|]. repeat constructor. auto.
Qed.

Lemma san_core_chars u :
  san_core u -> Forall (fun c => mem san_chars c = true) u.
Proof.
  intros (sp & sf & sr & sx & d1 & d2 & sq & -> & Hp & Hf & Hr & Hx & H1 & H2 & Hq).
  repeat (apply Forall_app; split).
  - apply (optional_Forall (mem pieces)); [|exact Hp].
    intros c. now apply mem_sublist.
  - apply (optional_Forall (mem files)); [|exact Hf].
    intros c. now apply mem_sublist.
  - apply (optional_Forall (mem ranks)); [|exact Hr].
    intros c. now apply mem_sublist.
  - apply (optional_Forall (N.eqb 120)); [|exact Hx].
    intros c Hc. apply N.eqb_eq in Hc as <-. reflexivity.
  - constructor; [now apply (mem_sublist files)|].
    constructor; [now apply (mem_sublist ranks) | constructor].
  - destruct Hq as [->|(c & -> & Hc)]; [constructor|].
    constructor; [reflexivity|].
    constructor; [now apply (mem_sublist promos) | constructor].
Qed.

Lemma mem_either_case cs c :
  Forall (fun x => is_upper x || is_lower x = true) cs ->
  mem cs c = true -> either_case cs c = true.
Proof.
  unfold mem, either_case. intros Hl H.
  apply existsb_exists in H as (x & Hx & E). apply N.eqb_eq in E as <-.
  apply existsb_exists. exists c. split; [exact Hx|].
  rewrite List.Forall_forall in Hl. specialize (Hl c Hx).
  unfold to_upper_ascii. destruct (is_lower c) eqn:E.
  - apply orb_true_iff. right. apply N.eqb_eq.
    unfold is_lower, in_range in E. apply andb_prop in E as [E _].
    apply N.leb_le in E. lia.
  - now rewrite N.eqb_refl.
Qed.

Lemma san_core_shape u :
  san_core u -> san_shape u /\ has_destination u /\ (2 <= length u)%nat.
Proof.
  intros (sp & sf & sr & sx & d1 & d2 & sq & -> & Hp & Hf & Hr & Hx & H1 & H2 & Hq).
  split; [|split].
  - exists sp, sf, sr, sx, d1, d2, sq. split; [reflexivity|].
    repeat split; try assumption.
    + destruct Hp as [->|(c & -> & Hc)]; [now left|]. right. exists c.
      split; [reflexivity|]. now apply mem_either_case; [apply letters_pieces|].
    + destruct Hf as [->|(c & -> & Hc)]; [now left|]. right. exists c.
      split; [reflexivity|]. now apply mem_either_case; [apply letters_files|].
    + destruct Hx as [->|(c & -> & Hc)]; [now left|]. right. exists c.
      split; [reflexivity|]. apply N.eqb_eq in Hc as <-. reflexivity.
    + now apply mem_either_case; [apply letters_files|].
    + destruct Hq as [->|(c & -> & Hc)]; [now left|]. right. exists c.
      split; [reflexivity|]. now apply mem_either_case; [apply letters_promos|].
  - exists (sp ++ sf ++ sr ++ sx), d1, d2, sq.
    split; [now rewrite <- !app_assoc | now split].
  - rewrite !length_app. simpl. lia.
Qed.

Lemma trim_no_space t : Forall (fun c => is_space c = false) t -> trim t = t.
Proof.
  intros Hs. destruct t as [|c t] using rev_ind; [reflexivity|].
  apply trim_fixed.
  - destruct t; intros x Hx; injection Hx as <-; now inversion Hs.
  - apply (last_ok_snoc _ t c); [reflexivity|].
    apply Forall_app in Hs as [_ Hs]. now inversion Hs.
Qed.

Lemma filter_keep (f : char -> bool) l :
  Forall (fun c => f c = true) l -> List.filter f l = l.
Proof.
  induction 1 as [|c l Hc _ IH]; [reflexivity|]. simpl. now rewrite Hc, IH.
Qed.

Lemma filter_drop (f : char -> bool) l :
  Forall (fun c => f c = false) l -> List.filter f l = [].
Proof.
  induction 1 as [|c l Hc _ IH]; [reflexivity|]. simpl. now rewrite Hc.
Qed.

Lemma loose_move_kept x :
  loose_move x ->
  isValidMove (cleanMove x) = true /\ cleanMove x = x /\
  truthy x = true /\ last_ok x.
Proof.
  intros [->|[->|(core & mk & -> & Hcore & Hmk)]].
  - repeat split; try reflexivity. intros c [= <-]. reflexivity.
  - repeat split; try reflexivity. intros c [= <-]. reflexivity.
  - pose proof (san_core_chars core Hcore) as Hch.
    destruct (san_core_shape core Hcore) as (Hshape & Hdest & Hlen).
    assert (Hmark : Forall (fun c => is_space c = false /\ is_mark c = true /\
                                     (c_dash =? c) = false /\ (c_zero =? c) = false) mk).
    { destruct Hmk as [->|(c & -> & Hc)]; [constructor|].
      repeat constructor; unfold mem in Hc; simpl in Hc;
        repeat (apply orb_prop in Hc as [Hc|Hc];
                [apply N.eqb_eq in Hc as ->; reflexivity|]); discriminate. }
    assert (Hall : forall Q : char -> Prop,
              (forall c, mem san_chars c = true -> Q c) ->
              (forall c, is_space c = false /\ is_mark c = true /\
                         (c_dash =? c) = false /\ (c_zero =? c) = false -> Q c) ->
              Forall Q (core ++ mk)).
    { intros Q H1 H2. apply Forall_app. split;
        (eapply Forall_impl; [eassumption|]); simpl; auto. }
    assert (Hsp : Forall (fun c => is_space c = false) (core ++ mk)).
    { apply Hall; [intros c Hc; now apply san_chars_facts | tauto]. }
    assert (Hd : dashes (core ++ mk) = 0%nat).
    { apply dashes_zero_Forall, Hall;
        [intros c Hc; now apply san_chars_facts | tauto]. }
    assert (Hz : test (Lit (str "00")) (core ++ mk) = false).
    { apply zero_free_no_match; [apply starts_with_Lit|].
      apply Hall; [intros c Hc; now apply san_chars_facts | tauto]. }
    assert (Hclean : cleanMove (core ++ mk) = core ++ mk).
    { unfold cleanMove. rewrite trim_no_space by exact Hsp.
      rewrite normalizeCastling_no_match by assumption.
      destruct (test re_castle_lit (core ++ mk)) eqn:E; [|reflexivity].
      apply test_re_castle_lit, castling_shape_dash in E. lia. }
    assert (Hne : core ++ mk <> []).
    { destruct core; [simpl in Hlen; lia | discriminate]. }
    split; [|split; [exact Hclean|split]].
    + rewrite Hclean. apply isValidMove_iff. split.
      { rewrite length_app. lia. }
      right.
      assert (En : normalized_token (core ++ mk) = core).
      { unfold normalized_token. rewrite List.filter_app.
        rewrite (filter_keep _ core).
        - replace (List.filter (fun c => negb (is_mark c)) mk) with (@nil N).
          + rewrite app_nil_r.
            apply Forall_app in Hsp as [Hsp _].
            rewrite trim_no_space by exact Hsp.
            apply normalizeCastling_no_match.
            * rewrite dashes_app in Hd. lia.
            * apply zero_free_no_match; [apply starts_with_Lit|].
              eapply Forall_impl; [exact Hch|]. intros c Hc. simpl.
              now apply san_chars_facts.
          + symmetry. apply filter_drop.
            eapply Forall_impl; [exact Hmark|]. intros c (_ & Hm & _). simpl.
            now rewrite Hm.
        - eapply Forall_impl; [exact Hch|]. intros c Hc. simpl.
          apply san_chars_facts in Hc as (_ & -> & _). reflexivity. }
      rewrite En. now split.
    + now apply truthy_nonempty.
    + rewrite <- (trim_no_space _ Hsp). apply trim_last_ok.
Qed.

Lemma pair_moves_reconstruct : forall l,
  Forall loose_move l ->
  (forall acc n, pair_moves l acc n = acc ++ reconstruct n l) /\
  (forall w acc n, loose_move w ->
     pair_moves (w :: l) acc n = acc ++ reconstruct n (w :: l)).
Proof.
  induction l as [|b rest IH]; intros H.
  - split; [intros acc n; simpl; now rewrite app_nil_r|].
    intros w acc n Hw. destruct (loose_move_kept w Hw) as (Hv & Hc & _).
    cbn [pair_moves reconstruct]. cbv zeta. rewrite Hv, Hc. reflexivity.
  - inversion H as [|? ? Hb Hrest]; subst.
    destruct (IH Hrest) as [IH1 IH2]. split; [intros acc n; now apply IH2|].
    intros w acc n Hw.
    destruct (loose_move_kept w Hw) as (Hv & Hc & _).
    destruct (loose_move_kept b Hb) as (Hvb & Hcb & Htb & _).
    cbn [pair_moves reconstruct]. cbv zeta.
    rewrite Hcb in Hvb. rewrite Hv, Hc, Htb, Hcb, Htb, Hvb. cbn [andb].
    rewrite IH1. change (c_space :: b) with ([c_space] ++ b).
    rewrite <- !app_assoc. reflexivity.
Qed.

Lemma match_all_loose s : Forall loose_move (match_all singleMovePattern s).
Proof.
  apply List.Forall_forall. intros x Hx.
  apply match_all_go_Matches in Hx as (pre & post & HM).
  now apply Matches_singleMovePattern in HM.
Qed.

(** On a text with no hyphen and no two zeros in a row, every move that
    the loose scan finds passes the checks of its loop unchanged, and the
    result of [extractChessMoves] is what [formatHistoryAsPgn] writes for
    the moves found, when there are at least two of them, and the empty
    text otherwise. *)
Theorem extractChessMoves_formats_found text :
  dashes text = 0%nat -> test (Lit (str "00")) text = false ->
  let found :=
    match_all singleMovePattern (trim (replace_all re_spaces blank text)) in
  Forall (fun x => isValidMove (cleanMove x) = true /\ cleanMove x = x) found /\
  extractChessMoves text =
  if (2 <=? length found)%nat then formatHistoryAsPgn found else [].
Proof.
  intros Hd Hz found.
  pose proof (match_all_loose (trim (replace_all re_spaces blank text))) as Hl.
  fold found in Hl. split.
  - eapply Forall_impl; [exact Hl|]. intros x Hx. simpl.
    destruct (loose_move_kept x Hx) as (H1 & H2 & _). now split.
  - rewrite extractChessMoves_loose by assumption. cbv zeta. fold found.
    destruct (2 <=? length found)%nat; [|reflexivity].
    rewrite (proj1 (pair_moves_reconstruct found Hl)). cbn [app].
    apply trim_reconstruct.
    eapply Forall_impl; [exact Hl|]. intros x Hx. simpl.
    destruct (loose_move_kept x Hx) as (_ & _ & H3 & H4). now split.
Qed.

Lemma extractChessMoves_formats_found_witness :
  Forall (fun x => isValidMove (cleanMove x) = true /\ cleanMove x = x)
    (match_all singleMovePattern
       (trim (replace_all re_spaces blank (str "7. e4 e5+ 8. Nxf3")))) /\
  extractChessMoves (str "7. e4 e5+ 8. Nxf3") =
  if (2 <=? length (match_all singleMovePattern
                      (trim (replace_all re_spaces blank
                               (str "7. e4 e5+ 8. Nxf3")))))%nat
  then formatHistoryAsPgn
         (match_all singleMovePattern
            (trim (replace_all re_spaces blank (str "7. e4 e5+ 8. Nxf3"))))
  else [].
Proof.
  exact (extractChessMoves_formats_found (str "7. e4 e5+ 8. Nxf3")
           eq_refl eq_refl).
Defined.
(** ** The [valid] branch of the orchestrator *)

Lemma valid_branch_returns_unloaded_text_witness :
  fst (parsePgnTextInput LineOracle.oracle
         (str "1. e4 e5 2. Nf3 Nc6 3. Bc4 Bc5 4. O-{x}O") []) =
  Ret {| success := true;
         pgn := Some (validated_text (str "1. e4 e5 2. Nf3 Nc6 3. Bc4 Bc5 4. O-{x}O"));
         error := None;
         movesFound :=
           Some (ceil_half (length (game_history LineOracle.oracle
                   (snd (game_loadPgn LineOracle.oracle
                           (new_game LineOracle.oracle)
                           (replayed_text
                              (str "1. e4 e5 2. Nf3 Nc6 3. Bc4 Bc5 4. O-{x}O")))))));
         isPartial := None |} /\
  loads LineOracle.oracle
    (validated_text (str "1. e4 e5 2. Nf3 Nc6 3. Bc4 Bc5 4. O-{x}O")) = false.
Proof.
  apply (valid_branch_returns_unloaded_text LineOracle.oracle
           (str "1. e4 e5 2. Nf3 Nc6 3. Bc4 Bc5 4. O-{x}O") []);
    vm_compute; reflexivity.
Defined.
(** ** Move numbers in the replay *)

Section NumbersTheory.
Variable O : Oracle.
Implicit Types (h : store O) (g : Game O).

Lemma same_replay_refl a : same_replay a a.
Proof. destruct a as [[pm f]|]; simpl; auto. Qed.

(** The move number in force only shows in the text that names the
    failure. *)
Lemma replay_tokens_number testGame : forall moves pm n n' h,
  snd (replay_tokens O testGame moves pm n h)
  = snd (replay_tokens O testGame moves pm n' h) /\
  same_replay (fst (replay_tokens O testGame moves pm n h))
              (fst (replay_tokens O testGame moves pm n' h)).
Proof.
  induction moves as [|raw moves IH]; intros pm n n' h.
  - simpl. auto.
  - cbn [replay_tokens].
    destruct (negb (truthy (trim raw))); [apply IH|].
    destruct (test re_move_number (trim raw)); [apply IH|].
    destruct (negb (truthy (trim (replace_all re_number_dot [] (trim raw)))));
      [apply IH|].
    set (step := try_catch _ _). unfold bind.
    destruct (step h) as [[[c|]|] h1]; simpl.
    + apply IH.
    + split; [reflexivity|]. split; [reflexivity|].
      unfold failure_text. destruct (trim raw); reflexivity.
    + auto.
Qed.

Lemma replay_tokens_skip testGame : forall moves pm n h,
  snd (replay_tokens O testGame moves pm n h)
  = snd (replay_tokens O testGame (without_numbers moves) pm n h) /\
  same_replay (fst (replay_tokens O testGame moves pm n h))
              (fst (replay_tokens O testGame (without_numbers moves) pm n h)).
Proof.
  induction moves as [|raw moves IH]; intros pm n h.
  - simpl. auto.
  - assert (Ew : without_numbers (raw :: moves)
                 = if negb (is_number_token raw)
                   then raw :: without_numbers moves
                   else without_numbers moves) by reflexivity.
    rewrite Ew. clear Ew. unfold is_number_token.
    destruct (truthy (trim raw)) eqn:Et; cbn [andb negb].
    + destruct (test re_move_number (trim raw)) eqn:Em; cbn [negb].
      * cbn [replay_tokens]. rewrite Et, Em. cbn [negb].
        destruct (replay_tokens_number testGame moves pm (parseInt (trim raw)) n h)
          as [E1 E2].
        destruct (IH pm n h) as [E3 E4]. rewrite E1. split; [exact E3|].
        destruct (fst (replay_tokens O testGame moves pm (parseInt (trim raw)) h))
          as [[a f]|], (fst (replay_tokens O testGame moves pm n h)) as [[a' f']|],
          (fst (replay_tokens O testGame (without_numbers moves) pm n h))
          as [[a'' f'']|]; simpl in *; try tauto.
        destruct E2 as [-> ->]. exact E4.
      * cbn [replay_tokens]. rewrite Et, Em. cbn [negb].
        destruct (negb (truthy (trim (replace_all re_number_dot [] (trim raw)))));
          [apply IH|].
        set (step := try_catch _ _). unfold bind.
        destruct (step h) as [[[c|]|] h1]; simpl.
        -- apply IH.
        -- split; [reflexivity|]. split; reflexivity.
        -- auto.
    + cbn [replay_tokens]. rewrite Et. cbn [negb]. apply IH.
Qed.

(** The replay does not check move numbers: a list of tokens and the
    same list without its move-number tokens are replayed to the same
    accepted moves and the same board, with a failure named in both or in
    neither.  A move number only shows in the text that names the
    failure. *)
Theorem replay_tokens_ignores_numbers testGame moves pm n h :
  snd (replay_tokens O testGame moves pm n h)
  = snd (replay_tokens O testGame (without_numbers moves) pm n h) /\
  same_replay (fst (replay_tokens O testGame moves pm n h))
              (fst (replay_tokens O testGame (without_numbers moves) pm n h)).
Proof. apply replay_tokens_skip. Qed.
End NumbersTheory.

(** ** Exceptions *)

Section ReturnsTheory.
Variable O : Oracle.
Variable Inv : Game O -> Prop.
Hypothesis coh : coherent O Inv.
Implicit Types (h : store O) (g : Game O).

Lemma replay_tokens_returns testGame : forall moves pm n h g,
  Inv g -> h !! testGame = Some g ->
  exists r h', replay_tokens O testGame moves pm n h = (Ret r, h').
Proof.
  destruct coh as (_ & Hstep & Hcoh).
  induction moves as [|raw moves IH]; intros pm n h g Hi Hg.
  - simpl. unfold ret. eauto.
  - cbn [replay_tokens].
    destruct (negb (truthy (trim raw))); [now apply (IH _ _ _ g)|].
    destruct (test re_move_number (trim raw)); [now apply (IH _ _ _ g)|].
    destruct (negb (truthy (trim (replace_all re_number_dot [] (trim raw)))));
      [now apply (IH _ _ _ g)|].
    set (token := normalizeCastling _).
    unfold bind at 1, try_catch at 1, bind at 1.
    destruct (game_move O g token) as [g1|] eqn:Hm.
    + rewrite (Chess_move_accepts O _ _ _ _ _ Hg Hm). unfold ret at 1.
      apply (IH _ _ _ g1); [now apply (Hstep g token)|].
      apply list_lookup_insert_eq. now apply lookup_lt_Some in Hg.
    + rewrite (Chess_move_refuses O _ _ _ _ Hg Hm). unfold bind at 1.
      destruct (tryOcrCorrections_run O testGame token h g Hg) as [fresh ->].
      assert (Hg' : (h ++ fresh) !! testGame = Some g)
        by now apply lookup_app_l_Some.
      destruct (correct O g token) as [c|] eqn:Ec; [|unfold ret; eauto].
      destruct (truthy c); [|unfold ret; eauto].
      apply correct_Some in Ec as [_ Ec].
      destruct (Hcoh g c Hi Ec) as [g1 Hm'].
      unfold bind at 1.
      rewrite (Chess_move_accepts O _ _ _ _ _ Hg' Hm'). unfold ret at 1.
      apply (IH _ _ _ g1); [now apply (Hstep g c)|].
      apply list_lookup_insert_eq. now apply lookup_lt_Some in Hg'.
Qed.

Lemma validatePgnWithDetails_returns pgn h :
  exists v h', validatePgnWithDetails O pgn h = (Ret v, h').
Proof.
  rewrite validatePgnWithDetails_run. cbv zeta.
  destruct (loads O _); [eauto|].
  unfold replay_fallback, bind at 1, Chess_new, alloc. unfold bind at 1.
  set (h1 := h ++ [snd (game_loadPgn O (new_game O) _)]).
  destruct (replay_tokens_returns (length h1)
              (split re_spaces (stripPgnMetadata (normalizeCastling pgn)))
              [] 1%nat (h1 ++ [new_game O]) (new_game O))
    as ([pm f] & h' & ->).
  - apply coh.
  - apply lookup_fresh.
  - destruct (0 <? length pm)%nat; unfold ret; eauto.
Qed.

(** With a rules engine that does not contradict itself, no exception
    leaves [parsePgnTextInput]: every call returns a result.  (The one
    call of the replay that is not guarded is the move played after a
    correction, which the corrector has seen accepted.) *)
Theorem parsePgnTextInput_returns raw h :
  exists r h', parsePgnTextInput O raw h = (Ret r, h').
Proof.
  destruct (truthy (cleanPgnInput raw)) eqn:E.
  - destruct (parsePgnTextInput_run O raw h E) as [fresh ->].
    destruct (first_loaded O _); [eauto|].
    unfold bind.
    destruct (validatePgnWithDetails_returns (validated_text raw) (h ++ fresh))
      as (v & h' & ->).
    destruct (valid v); [unfold ret; eauto|].
    destruct (truthy_opt (partialPgn v) && (0 <? moveCount v)%nat);
      unfold ret; eauto.
  - rewrite parsePgnTextInput_blank by exact E. eauto.
Qed.
End ReturnsTheory.

(** The example engine does not contradict itself on the positions of
    its lines. *)
Lemma LineOracle_is_prefix_firstn : forall p l,
  LineOracle.is_prefix p l = true -> p = firstn (length p) l.
Proof.
  induction p as [|x p IH]; intros [|y l] H; simpl in *; try reflexivity;
    try discriminate.
  apply andb_prop in H as [Hx Hp]. apply str_eqb_eq in Hx as ->.
  f_equal. now apply IH.
Qed.

Lemma LineOracle_is_prefix_snoc : forall p l x t,
  LineOracle.is_prefix p l = true -> skipn (length p) l = x :: t ->
  LineOracle.is_prefix (p ++ [x]) l = true.
Proof.
  induction p as [|y p IH]; intros [|z l] x t H Hs; simpl in *;
    try discriminate.
  - injection Hs as -> ->. now rewrite str_eqb_refl.
  - apply andb_prop in H as [Hy Hp]. rewrite Hy. simpl. eapply IH; eassumption.
Qed.

Lemma LineOracle_fen_round_trip p hh :
  LineOracle.known p = true ->
  LineOracle.of_fen (LineOracle.fen {| LineOracle.played := p; LineOracle.hist := hh |})
  = Some {| LineOracle.played := p; LineOracle.hist := [] |}.
Proof.
  unfold LineOracle.known. intros H.
  apply existsb_exists in H as (l & Hl & Hp).
  apply LineOracle_is_prefix_firstn in Hp. revert Hp.
  generalize (length p) as k. intros k ->.
  destruct Hl as [<-|[<-|[]]];
    do 8 (destruct k as [|k]; [vm_compute; reflexivity|]);
    vm_compute; reflexivity.
Qed.

Lemma LineOracle_coherent :
  coherent LineOracle.oracle
    (fun g => LineOracle.known (LineOracle.played g) = true).
Proof.
  split; [reflexivity|]. split.
  - intros g t g' _ H. simpl in H. unfold LineOracle.move in H.
    destruct (LineOracle.known (LineOracle.played g ++ [t])) eqn:E;
      [|discriminate].
    injection H as <-. exact E.
  - intros g c Hi H. simpl. unfold LineOracle.move.
    assert (E : LineOracle.known (LineOracle.played g ++ [c]) = true);
      [|rewrite E; eauto].
    destruct H as [H|H].
    + unfold includes in H. simpl in H. unfold LineOracle.moves in H.
      apply existsb_exists in H as (x & Hx & Ex). apply str_eqb_eq in Ex as <-.
      apply in_concat in Hx as (ys & Hys & Hx).
      apply in_map_iff in Hys as (l & <- & Hl).
      destruct (LineOracle.is_prefix (LineOracle.played g) l) eqn:Ep;
        [|destruct Hx].
      destruct (skipn (length (LineOracle.played g)) l) as [|y t] eqn:Es;
        [destruct Hx|]. destruct Hx as [<-|[]].
      unfold LineOracle.known. apply existsb_exists. exists l.
      split; [exact Hl|]. eapply LineOracle_is_prefix_snoc; eassumption.
    + unfold accepted_on_copy in H. simpl in H.
      destruct g as [p hh]. simpl in *.
      rewrite (LineOracle_fen_round_trip p hh Hi) in H.
      unfold LineOracle.move in H. simpl in H.
      destruct (LineOracle.known (p ++ [c])); [reflexivity|discriminate].
Qed.

Lemma parsePgnTextInput_returns_witness :
  exists r h',
    parsePgnTextInput LineOracle.oracle (str "1. e4 e5 2. Nf3 Nc6 3. Bb6 a6") []
    = (Ret r, h').
Proof.
  exact (parsePgnTextInput_returns LineOracle.oracle _ LineOracle_coherent
           (str "1. e4 e5 2. Nf3 Nc6 3. Bb6 a6") []).
Defined.

(** With an engine that contradicts itself the exception of the
    unguarded call leaves [parsePgnTextInput]. *)
Example parsePgnTextInput_can_throw :
  fst (parsePgnTextInput contrary (str "Nf3") []) = Throw.
Proof. vm_compute. reflexivity. Qed.
